(** * Replica consensus state and participant ops of Kudu, embedded in Rocq

    The development follows two translation units:
    - [src/kudu/consensus/raft_consensus_state.cc]: [QuorumState::Build] and
      the methods of [ReplicaState] (module [Consensus]);
    - [src/kudu/tablet/ops/participant_op.cc]: [ParticipantOpState::PerformOp]
      and [ParticipantOp::Apply] (module [Tablet]).

    Conventions of the embedding.
    - A C++ [uint64_t] is an [N]; where the code adds, the wrap-around at
      [2^64] is written out with [wrap64].  An [int] is a [Z], and a
      conversion to [int] is written [to_int32].
    - A method that mutates [this] takes the object and returns the new
      object; a method that can hit a [CHECK] returns an [Outcome], whose
      [Fatal] case is the abort of the process.
    - Calls into collaborators that are outside the two files (commit
      continuations, the callback pool, watcher sets, the MVCC manager, the
      transaction object) are recorded, in program order, in an effect log
      carried by the state.
    - [DCHECK]s are compiled out (release build); [CHECK]s are kept.  Where
      a property rests on what a [DCHECK] asserts, the method as a debug
      build runs it is modelled beside it, under the name of the method
      followed by [_debug], with the failed [DCHECK] as one more way to
      die. *)

From Stdlib Require Import NArith ZArith Lia.
From stdpp Require Import base decidable option list gmap sets strings pretty sorting.

Local Open Scope string_scope.

(** ** Status values ([kudu/util/status.h]) *)

Module Util.

(** Modelled from the spec: [kudu/util/status.h] is not among the sources; §7
    of the spec names the error kinds.  A status is a code and a message. *)
Inductive Code :=
| kOk | kIllegalState | kInvalidArgument | kServiceUnavailable
| kAlreadyPresent | kAborted | kIOError | kCorruption.

#[global] Instance Code_eq_dec : EqDecision Code.
Proof. solve_decision. Defined.

Record Status := mkStatus { code : Code; message : string }.

#[global] Instance Status_eq_dec : EqDecision Status.
Proof. solve_decision. Defined.

Definition OK : Status := mkStatus kOk "".
Definition IllegalState (msg : string) : Status := mkStatus kIllegalState msg.
Definition InvalidArgument (msg : string) : Status := mkStatus kInvalidArgument msg.
Definition ServiceUnavailable (msg : string) : Status := mkStatus kServiceUnavailable msg.
Definition AlreadyPresent (msg : string) : Status := mkStatus kAlreadyPresent msg.
Definition IOError (msg : string) : Status := mkStatus kIOError msg.

(** [Status::ok()]. *)
Definition ok (s : Status) : bool := bool_decide (code s = kOk).

(** [Status::CloneAndPrepend]: same code, the message gets a prefix. *)
Definition CloneAndPrepend (s : Status) (msg : string) : Status :=
  mkStatus (code s) (msg +:+ ": " +:+ message s).

(** What a method returns: either the process died on a [CHECK], or the method
    returned a status and left the object in state [s]. *)
Inductive Outcome (A : Type) :=
| Fatal
| Returned (st : Status) (s : A).
Arguments Fatal {A}.
Arguments Returned {A} st s.

(** Unsigned 64-bit arithmetic. *)
Definition u64_modulus : N := 2 ^ 64.
Definition u64_max : N := u64_modulus - 1.
Definition wrap64 (n : N) : N := (n mod u64_modulus)%N.

(** Conversion of an integer to a 32-bit [int] (two's complement). *)
Definition INT_MAX : Z := 2 ^ 31 - 1.
Definition to_int32 (z : Z) : Z := ((z + 2 ^ 31) mod 2 ^ 32 - 2 ^ 31)%Z.

End Util.

Export Util.

(** ** Operation identifiers and the ordered map of pending rounds *)

Module OpIds.

(** Modelled from the spec: [OpId] is generated from [opid.proto], which is
    not among the sources; §3 gives a pair [(term: u64, index: u64)]. *)
Record OpId := mkOpId { term : N; index : N }.

#[global] Instance OpId_eq_dec : EqDecision OpId.
Proof. solve_decision. Defined.

#[global] Instance OpId_countable : Countable OpId.
Proof.
  refine (inj_countable' (λ o, (term o, index o)) (λ p, mkOpId p.1 p.2) _).
  now intros [].
Defined.

(** Modelled from the spec: [OpIdCompare] lives in [log_util.h]; §3 fixes the
    order as lexicographic on [(term, index)].  The result is negative, zero
    or positive. *)
Definition OpIdCompare (first second : OpId) : Z :=
  if decide (term first = term second) then
    if (index first <? index second)%N then (-1)%Z
    else if (index first =? index second)%N then 0%Z else 1%Z
  else if (term first <? term second)%N then (-1)%Z else 1%Z.

Definition opid_lt (a b : OpId) : Prop := (OpIdCompare a b < 0)%Z.
Definition opid_le (a b : OpId) : Prop := (OpIdCompare a b <= 0)%Z.

#[global] Instance opid_lt_dec : RelDecision opid_lt.
Proof. intros a b. unfold opid_lt. apply _. Defined.
#[global] Instance opid_le_dec : RelDecision opid_le.
Proof. intros a b. unfold opid_le. apply _. Defined.

(** The ordered map [std::map<OpId, V>] as the list of its entries in key
    order.  An iterator is the suffix of the traversal it points at;
    [end()] is the empty suffix. *)
Section OrderedMap.
Context {V : Type}.

Definition keys (m : list (OpId * V)) : list OpId := m.*1.

(** The representation invariant of the container. *)
Definition ordered (m : list (OpId * V)) : Prop :=
  StronglySorted opid_lt (keys m).

(** [std::map::upper_bound(k)]: the first entry whose key is greater
    than [k]. *)
Fixpoint upper_bound (k : OpId) (m : list (OpId * V)) : list (OpId * V) :=
  match m with
  | [] => []
  | e :: rest =>
      if bool_decide (0 < OpIdCompare e.1 k)%Z then m else upper_bound k rest
  end.

(** The entries visited by [for (; iter != end_iter; iter++)]. *)
Definition iter_range (iter end_iter : list (OpId * V)) : list (OpId * V) :=
  take (length iter - length end_iter) iter.

(** [InsertOrDie(&map, k, v)]: [None] is the [CHECK] failure on a key
    that is already there. *)
Fixpoint map_InsertOrDie (k : OpId) (v : V) (m : list (OpId * V))
  : option (list (OpId * V)) :=
  match m with
  | [] => Some [(k, v)]
  | e :: rest =>
      if bool_decide (OpIdCompare k e.1 < 0)%Z then Some ((k, v) :: m)
      else if bool_decide (OpIdCompare k e.1 = 0)%Z then None
      else cons e <$> map_InsertOrDie k v rest
  end.

(** [EraseKeyReturnValuePtr(&map, k)]: the erased value (if any) and the
    map without the key. *)
Fixpoint EraseKeyReturnValuePtr (k : OpId) (m : list (OpId * V))
  : option V * list (OpId * V) :=
  match m with
  | [] => (None, [])
  | e :: rest =>
      if bool_decide (OpIdCompare e.1 k = 0)%Z then (Some e.2, rest)
      else let r := EraseKeyReturnValuePtr k rest in (r.1, e :: r.2)
  end.
End OrderedMap.

End OpIds.

Export OpIds.

(** ** [raft_consensus_state.cc] *)

Module Consensus.

(** *** Protocol-buffer messages used by the file *)

(** Modelled from the spec: the messages come from [metadata.proto] and
    [consensus.proto], which are not among the sources; §3 lists the peer
    roles and the fields of a quorum. *)
Inductive Role := LEADER | FOLLOWER | CANDIDATE | LEARNER | NON_PARTICIPANT.

#[global] Instance Role_eq_dec : EqDecision Role.
Proof. solve_decision. Defined.

Module QuorumPeerPB.
Record t := mk { permanent_uuid : string; role : Role }.
#[global] Instance QuorumPeerPB_eq_dec : EqDecision t.
Proof. solve_decision. Defined.
End QuorumPeerPB.

Module QuorumPB.
Record t := mk { peers : list QuorumPeerPB.t; seqno : Z }.
#[global] Instance QuorumPB_eq_dec : EqDecision t.
Proof. solve_decision. Defined.
(** [peers_size()] returns an [int]: a repeated field never holds more
    than [INT_MAX] entries. *)
Definition peers_size (q : t) : Z := Z.of_nat (length (peers q)).
Definition set_seqno (n : Z) (q : t) : t := mk (peers q) n.
End QuorumPB.

Inductive OperationType :=
| UNKNOWN_OP | NO_OP | WRITE_OP | ALTER_SCHEMA_OP | CHANGE_CONFIG_OP.

#[global] Instance OperationType_eq_dec : EqDecision OperationType.
Proof. solve_decision. Defined.

Module ReplicateMsg.
Record t := mk { id : OpId; op_type : OperationType }.
End ReplicateMsg.

Module ConsensusMetadataPB.
Record t := mk {
  current_term : N;
  voted_for : option string;
  committed_quorum : QuorumPB.t
}.
Definition has_voted_for (m : t) : bool := bool_decide (is_Some (voted_for m)).
Definition set_current_term (n : N) (m : t) : t :=
  mk n (voted_for m) (committed_quorum m).
Definition clear_voted_for (m : t) : t :=
  mk (current_term m) None (committed_quorum m).
Definition set_voted_for (uuid : string) (m : t) : t :=
  mk (current_term m) (Some uuid) (committed_quorum m).
Definition set_committed_quorum (q : QuorumPB.t) (m : t) : t :=
  mk (current_term m) (voted_for m) q.
End ConsensusMetadataPB.

(** Conversion to [int64_t]. *)
Definition to_int64 (z : Z) : Z := ((z + 2 ^ 63) mod 2 ^ 64 - 2 ^ 63)%Z.

(** *** QuorumState *)

Record QuorumState := mkQuorumState {
  role : Role;
  leader_uuid : string;
  voting_peers : gset string;
  majority_size : Z;
  quorum_size : Z;
  config_seqno : Z
}.

(** The body of the [BOOST_FOREACH] in [QuorumState::Build]; the accumulator
    holds the locals [role], [voting_peers] and [leader_uuid]. *)
Definition Build_body (self_uuid : string)
    (acc : Role * gset string * string) (peer_pb : QuorumPeerPB.t)
  : Role * gset string * string :=
  let '(role, voting_peers, leader_uuid) := acc in
  let role :=
    if decide (QuorumPeerPB.permanent_uuid peer_pb = self_uuid)
    then QuorumPeerPB.role peer_pb else role in
  let voting_peers :=
    if bool_decide (QuorumPeerPB.role peer_pb = LEADER) ||
       bool_decide (QuorumPeerPB.role peer_pb = FOLLOWER)
    then {[ QuorumPeerPB.permanent_uuid peer_pb ]} ∪ voting_peers
    else voting_peers in
  let leader_uuid :=
    if decide (QuorumPeerPB.role peer_pb = LEADER)
    then QuorumPeerPB.permanent_uuid peer_pb else leader_uuid in
  (role, voting_peers, leader_uuid).

Definition Build (quorum : QuorumPB.t) (self_uuid : string) : QuorumState :=
  let '(role, voting_peers, leader_uuid) :=
    foldl (Build_body self_uuid) (NON_PARTICIPANT, ∅, "")
          (QuorumPB.peers quorum) in
  (* size_t arithmetic, then the conversion to int *)
  let majority_size :=
    to_int32 (Z.of_N (wrap64 (N.of_nat (size voting_peers) / 2 + 1))) in
  let quorum_size := QuorumPB.peers_size quorum in
  let config_seqno := QuorumPB.seqno quorum in
  mkQuorumState role leader_uuid voting_peers majority_size quorum_size
                config_seqno.

(** *** Collaborators of ReplicaState *)

(** A [FutureCallback] is identified by a handle. *)
Definition FutureCallback := nat.

(** A runnable handed to the callback pool. *)
Inductive Runnable :=
| OperationCallbackRunnable (callback : FutureCallback).

(** The callback pool: [Submit] answers with a status. *)
Record ThreadPool := mkThreadPool { Submit : Runnable → Status }.

(** A commit continuation: an object with a virtual [ConsensusCommitted()];
    the field is the status the call answers with. *)
Record ReplicaCommitContinuation := mkContinuation {
  continuation_handle : nat;
  ConsensusCommitted : Status
}.

(** Modelled from the spec: [ConsensusRound] is declared in [consensus.h],
    not among the sources; §3 gives the pending operation as
    [{id, replicate_msg, commit_continuation?, replicate_callback?}], and
    [round->id()] is the id of its replicate message. *)
Record ConsensusRound := mkRound {
  replicate_msg : ReplicateMsg.t;
  GetReplicaCommitContinuation : option ReplicaCommitContinuation;
  replicate_callback : FutureCallback
}.

Definition round_id (round : ConsensusRound) : OpId :=
  ReplicateMsg.id (replicate_msg round).

(** Calls that leave the object, in program order. *)
Inductive Effect :=
| CallConsensusCommitted (id : OpId) (continuation : nat)
| CallSubmit (id : OpId) (r : Runnable)
| FireReplicateWatcher (id : OpId) (cb : FutureCallback)
| FireCommitWatcher (id : OpId) (cb : FutureCallback).

(** Modelled from the spec: [OpIdWaiterSet] is not among the sources; §4.2
    describes a registry of one-shot callbacks keyed by OpId.
    [MarkFinished] returns the callbacks that fire and the registry that
    remains. *)
Inductive MarkFinishedMode := MARK_ALL_OPS_BEFORE | MARK_ONLY_THIS_OP.

Definition OpIdWaiterSet := list (OpId * FutureCallback).

Definition watcher_matches (op_id : OpId) (mode : MarkFinishedMode)
    (w : OpId * FutureCallback) : bool :=
  match mode with
  | MARK_ONLY_THIS_OP => bool_decide (OpIdCompare w.1 op_id = 0)%Z
  | MARK_ALL_OPS_BEFORE => bool_decide (OpIdCompare w.1 op_id <= 0)%Z
  end.

Definition MarkFinished (op_id : OpId) (mode : MarkFinishedMode)
    (ws : OpIdWaiterSet) : list (OpId * FutureCallback) * OpIdWaiterSet :=
  (filter (λ w, watcher_matches op_id mode w = true) ws,
   filter (λ w, watcher_matches op_id mode w = false) ws).

(** Modelled from the spec: [ConsensusMetadata] is not among the sources; §6
    gives [pb()], [mutable_pb()] and [flush() → Result].  [on_disk] is the
    record as last persisted, [flushes] counts the calls of [Flush].  The
    answer of the storage layer to a flush is the argument [disk]. *)
Record ConsensusMetadata := mkCMeta {
  pb : ConsensusMetadataPB.t;
  on_disk : ConsensusMetadataPB.t;
  flushes : nat
}.

Definition mutable_pb (f : ConsensusMetadataPB.t → ConsensusMetadataPB.t)
    (cm : ConsensusMetadata) : ConsensusMetadata :=
  mkCMeta (f (pb cm)) (on_disk cm) (flushes cm).

Definition Flush (disk : Status) (cm : ConsensusMetadata)
  : Status * ConsensusMetadata :=
  (disk, mkCMeta (pb cm) (if ok disk then pb cm else on_disk cm)
                 (S (flushes cm))).

(** Modelled from the spec: [CountDownLatch] is not among the sources; the
    count saturates at zero (§4.3, §4.4.1). *)
Definition CountDown (count : N) : N := N.pred count.

(** *** ReplicaState *)

Inductive State :=
| kInitialized | kChangingConfig | kRunning | kShuttingDown | kShutDown.

#[global] Instance State_eq_dec : EqDecision State.
Proof. solve_decision. Defined.

Record ReplicaState := mkReplicaState {
  peer_uuid_ : string;
  callback_pool_ : ThreadPool;
  cmeta_ : ConsensusMetadata;
  next_index_ : N;
  pending_quorum_ : option QuorumPB.t;
  active_quorum_state_ : QuorumState;
  pending_txns_ : list (OpId * ConsensusRound);
  in_flight_commits_ : gset OpId;
  in_flight_applies_latch_ : N;
  replicate_watchers_ : OpIdWaiterSet;
  commit_watchers_ : OpIdWaiterSet;
  replicated_op_id_ : OpId;
  received_op_id_ : OpId;
  last_triggered_apply_ : OpId;
  state_ : State;
  effects : list Effect
}.

(** Field updates. *)
Definition with_cmeta (f : ConsensusMetadata → ConsensusMetadata)
    (s : ReplicaState) : ReplicaState :=
  mkReplicaState (peer_uuid_ s) (callback_pool_ s) (f (cmeta_ s))
    (next_index_ s) (pending_quorum_ s) (active_quorum_state_ s)
    (pending_txns_ s) (in_flight_commits_ s) (in_flight_applies_latch_ s)
    (replicate_watchers_ s) (commit_watchers_ s) (replicated_op_id_ s)
    (received_op_id_ s) (last_triggered_apply_ s) (state_ s) (effects s).

Definition with_next_index (n : N) (s : ReplicaState) : ReplicaState :=
  mkReplicaState (peer_uuid_ s) (callback_pool_ s) (cmeta_ s)
    n (pending_quorum_ s) (active_quorum_state_ s)
    (pending_txns_ s) (in_flight_commits_ s) (in_flight_applies_latch_ s)
    (replicate_watchers_ s) (commit_watchers_ s) (replicated_op_id_ s)
    (received_op_id_ s) (last_triggered_apply_ s) (state_ s) (effects s).

Definition with_pending_quorum (q : option QuorumPB.t) (s : ReplicaState)
  : ReplicaState :=
  mkReplicaState (peer_uuid_ s) (callback_pool_ s) (cmeta_ s)
    (next_index_ s) q (active_quorum_state_ s)
    (pending_txns_ s) (in_flight_commits_ s) (in_flight_applies_latch_ s)
    (replicate_watchers_ s) (commit_watchers_ s) (replicated_op_id_ s)
    (received_op_id_ s) (last_triggered_apply_ s) (state_ s) (effects s).

Definition with_active_quorum_state (q : QuorumState) (s : ReplicaState)
  : ReplicaState :=
  mkReplicaState (peer_uuid_ s) (callback_pool_ s) (cmeta_ s)
    (next_index_ s) (pending_quorum_ s) q
    (pending_txns_ s) (in_flight_commits_ s) (in_flight_applies_latch_ s)
    (replicate_watchers_ s) (commit_watchers_ s) (replicated_op_id_ s)
    (received_op_id_ s) (last_triggered_apply_ s) (state_ s) (effects s).

Definition with_pending_txns (m : list (OpId * ConsensusRound))
    (s : ReplicaState) : ReplicaState :=
  mkReplicaState (peer_uuid_ s) (callback_pool_ s) (cmeta_ s)
    (next_index_ s) (pending_quorum_ s) (active_quorum_state_ s)
    m (in_flight_commits_ s) (in_flight_applies_latch_ s)
    (replicate_watchers_ s) (commit_watchers_ s) (replicated_op_id_ s)
    (received_op_id_ s) (last_triggered_apply_ s) (state_ s) (effects s).

Definition with_in_flight_commits (c : gset OpId) (s : ReplicaState)
  : ReplicaState :=
  mkReplicaState (peer_uuid_ s) (callback_pool_ s) (cmeta_ s)
    (next_index_ s) (pending_quorum_ s) (active_quorum_state_ s)
    (pending_txns_ s) c (in_flight_applies_latch_ s)
    (replicate_watchers_ s) (commit_watchers_ s) (replicated_op_id_ s)
    (received_op_id_ s) (last_triggered_apply_ s) (state_ s) (effects s).

Definition with_latch (n : N) (s : ReplicaState) : ReplicaState :=
  mkReplicaState (peer_uuid_ s) (callback_pool_ s) (cmeta_ s)
    (next_index_ s) (pending_quorum_ s) (active_quorum_state_ s)
    (pending_txns_ s) (in_flight_commits_ s) n
    (replicate_watchers_ s) (commit_watchers_ s) (replicated_op_id_ s)
    (received_op_id_ s) (last_triggered_apply_ s) (state_ s) (effects s).

Definition with_replicate_watchers (w : OpIdWaiterSet) (s : ReplicaState)
  : ReplicaState :=
  mkReplicaState (peer_uuid_ s) (callback_pool_ s) (cmeta_ s)
    (next_index_ s) (pending_quorum_ s) (active_quorum_state_ s)
    (pending_txns_ s) (in_flight_commits_ s) (in_flight_applies_latch_ s)
    w (commit_watchers_ s) (replicated_op_id_ s)
    (received_op_id_ s) (last_triggered_apply_ s) (state_ s) (effects s).

Definition with_commit_watchers (w : OpIdWaiterSet) (s : ReplicaState)
  : ReplicaState :=
  mkReplicaState (peer_uuid_ s) (callback_pool_ s) (cmeta_ s)
    (next_index_ s) (pending_quorum_ s) (active_quorum_state_ s)
    (pending_txns_ s) (in_flight_commits_ s) (in_flight_applies_latch_ s)
    (replicate_watchers_ s) w (replicated_op_id_ s)
    (received_op_id_ s) (last_triggered_apply_ s) (state_ s) (effects s).

Definition with_replicated_op_id (o : OpId) (s : ReplicaState) : ReplicaState :=
  mkReplicaState (peer_uuid_ s) (callback_pool_ s) (cmeta_ s)
    (next_index_ s) (pending_quorum_ s) (active_quorum_state_ s)
    (pending_txns_ s) (in_flight_commits_ s) (in_flight_applies_latch_ s)
    (replicate_watchers_ s) (commit_watchers_ s) o
    (received_op_id_ s) (last_triggered_apply_ s) (state_ s) (effects s).

Definition with_received_op_id (o : OpId) (s : ReplicaState) : ReplicaState :=
  mkReplicaState (peer_uuid_ s) (callback_pool_ s) (cmeta_ s)
    (next_index_ s) (pending_quorum_ s) (active_quorum_state_ s)
    (pending_txns_ s) (in_flight_commits_ s) (in_flight_applies_latch_ s)
    (replicate_watchers_ s) (commit_watchers_ s) (replicated_op_id_ s)
    o (last_triggered_apply_ s) (state_ s) (effects s).

Definition with_last_triggered_apply (o : OpId) (s : ReplicaState)
  : ReplicaState :=
  mkReplicaState (peer_uuid_ s) (callback_pool_ s) (cmeta_ s)
    (next_index_ s) (pending_quorum_ s) (active_quorum_state_ s)
    (pending_txns_ s) (in_flight_commits_ s) (in_flight_applies_latch_ s)
    (replicate_watchers_ s) (commit_watchers_ s) (replicated_op_id_ s)
    (received_op_id_ s) o (state_ s) (effects s).

Definition with_state (st : State) (s : ReplicaState) : ReplicaState :=
  mkReplicaState (peer_uuid_ s) (callback_pool_ s) (cmeta_ s)
    (next_index_ s) (pending_quorum_ s) (active_quorum_state_ s)
    (pending_txns_ s) (in_flight_commits_ s) (in_flight_applies_latch_ s)
    (replicate_watchers_ s) (commit_watchers_ s) (replicated_op_id_ s)
    (received_op_id_ s) (last_triggered_apply_ s) st (effects s).

Definition emit (es : list Effect) (s : ReplicaState) : ReplicaState :=
  mkReplicaState (peer_uuid_ s) (callback_pool_ s) (cmeta_ s)
    (next_index_ s) (pending_quorum_ s) (active_quorum_state_ s)
    (pending_txns_ s) (in_flight_commits_ s) (in_flight_applies_latch_ s)
    (replicate_watchers_ s) (commit_watchers_ s) (replicated_op_id_ s)
    (received_op_id_ s) (last_triggered_apply_ s) (state_ s)
    (effects s ++ es).

(** *** Methods of ReplicaState *)

Definition ResetActiveQuorumStateUnlocked (quorum : QuorumPB.t)
    (s : ReplicaState) : ReplicaState :=
  with_active_quorum_state (Build quorum (peer_uuid_ s)) s.

Definition GetCommittedQuorumUnlocked (s : ReplicaState) : QuorumPB.t :=
  ConsensusMetadataPB.committed_quorum (pb (cmeta_ s)).

Definition GetCurrentTermUnlocked (s : ReplicaState) : N :=
  ConsensusMetadataPB.current_term (pb (cmeta_ s)).

Definition HasVotedCurrentTermUnlocked (s : ReplicaState) : bool :=
  ConsensusMetadataPB.has_voted_for (pb (cmeta_ s)).

Definition GetVotedForCurrentTermUnlocked (s : ReplicaState) : option string :=
  ConsensusMetadataPB.voted_for (pb (cmeta_ s)).

Definition IsQuorumChangePendingUnlocked (s : ReplicaState) : bool :=
  bool_decide (is_Some (pending_quorum_ s)).

(** [cmeta_->Flush()] on the metadata of the replica. *)
Definition flush_cmeta (disk : Status) (s : ReplicaState)
  : Status * ReplicaState :=
  ((Flush disk (cmeta_ s)).1, with_cmeta (λ cm, (Flush disk cm).2) s).

Definition SetPendingQuorumUnlocked (new_quorum : QuorumPB.t)
    (s : ReplicaState) : Outcome ReplicaState :=
  if IsQuorumChangePendingUnlocked s then Fatal
  else
    let s := with_pending_quorum (Some new_quorum) s in
    let s := ResetActiveQuorumStateUnlocked new_quorum s in
    Returned OK s.

(** The serialized comparison of two quorums is equality of the messages. *)
Definition SetCommittedQuorumUnlocked (new_quorum : QuorumPB.t)
    (disk : Status) (s : ReplicaState) : Outcome ReplicaState :=
  let checked :=
    match pending_quorum_ s with
    | Some pending =>
        if decide (pending = new_quorum) then Some s else None
    | None => Some (ResetActiveQuorumStateUnlocked new_quorum s)
    end in
  match checked with
  | None => Fatal
  | Some s =>
      let s :=
        with_cmeta
          (mutable_pb (ConsensusMetadataPB.set_committed_quorum new_quorum)) s in
      let '(st, s) := flush_cmeta disk s in
      if ok st then Returned OK (with_pending_quorum None s)
      else Returned st s
  end.

Definition IncrementTermUnlocked (disk : Status) (s : ReplicaState)
  : Status * ReplicaState :=
  let s :=
    with_cmeta
      (mutable_pb (λ m, ConsensusMetadataPB.set_current_term
                          (wrap64 (ConsensusMetadataPB.current_term m + 1)) m))
      s in
  let s := with_cmeta (mutable_pb ConsensusMetadataPB.clear_voted_for) s in
  let '(st, s) := flush_cmeta disk s in
  if ok st then (OK, s) else (st, s).

Definition SetCurrentTermUnlocked (new_term : N) (disk : Status)
    (s : ReplicaState) : Status * ReplicaState :=
  if (new_term <? GetCurrentTermUnlocked s)%N then
    (IllegalState
       ("Cannot change term to a term that is lower than the current one. "
        +:+ "Current: " +:+ pretty (GetCurrentTermUnlocked s)
        +:+ ", Proposed: " +:+ pretty new_term), s)
  else
    let s :=
      with_cmeta
        (mutable_pb (ConsensusMetadataPB.set_current_term new_term)) s in
    let s := with_cmeta (mutable_pb ConsensusMetadataPB.clear_voted_for) s in
    let '(st, s) := flush_cmeta disk s in
    if ok st then (OK, s) else (st, s).

Definition SetVotedForCurrentTermUnlocked (uuid : string) (disk : Status)
    (s : ReplicaState) : Status * ReplicaState :=
  let s := with_cmeta (mutable_pb (ConsensusMetadataPB.set_voted_for uuid)) s in
  let '(st, s) := flush_cmeta disk s in
  if ok st then (OK, s)
  else (CloneAndPrepend st
          "Unable to flush consensus metadata after recording vote", s).

Definition IncrementConfigSeqNoUnlocked (disk : Status) (s : ReplicaState)
  : Status * ReplicaState :=
  let s :=
    with_cmeta
      (mutable_pb (λ m,
         ConsensusMetadataPB.set_committed_quorum
           (QuorumPB.set_seqno
              (to_int64
                 (QuorumPB.seqno (ConsensusMetadataPB.committed_quorum m) + 1))
              (ConsensusMetadataPB.committed_quorum m)) m)) s in
  let '(st, s) := flush_cmeta disk s in
  if ok st then (OK, s) else (st, s).

Definition LockForShutdown (s : ReplicaState) : Status * ReplicaState :=
  if decide (state_ s = kShutDown) then
    (IllegalState "Replica is already shutdown", s)
  else if decide (state_ s = kShuttingDown) then (OK, s)
  else
    let s := with_state kShuttingDown s in
    (OK, with_latch (N.of_nat (size (in_flight_commits_ s))) s).

Definition AddPendingOperation (round : ConsensusRound) (s : ReplicaState)
  : Outcome ReplicaState :=
  if bool_decide (state_ s ≠ kRunning) &&
     bool_decide (ReplicateMsg.op_type (replicate_msg round) ≠ CHANGE_CONFIG_OP)
  then
    Returned
      (IllegalState "Cannot trigger prepare. Replica is not in kRunning state.")
      s
  else
    match map_InsertOrDie (ReplicateMsg.id (replicate_msg round)) round
                          (pending_txns_ s) with
    | None => Fatal
    | Some m => Returned OK (with_pending_txns m s)
    end.

(** The two arms of the [if] inside the loop of
    [MarkConsensusCommittedUpToUnlocked]. *)
Definition trigger_apply (round : ConsensusRound) (s : ReplicaState)
  : Status * ReplicaState :=
  match GetReplicaCommitContinuation round with
  | Some c =>
      (ConsensusCommitted c,
       emit [CallConsensusCommitted (round_id round) (continuation_handle c)] s)
  | None =>
      let r := OperationCallbackRunnable (replicate_callback round) in
      (Submit (callback_pool_ s) r, emit [CallSubmit (round_id round) r] s)
  end.

(** The loop [for (; iter != end_iter; iter++)] over the visited entries. *)
Fixpoint commit_loop (range : list (OpId * ConsensusRound)) (s : ReplicaState)
  : Outcome ReplicaState :=
  match range with
  | [] => Returned OK s
  | e :: rest =>
      let round := e.2 in
      (* InsertOrDie(&in_flight_commits_, round->id()) *)
      if decide (round_id round ∈ in_flight_commits_ s) then Fatal
      else
        let s :=
          with_in_flight_commits ({[ round_id round ]} ∪ in_flight_commits_ s)
                                 s in
        let '(st, s) := trigger_apply round s in
        if ok st then commit_loop rest s else Returned st s
  end.

Definition MarkConsensusCommittedUpToUnlocked (id : OpId) (s : ReplicaState)
  : Outcome ReplicaState :=
  if bool_decide (state_ s = kShuttingDown) ||
     bool_decide (state_ s = kShutDown) then
    Returned
      (ServiceUnavailable "Cannot trigger apply. Replica is shutting down.") s
  else if bool_decide (state_ s ≠ kRunning) then
    Returned
      (IllegalState "Cannot trigger apply. Replica is not in kRunning state.")
      s
  else if bool_decide (OpIdCompare (last_triggered_apply_ s) id >= 0)%Z then
    Returned OK s
  else
    let iter := upper_bound (last_triggered_apply_ s) (pending_txns_ s) in
    let end_iter := upper_bound id (pending_txns_ s) in
    match commit_loop (iter_range iter end_iter) s with
    | Fatal => Fatal
    | Returned st s =>
        if ok st then Returned OK (with_last_triggered_apply id s)
        else Returned st s
    end.

Definition GetCommittedOpIdUnlocked (s : ReplicaState) : OpId :=
  last_triggered_apply_ s.

Definition UpdateLastReplicatedOpIdUnlocked (op_id : OpId) (s : ReplicaState)
  : ReplicaState :=
  let s := with_replicated_op_id op_id s in
  let '(fired, rest) :=
    MarkFinished op_id MARK_ALL_OPS_BEFORE (replicate_watchers_ s) in
  emit (map (λ w, FireReplicateWatcher w.1 w.2) fired)
       (with_replicate_watchers rest s).

Definition GetLastReplicatedOpIdUnlocked (s : ReplicaState) : OpId :=
  replicated_op_id_ s.

Definition UpdateLastReceivedOpIdUnlocked (op_id : OpId) (s : ReplicaState)
  : ReplicaState :=
  let s := with_received_op_id op_id s in
  with_next_index (wrap64 (index op_id + 1)) s.

(** [None] is a failed [CHECK]. *)
Definition UpdateCommittedOpIdUnlocked (committed_op_id : OpId)
    (s : ReplicaState) : option ReplicaState :=
  if decide (committed_op_id ∈ in_flight_commits_ s) then
    let s :=
      with_in_flight_commits (in_flight_commits_ s ∖ {[ committed_op_id ]}) s in
    match EraseKeyReturnValuePtr committed_op_id (pending_txns_ s) with
    | (None, _) => None
    | (Some _, m) =>
        let s := with_pending_txns m s in
        let '(fired, rest) :=
          MarkFinished committed_op_id MARK_ONLY_THIS_OP (commit_watchers_ s) in
        Some (emit (map (λ w, FireCommitWatcher w.1 w.2) fired)
                   (with_commit_watchers rest s))
    end
  else None.

Definition CountDownOutstandingCommitsIfShuttingDown (s : ReplicaState)
  : ReplicaState :=
  if decide (state_ s = kShuttingDown) then
    with_latch (CountDown (in_flight_applies_latch_ s)) s
  else s.

(** [id->set_term(...); id->set_index(next_index_++)]. *)
Definition NewIdUnlocked (s : ReplicaState) : OpId * ReplicaState :=
  (mkOpId (GetCurrentTermUnlocked s) (next_index_ s),
   with_next_index (wrap64 (next_index_ s + 1)) s).

(** [None] is a failed [CHECK_EQ]. *)
Definition CancelPendingOperation (id : OpId) (s : ReplicaState)
  : option ReplicaState :=
  if decide (GetCurrentTermUnlocked s = term id) then
    if decide (next_index_ s = wrap64 (index id + 1)) then
      let s := with_next_index (index id) s in
      Some (with_pending_txns
              (EraseKeyReturnValuePtr id (pending_txns_ s)).2 s)
    else None
  else None.

(** [CancelPendingOperation] as a debug build runs it: [None] is also the
    failed [DCHECK_NOTNULL] on the erased value. *)
Definition CancelPendingOperation_debug (id : OpId) (s : ReplicaState)
  : option ReplicaState :=
  if decide (GetCurrentTermUnlocked s = term id) then
    if decide (next_index_ s = wrap64 (index id + 1)) then
      let s := with_next_index (index id) s in
      match EraseKeyReturnValuePtr id (pending_txns_ s) with
      | (Some _, m) => Some (with_pending_txns m s)
      | (None, _) => None
      end
    else None
  else None.

End Consensus.

(** ** [participant_op.cc] *)

Module Tablet.

(** Modelled from the spec: the messages come from [tserver.proto] and
    [consensus.proto], which are not among the sources; §6 gives the wire
    form [ParticipantRequest{op{txn_id, type, finalized_commit_timestamp?}}]. *)
Inductive ParticipantOpType :=
| UNKNOWN | BEGIN_TXN | BEGIN_COMMIT | FINALIZE_COMMIT | ABORT_TXN.

#[global] Instance ParticipantOpType_eq_dec : EqDecision ParticipantOpType.
Proof. solve_decision. Defined.

Module ParticipantOpPB.
Record t := mk {
  txn_id : Z;
  type : ParticipantOpType;
  finalized_commit_timestamp : Z
}.
End ParticipantOpPB.

Inductive OperationType := WRITE_OP | ALTER_SCHEMA_OP | PARTICIPANT_OP.

Module CommitMsg.
Record t := mk { op_type : OperationType }.
End CommitMsg.

(** Modelled from the spec: [ScopedOp] is declared in [mvcc.h], not among the
    sources; the glossary gives an MVCC op as a handle of an in-progress
    write at a timestamp, finished (made visible) or aborted. *)
Inductive MvccOpState := RESERVED | APPLYING | APPLIED | ABORTED.

Record ScopedOp := mkScopedOp { timestamp : Z; mvcc_state : MvccOpState }.

Definition StartApplying (op : ScopedOp) : ScopedOp :=
  mkScopedOp (timestamp op) APPLYING.
Definition FinishApplying (op : ScopedOp) : ScopedOp :=
  mkScopedOp (timestamp op) APPLIED.
Definition Abort (op : ScopedOp) : ScopedOp :=
  mkScopedOp (timestamp op) ABORTED.

(** Modelled from the spec: [Txn] is declared in [txn_participant.h], not
    among the sources; §3 gives it mutators and an MVCC commit-op slot.  The
    mutators are recorded as calls, oldest first. *)
Inductive TxnCall :=
| CallBeginTransaction (op_id : OpId)
| CallBeginCommit (op_id : OpId)
| CallFinalizeCommit (op_id : OpId) (commit_timestamp : Z)
| CallAbortTransaction (op_id : OpId).

Record Txn := mkTxn {
  mutator_calls : list TxnCall;
  commit_op : option ScopedOp
}.

Definition call_mutator (c : TxnCall) (txn : Txn) : Txn :=
  mkTxn (mutator_calls txn ++ [c]) (commit_op txn).

Definition with_commit_op (op : option ScopedOp) (txn : Txn) : Txn :=
  mkTxn (mutator_calls txn) op.

Definition BeginTransaction (op_id : OpId) : Txn → Txn :=
  call_mutator (CallBeginTransaction op_id).
Definition BeginCommit (op_id : OpId) : Txn → Txn :=
  call_mutator (CallBeginCommit op_id).
Definition FinalizeCommit (op_id : OpId) (ts : Z) : Txn → Txn :=
  call_mutator (CallFinalizeCommit op_id ts).
Definition AbortTransaction (op_id : OpId) : Txn → Txn :=
  call_mutator (CallAbortTransaction op_id).
Definition SetCommitOp (op : option ScopedOp) : Txn → Txn :=
  with_commit_op op.

(** The state of one participant op.  [txn_] is the transaction the op holds
    under its write lock ([None] before [AcquireTxnAndLock] and after
    [ReleaseTxn]); [tablet_start_applying] counts the calls of
    [Tablet::StartApplying] made for this op. *)
Record ParticipantOpState := mkOpState {
  request : ParticipantOpPB.t;
  op_id : OpId;
  txn_ : option Txn;
  begin_commit_mvcc_op_ : option ScopedOp;
  tablet_start_applying : nat
}.

Definition with_txn (txn : option Txn) (s : ParticipantOpState)
  : ParticipantOpState :=
  mkOpState (request s) (op_id s) txn (begin_commit_mvcc_op_ s)
            (tablet_start_applying s).

Definition ReleaseMvccOpToTxn (s : ParticipantOpState) : ParticipantOpState :=
  mkOpState (request s) (op_id s)
            (SetCommitOp (begin_commit_mvcc_op_ s) <$> txn_ s)
            None (tablet_start_applying s).

(** [ReleaseMvccOpToTxn] as a debug build runs it: [None] is a failed
    [DCHECK], on the op type or on the MVCC op held. *)
Definition ReleaseMvccOpToTxn_debug (s : ParticipantOpState)
  : option ParticipantOpState :=
  if decide (ParticipantOpPB.type (request s) = BEGIN_COMMIT) then
    match begin_commit_mvcc_op_ s with
    | Some _ => Some (ReleaseMvccOpToTxn s)
    | None => None
    end
  else None.

Definition Tablet_StartApplying (s : ParticipantOpState) : ParticipantOpState :=
  mkOpState (request s) (op_id s) (txn_ s) (begin_commit_mvcc_op_ s)
            (S (tablet_start_applying s)).

(** [ParticipantOpState::PerformOp].  [Fatal] is the dereference of a null
    [txn_]; the second component of the result is [*commit_msg]. *)
Definition PerformOp (op_id : OpId) (s : ParticipantOpState)
  : Outcome (option CommitMsg.t * ParticipantOpState) :=
  let op := request s in
  let op_type := ParticipantOpPB.type (request s) in
  match txn_ s with
  | None =>
      match op_type with
      | UNKNOWN => Returned (InvalidArgument "unknown op type") (None, s)
      | _ => Fatal
      end
  | Some txn =>
      let done (txn : Txn) :=
        Returned OK (Some (CommitMsg.mk PARTICIPANT_OP), with_txn (Some txn) s) in
      match op_type with
      | BEGIN_TXN => done (BeginTransaction op_id txn)
      | BEGIN_COMMIT => done (BeginCommit op_id txn)
      | FINALIZE_COMMIT =>
          let txn :=
            FinalizeCommit op_id (ParticipantOpPB.finalized_commit_timestamp op)
                           txn in
          match commit_op txn with
          | Some c => done (with_commit_op (Some (FinishApplying c)) txn)
          | None => done txn
          end
      | ABORT_TXN =>
          let txn := AbortTransaction op_id txn in
          match commit_op txn with
          | Some c => done (with_commit_op (Some (Abort c)) txn)
          | None => done txn
          end
      | UNKNOWN => Returned (InvalidArgument "unknown op type") (None, s)
      end
  end.

(** [ParticipantOp::Apply]: a status that is not OK out of [PerformOp] fails
    the [CHECK_OK]. *)
Definition Apply (s : ParticipantOpState)
  : Outcome (option CommitMsg.t * ParticipantOpState) :=
  let s := Tablet_StartApplying s in
  match PerformOp (op_id s) s with
  | Fatal => Fatal
  | Returned st (commit_msg, s) =>
      if ok st then
        let s :=
          if decide (ParticipantOpPB.type (request s) = BEGIN_COMMIT)
          then ReleaseMvccOpToTxn s else s in
        Returned OK (commit_msg, s)
      else Fatal
  end.

(** [ParticipantOp::Apply] as a debug build runs it, with the [DCHECK]s of
    [ReleaseMvccOpToTxn]. *)
Definition Apply_debug (s : ParticipantOpState)
  : Outcome (option CommitMsg.t * ParticipantOpState) :=
  let s := Tablet_StartApplying s in
  match PerformOp (op_id s) s with
  | Fatal => Fatal
  | Returned st (commit_msg, s) =>
      if ok st then
        if decide (ParticipantOpPB.type (request s) = BEGIN_COMMIT) then
          match ReleaseMvccOpToTxn_debug s with
          | Some s => Returned OK (commit_msg, s)
          | None => Fatal
          end
        else Returned OK (commit_msg, s)
      else Fatal
  end.

End Tablet.

(** ** [raft_consensus_state.cc]: lifecycle, locks, registration, trackers *)

Module ReplicaLifecycle.
Import Consensus.

(** [QuorumPeerPB::Role_Name]: the name of the enum value. *)
Definition Role_Name (r : Role) : string :=
  match r with
  | LEADER => "LEADER"
  | FOLLOWER => "FOLLOWER"
  | CANDIDATE => "CANDIDATE"
  | LEARNER => "LEARNER"
  | NON_PARTICIPANT => "NON_PARTICIPANT"
  end.

(** Modelled from the spec: the numeric values of [ReplicaState::State] are
    declared in [raft_consensus_state.h], not among the sources; the order
    is the one §3 lists the states in.  The value only shows in a message. *)
Definition State_value (st : State) : N :=
  match st with
  | kInitialized => 0
  | kRunning => 1
  | kChangingConfig => 2
  | kShuttingDown => 3
  | kShutDown => 4
  end.

Definition StartUnlocked (initial_id : OpId) (s : ReplicaState)
  : Outcome ReplicaState :=
  let current_term := ConsensusMetadataPB.current_term (pb (cmeta_ s)) in
  if (term initial_id <? current_term)%N then
    Returned
      (InvalidArgument
         ("Cannot start in older term. " +:+ "Current term: "
          +:+ pretty current_term +:+ ", passed term: "
          +:+ pretty (term initial_id))) s
  else if decide (term initial_id = current_term) then
    let s := with_next_index (wrap64 (index initial_id + 1)) s in
    let s := with_replicated_op_id initial_id s in
    let s := with_received_op_id initial_id s in
    let s := with_last_triggered_apply initial_id s in
    Returned OK s
  else Fatal.

(** The lock entry points.  A returned OK hands the lock to the caller; the
    lock itself is not part of the state. *)
Definition LockForStart (s : ReplicaState) : Outcome ReplicaState :=
  if decide (state_ s = kInitialized) then Returned OK s else Fatal.

Definition LockForRead (s : ReplicaState) : Outcome ReplicaState :=
  Returned OK s.

Definition LockForReplicate (msg : ReplicateMsg.t) (s : ReplicaState)
  : Outcome ReplicaState :=
  if bool_decide (state_ s ≠ kRunning) then
    Returned (IllegalState "Replica not in running state") s
  else
    match role (active_quorum_state_ s) with
    | LEADER => Returned OK s
    | CANDIDATE =>
        if bool_decide (ReplicateMsg.op_type msg ≠ CHANGE_CONFIG_OP) then
          Returned
            (IllegalState
               "Only a change config round can be pushed while CANDIDATE.") s
        else if decide (GetCurrentTermUnlocked s = 0%N) then Returned OK s
        else Fatal
    | r =>
        Returned
          (IllegalState
             ("Replica " +:+ peer_uuid_ s
              +:+ " is not leader of this quorum. Role: " +:+ Role_Name r)) s
    end.

Definition LockForCommit (s : ReplicaState) : Outcome ReplicaState :=
  if bool_decide (state_ s ≠ kRunning) && bool_decide (state_ s ≠ kShuttingDown)
  then Returned (IllegalState "Replica not in running state") s
  else Returned OK s.

Definition LockForConfigChange (s : ReplicaState) : Outcome ReplicaState :=
  if bool_decide (state_ s = kInitialized) || bool_decide (state_ s = kRunning)
  then Returned OK (with_state kChangingConfig s)
  else Fatal.

Definition LockForElection (s : ReplicaState) : Outcome ReplicaState :=
  if negb (bool_decide (state_ s = kInitialized) ||
           bool_decide (state_ s = kRunning))
  then
    Returned
      (IllegalState
         ("Unexpected ReplicaState for LockForElection: "
          +:+ pretty (State_value (state_ s)))) s
  else Returned OK s.

Definition LockForUpdate (s : ReplicaState) : Outcome ReplicaState :=
  if bool_decide (state_ s ≠ kRunning) then
    Returned (IllegalState "Replica not in running state") s
  else
    match role (active_quorum_state_ s) with
    | LEADER => Returned (IllegalState "Replica is leader of the quorum.") s
    | NON_PARTICIPANT =>
        Returned
          (IllegalState "Replica is not a participant of this quorum.") s
    | _ => Returned OK s
    end.

Definition Shutdown (s : ReplicaState) : Outcome ReplicaState :=
  if decide (state_ s = kShuttingDown)
  then Returned OK (with_state kShutDown s)
  else Fatal.

Definition SetConfigDoneUnlocked (s : ReplicaState) : Outcome ReplicaState :=
  if decide (state_ s = kChangingConfig)
  then Returned OK (with_state kRunning s)
  else Fatal.

(** [None] is the failed [CHECK] when no quorum change is pending. *)
Definition GetPendingQuorumUnlocked (s : ReplicaState) : option QuorumPB.t :=
  pending_quorum_ s.

(** The loop of [CancelPendingTransactions]: the handles of the
    continuations whose [Abort()] is called, in the order of the calls.
    [None] is the call through a null continuation. *)
Fixpoint abort_loop (m : list (OpId * ConsensusRound)) (in_flight : gset OpId)
  : option (list nat) :=
  match m with
  | [] => Some []
  | e :: rest =>
      if decide (e.1 ∈ in_flight) then abort_loop rest in_flight
      else
        match GetReplicaCommitContinuation e.2 with
        | None => None
        | Some c => cons (continuation_handle c) <$> abort_loop rest in_flight
        end
  end.

(** The method does not write the replica; the state of the outcome is the
    list of continuations aborted. *)
Definition CancelPendingTransactions (s : ReplicaState) : Outcome (list nat) :=
  if bool_decide (state_ s ≠ kShuttingDown) then
    Returned
      (IllegalState
         "Can only wait for pending commits on kShuttingDown state.") []
  else
    match abort_loop (pending_txns_ s) (in_flight_commits_ s) with
    | None => Fatal
    | Some aborted => Returned OK aborted
    end.

(** [FindOrNull(map, k)]. *)
Definition FindOrNull {V : Type} (m : list (OpId * V)) (k : OpId) : option V :=
  (λ r, r.2.2) <$> list_find (λ e, OpIdCompare e.1 k = 0%Z) m.

(** Modelled from the spec: [OpIdWaiterSet::RegisterCallback] is not among
    the sources; §4.2 has it insert the callback against the id, and has
    callbacks fire in OpId order, so the registry is kept in key order (a
    new entry goes after the entries of the same key). *)
Fixpoint RegisterCallback (op_id : OpId) (cb : FutureCallback)
    (ws : OpIdWaiterSet) : OpIdWaiterSet :=
  match ws with
  | [] => [(op_id, cb)]
  | w :: rest =>
      if bool_decide (OpIdCompare op_id w.1 < 0)%Z then (op_id, cb) :: ws
      else w :: RegisterCallback op_id cb rest
  end.

Definition RegisterOnReplicateCallback (replicate_op_id : OpId)
    (repl_callback : FutureCallback) (s : ReplicaState)
  : Status * ReplicaState :=
  if bool_decide (OpIdCompare replicate_op_id (replicated_op_id_ s) > 0)%Z then
    (OK,
     with_replicate_watchers
       (RegisterCallback replicate_op_id repl_callback (replicate_watchers_ s))
       s)
  else (AlreadyPresent "The operation has already been replicated.", s).

Definition RegisterOnCommitCallback (op_id : OpId)
    (commit_callback : FutureCallback) (s : ReplicaState)
  : Status * ReplicaState :=
  if bool_decide (OpIdCompare op_id (replicated_op_id_ s) > 0)%Z then
    (OK,
     with_commit_watchers
       (RegisterCallback op_id commit_callback (commit_watchers_ s)) s)
  else if bool_decide (is_Some (FindOrNull (pending_txns_ s) op_id)) then
    (OK,
     with_commit_watchers
       (RegisterCallback op_id commit_callback (commit_watchers_ s)) s)
  else (AlreadyPresent "The operation has already been committed.", s).

(** *** MajorityOpStatusTracker *)

(** [completion_latch_] is the count of the latch.  Modelled from the spec:
    [CountDownLatch] is not among the sources; its count is unsigned, so the
    [int] it is built from is taken modulo [2^64]. *)
Record MajorityOpStatusTracker := mkTracker {
  majority_ : Z;
  tracker_voting_peers_ : gset string;
  total_peers_count_ : Z;
  replicated_count_ : Z;
  completion_latch_ : N
}.

Definition new_MajorityOpStatusTracker (voting_peers : gset string)
    (majority total_peers_count : Z) : MajorityOpStatusTracker :=
  mkTracker majority voting_peers total_peers_count 0
            (Z.to_N (majority mod 2 ^ 64)).

(** [None] is the failed [CHECK] on an empty uuid. *)
Definition AckPeer (uuid : string) (t : MajorityOpStatusTracker)
  : option MajorityOpStatusTracker :=
  if decide (uuid = "") then None
  else
    let latch :=
      if decide (uuid ∈ tracker_voting_peers_ t)
      then CountDown (completion_latch_ t) else completion_latch_ t in
    Some (mkTracker (majority_ t) (tracker_voting_peers_ t)
            (total_peers_count_ t) (to_int32 (replicated_count_ t + 1)) latch).

(** [AckPeer] as a debug build runs it: [None] is also the failed
    [DCHECK_LE] that closes the method. *)
Definition AckPeer_debug (uuid : string) (t : MajorityOpStatusTracker)
  : option MajorityOpStatusTracker :=
  if decide (uuid = "") then None
  else
    let latch :=
      if decide (uuid ∈ tracker_voting_peers_ t)
      then CountDown (completion_latch_ t) else completion_latch_ t in
    let replicated_count := to_int32 (replicated_count_ t + 1) in
    if decide (replicated_count <= total_peers_count_ t)%Z then
      Some (mkTracker (majority_ t) (tracker_voting_peers_ t)
              (total_peers_count_ t) replicated_count latch)
    else None.

Definition IsDone (t : MajorityOpStatusTracker) : bool :=
  bool_decide (completion_latch_ t = 0%N).

Definition IsAllDone (t : MajorityOpStatusTracker) : bool :=
  bool_decide (replicated_count_ t >= total_peers_count_ t)%Z.

(** *** OperationCallbackRunnable *)

Record OperationCallbackRunnableState := mkRunnable {
  callback_ : FutureCallback;
  error_ : Status
}.

Definition new_OperationCallbackRunnable (callback : FutureCallback)
  : OperationCallbackRunnableState := mkRunnable callback OK.

Definition set_error (error : Status) (r : OperationCallbackRunnableState)
  : OperationCallbackRunnableState := mkRunnable (callback_ r) error.

(** What [Run] calls on the callback. *)
Inductive CallbackCall :=
| OnSuccess (cb : FutureCallback)
| OnFailure (cb : FutureCallback) (error : Status).

Definition Run (r : OperationCallbackRunnableState) : CallbackCall :=
  if ok (error_ r) then OnSuccess (callback_ r)
  else OnFailure (callback_ r) (error_ r).

End ReplicaLifecycle.

(** ** [participant_op.cc]: the other phases *)

Module ParticipantPhases.
Import Tablet.

(** The answers of the validators of the transaction object, which is
    outside the sources. *)
Record TxnValidators := mkValidators {
  ValidateBeginTransaction : Status;
  ValidateBeginCommit : Status;
  ValidateFinalize : Status;
  ValidateAbort : Status
}.

(** [AcquireTxnAndLock]: [txn] is what
    [TxnParticipant::GetOrCreateTransaction] hands out for the txn id of
    the request. *)
Definition AcquireTxnAndLock (txn : Txn) (s : ParticipantOpState)
  : ParticipantOpState := with_txn (Some txn) s.

Definition ReleaseTxn (s : ParticipantOpState) : ParticipantOpState :=
  with_txn None s.

Definition ValidateOp (v : TxnValidators) (s : ParticipantOpState) : Status :=
  match ParticipantOpPB.type (request s) with
  | BEGIN_TXN => ValidateBeginTransaction v
  | BEGIN_COMMIT => ValidateBeginCommit v
  | FINALIZE_COMMIT => ValidateFinalize v
  | ABORT_TXN => ValidateAbort v
  | UNKNOWN => InvalidArgument "unknown op type"
  end.

Definition SetMvccOp (mvcc_op : ScopedOp) (s : ParticipantOpState)
  : ParticipantOpState :=
  mkOpState (request s) (op_id s) (txn_ s) (Some mvcc_op)
            (tablet_start_applying s).

Inductive DriverType := LEADER | REPLICA.

#[global] Instance DriverType_eq_dec : EqDecision DriverType.
Proof. solve_decision. Defined.

(** [ParticipantOp::Prepare].  [clock] is the answer of
    [UpdateClockAndLastAssignedTimestamp]; the second component of the
    result is the timestamp that call was made with, if it was made.
    Modelled from the spec: [commit_timestamp()] of the op state is declared
    in [participant_op.h], not among the sources; §4.5.2 has it be the
    finalized commit timestamp carried in the op. *)
Definition Prepare (type : DriverType) (txn : Txn) (v : TxnValidators)
    (clock : Status) (s : ParticipantOpState)
  : Status * option Z * ParticipantOpState :=
  let s := AcquireTxnAndLock txn s in
  let st := ValidateOp v s in
  if ok st then
    if bool_decide (ParticipantOpPB.type (request s) = FINALIZE_COMMIT) &&
       bool_decide (type = LEADER)
    then
      let ts := ParticipantOpPB.finalized_commit_timestamp (request s) in
      if ok clock then (OK, Some ts, s) else (clock, Some ts, s)
    else (OK, None, s)
  else (st, None, s).

(** [Op::APPLIED] and [Op::ABORTED]. *)
Inductive OpResult := APPLIED_RESULT | ABORTED_RESULT.

(** [ParticipantOp::Finish]: the second component tells whether
    [ClearIfInitFailed] was called for the txn id of the request. *)
Definition Finish (result : OpResult) (s : ParticipantOpState)
  : ParticipantOpState * option Z :=
  let txn_id := ParticipantOpPB.txn_id (request s) in
  let s := ReleaseTxn s in
  match result with
  | ABORTED_RESULT => (s, Some txn_id)
  | APPLIED_RESULT => (s, None)
  end.

End ParticipantPhases.

(** * Vocabulary of the claims and example states *)

Local Close Scope string_scope.

(** ** Intervals of operation ids *)

Section Intervals.
Context {V : Type}.

(** The keys in the half-open interval [(lo, hi]]. *)
Definition in_interval (lo hi : OpId) (e : OpId * V) : Prop :=
  opid_lt lo e.1 ∧ opid_le e.1 hi.

#[global] Instance in_interval_dec lo hi (e : OpId * V) :
  Decision (in_interval lo hi e).
Proof. unfold in_interval. apply _. Defined.

End Intervals.

(** ** Consensus: observations, frames and example replicas *)

Section ConsensusVocabulary.
Import Consensus.

Definition is_voter (p : QuorumPeerPB.t) : Prop :=
  QuorumPeerPB.role p = LEADER ∨ QuorumPeerPB.role p = FOLLOWER.

Definition example_quorum : QuorumPB.t :=
  QuorumPB.mk
    [ QuorumPeerPB.mk "peer-a" FOLLOWER;
      QuorumPeerPB.mk "peer-b" LEADER;
      QuorumPeerPB.mk "peer-c" FOLLOWER;
      QuorumPeerPB.mk "peer-d" LEARNER ]%string
    7.

Definition example_pool : ThreadPool := mkThreadPool (λ _, OK).

Definition example_pb : ConsensusMetadataPB.t :=
  ConsensusMetadataPB.mk 5 (Some "peer-b"%string) example_quorum.

(** A running replica in term 5 that has voted for [peer-b]; its watermarks
    are at [(5, 9)] and nothing is pending. *)
Definition example_replica : ReplicaState :=
  mkReplicaState "peer-a" example_pool (mkCMeta example_pb example_pb 0)
    10 None (Build example_quorum "peer-a") [] ∅ 0 [] []
    (mkOpId 5 9) (mkOpId 5 9) (mkOpId 5 9) kRunning [].

Definition disk_full : Status := IOError "No space left on device".

(** The same replica at the last term a [uint64_t] can hold. *)
Definition last_term_replica : ReplicaState :=
  with_cmeta (mutable_pb (ConsensusMetadataPB.set_current_term u64_max))
             example_replica.

(** A call on the term, with the answer of the storage layer to its flush. *)
Inductive TermCall :=
| call_set_current_term (new_term : N) (disk : Status)
| call_increment_term (disk : Status).

Definition run_call (c : TermCall) (s : ReplicaState) : Status * ReplicaState :=
  match c with
  | call_set_current_term new_term disk => SetCurrentTermUnlocked new_term disk s
  | call_increment_term disk => IncrementTermUnlocked disk s
  end.

(** The current term observed after each call of the sequence. *)
Fixpoint observed_terms (cs : list TermCall) (s : ReplicaState) : list N :=
  match cs with
  | [] => []
  | c :: cs =>
      let s' := (run_call c s).2 in
      GetCurrentTermUnlocked s' :: observed_terms cs s'
  end.

(** No [increment_term] of the sequence is issued at term [2^64 - 1]. *)
Fixpoint below_last_term (cs : list TermCall) (s : ReplicaState) : Prop :=
  match cs with
  | [] => True
  | c :: cs =>
      match c with
      | call_increment_term _ => (GetCurrentTermUnlocked s < u64_max)%N
      | call_set_current_term _ _ => True
      end ∧ below_last_term cs (run_call c s).2
  end.

(** What a caller can read back of the in-memory state: current term, vote,
    committed quorum, pending-quorum slot and active quorum snapshot. *)
Definition in_memory (s : ReplicaState)
  : N * option string * QuorumPB.t * option QuorumPB.t * QuorumState :=
  (GetCurrentTermUnlocked s, GetVotedForCurrentTermUnlocked s,
   GetCommittedQuorumUnlocked s, pending_quorum_ s, active_quorum_state_ s).

Definition persisted (s : ReplicaState) : ConsensusMetadataPB.t :=
  on_disk (cmeta_ s).

(** The status one pass of the loop body gets back, and the call it makes. *)
Definition apply_status (pool : ThreadPool) (round : ConsensusRound) : Status :=
  match GetReplicaCommitContinuation round with
  | Some c => ConsensusCommitted c
  | None => Submit pool (OperationCallbackRunnable (replicate_callback round))
  end.

Definition apply_effect (round : ConsensusRound) : Effect :=
  match GetReplicaCommitContinuation round with
  | Some c => CallConsensusCommitted (round_id round) (continuation_handle c)
  | None =>
      CallSubmit (round_id round)
                 (OperationCallbackRunnable (replicate_callback round))
  end.

(** The fields that the commit-watermark methods never write. *)
Definition commit_frame (s : ReplicaState) :=
  (peer_uuid_ s, callback_pool_ s, cmeta_ s, next_index_ s, pending_quorum_ s,
   active_quorum_state_ s, pending_txns_ s, in_flight_applies_latch_ s,
   replicate_watchers_ s, commit_watchers_ s, replicated_op_id_ s,
   received_op_id_ s, state_ s).

(** Every entry is filed under the id of its round, as
    [AddPendingOperation] files it. *)
Definition keyed_by_round_id (m : list (OpId * ConsensusRound)) : Prop :=
  Forall (λ e, e.1 = round_id e.2) m.

(** The state after the loop body has run for each entry of [range]. *)
Definition applied (range : list (OpId * ConsensusRound)) (s : ReplicaState)
  : ReplicaState :=
  emit (apply_effect <$> range.*2)
       (with_in_flight_commits
          (list_to_set (round_id <$> range.*2) ∪ in_flight_commits_ s) s).

(** Scenario S1 of the spec: term 5, ids [(5,10)], [(5,11)], [(5,12)] are
    pending and the commit watermark is at [(5,9)].  The first and the third
    round have a commit continuation, the second has none and goes to the
    callback pool. *)
Definition round_at (i : N) (c : option ReplicaCommitContinuation)
  : ConsensusRound :=
  mkRound (ReplicateMsg.mk (mkOpId 5 i) WRITE_OP) c (N.to_nat i).

Definition batch (second : option ReplicaCommitContinuation)
  : list (OpId * ConsensusRound) :=
  [ (mkOpId 5 10, round_at 10 (Some (mkContinuation 1 OK)));
    (mkOpId 5 11, round_at 11 second);
    (mkOpId 5 12, round_at 12 (Some (mkContinuation 3 OK))) ].

Definition batch_replica : ReplicaState :=
  with_pending_txns (batch None) (with_next_index 13 example_replica).

(** The same batch, but the continuation of [(5,11)] answers with an error. *)
Definition apply_refused : Status := mkStatus kAborted "Transaction aborted".

Definition failing_batch_replica : ReplicaState :=
  with_pending_txns (batch (Some (mkContinuation 2 apply_refused)))
                    (with_next_index 13 example_replica).

(** The batch replica once the apply of [(5,10)] has been triggered, with a
    commit watcher registered at [(5,10)] and one at [(5,11)]. *)
Definition in_flight_replica : ReplicaState :=
  with_last_triggered_apply (mkOpId 5 10)
    (with_in_flight_commits {[ mkOpId 5 10 ]}
       (with_commit_watchers [(mkOpId 5 10, 41); (mkOpId 5 11, 42)]
          batch_replica)).

(** The same replica after [LockForShutdown]: it is in SHUTTING_DOWN and the
    drain latch is armed with 1. *)
Definition draining_replica : ReplicaState :=
  (LockForShutdown in_flight_replica).2.

End ConsensusVocabulary.

(** ** Participant ops: example transactions *)

Section TabletVocabulary.
Import Tablet.

(** A FINALIZE_COMMIT op for transaction 7 with commit timestamp 105. *)
Definition finalize_request : ParticipantOpPB.t :=
  ParticipantOpPB.mk 7 FINALIZE_COMMIT 105.

(** The transaction as BEGIN_COMMIT left it: its commit op is open at
    timestamp 100. *)
Definition committing_txn : Txn :=
  mkTxn [CallBeginTransaction (mkOpId 5 10); CallBeginCommit (mkOpId 5 11)]
        (Some (mkScopedOp 100 APPLYING)).

(** The transaction during a bootstrap replay: no commit op is held. *)
Definition replayed_txn : Txn :=
  mkTxn [CallBeginTransaction (mkOpId 5 10); CallBeginCommit (mkOpId 5 11)]
        None.

Definition finalize_op (txn : Txn) : ParticipantOpState :=
  mkOpState finalize_request (mkOpId 5 12) (Some txn) None 0.

(** A BEGIN_COMMIT op of transaction 7 that holds its transaction and the
    MVCC op given. *)
Definition begin_commit_op (mvcc_op : option ScopedOp) : ParticipantOpState :=
  mkOpState (ParticipantOpPB.mk 7 BEGIN_COMMIT 0) (mkOpId 5 11)
            (Some (mkTxn [CallBeginTransaction (mkOpId 5 10)] None))
            mvcc_op 0.

End TabletVocabulary.

(** ** Vocabulary of the further properties *)

Section MoreVocabulary.
Import Consensus ReplicaLifecycle.

(** [k] successive calls of [NewIdUnlocked]: the ids handed out, oldest
    first, and the replica afterwards. *)
Fixpoint NewIds (k : nat) (s : ReplicaState) : list OpId * ReplicaState :=
  match k with
  | 0 => ([], s)
  | S k =>
      let r := NewIdUnlocked s in
      let rs := NewIds k r.2 in
      (r.1 :: rs.1, rs.2)
  end.

(** The invariant of §3 between the two containers of pending work. *)
Definition in_flight_are_pending (s : ReplicaState) : Prop :=
  ∀ id, id ∈ in_flight_commits_ s → id ∈ keys (pending_txns_ s).

(** The drain latch counts the applies in flight. *)
Definition latch_counts_in_flight (s : ReplicaState) : Prop :=
  in_flight_applies_latch_ s = N.of_nat (size (in_flight_commits_ s)).

(** The methods that can write the lifecycle state, as calls. *)
Inductive LifecycleCall :=
| call_LockForStart
| call_LockForRead
| call_LockForReplicate (msg : ReplicateMsg.t)
| call_LockForCommit
| call_LockForConfigChange
| call_LockForElection
| call_LockForUpdate
| call_LockForShutdown
| call_Shutdown
| call_SetConfigDoneUnlocked
| call_StartUnlocked (initial_id : OpId)
| call_AddPendingOperation (round : ConsensusRound)
| call_MarkConsensusCommittedUpToUnlocked (id : OpId).

Definition run_lifecycle (c : LifecycleCall) (s : ReplicaState)
  : Outcome ReplicaState :=
  match c with
  | call_LockForStart => LockForStart s
  | call_LockForRead => LockForRead s
  | call_LockForReplicate msg => LockForReplicate msg s
  | call_LockForCommit => LockForCommit s
  | call_LockForConfigChange => LockForConfigChange s
  | call_LockForElection => LockForElection s
  | call_LockForUpdate => LockForUpdate s
  | call_LockForShutdown =>
      Returned (LockForShutdown s).1 (LockForShutdown s).2
  | call_Shutdown => Shutdown s
  | call_SetConfigDoneUnlocked => SetConfigDoneUnlocked s
  | call_StartUnlocked initial_id => StartUnlocked initial_id s
  | call_AddPendingOperation round => AddPendingOperation round s
  | call_MarkConsensusCommittedUpToUnlocked id =>
      MarkConsensusCommittedUpToUnlocked id s
  end.

(** The edges of the lifecycle graph that the code can take. *)
Definition lifecycle_edge (from to : State) : Prop :=
  from = to ∨
  (from = kInitialized ∧ to = kChangingConfig) ∨
  (from = kRunning ∧ to = kChangingConfig) ∨
  (from = kChangingConfig ∧ to = kRunning) ∨
  (from ≠ kShutDown ∧ to = kShuttingDown) ∨
  (from = kShuttingDown ∧ to = kShutDown).

(** The acknowledgements of a list of peers, in order. *)
Fixpoint AckPeers (uuids : list string) (t : MajorityOpStatusTracker)
  : option MajorityOpStatusTracker :=
  match uuids with
  | [] => Some t
  | uuid :: rest =>
      match AckPeer uuid t with
      | None => None
      | Some t => AckPeers rest t
      end
  end.

(** The same acknowledgements in a debug build. *)
Fixpoint AckPeers_debug (uuids : list string) (t : MajorityOpStatusTracker)
  : option MajorityOpStatusTracker :=
  match uuids with
  | [] => Some t
  | uuid :: rest =>
      match AckPeer_debug uuid t with
      | None => None
      | Some t => AckPeers_debug rest t
      end
  end.

(** [set_error] called with each status of a list, in order. *)
Definition set_errors (errors : list Status)
    (r : OperationCallbackRunnableState) : OperationCallbackRunnableState :=
  foldl (λ r e, set_error e r) r errors.

(** The acknowledgements that come from voting peers. *)
Definition voting_acks (voting : gset string) (uuids : list string) : nat :=
  length (filter (λ u, u ∈ voting) uuids).

(** The batch replica with [next_index_] at the last [uint64_t]. *)
Definition last_index_replica : ReplicaState :=
  with_next_index u64_max batch_replica.

End MoreVocabulary.

(** * Properties *)

(** ** Machine arithmetic *)

Lemma to_int32_small (z : Z) : (0 <= z <= INT_MAX)%Z → to_int32 z = z.
Proof.
  unfold to_int32, INT_MAX. intros Hz.
  rewrite Z.mod_small; lia.
Qed.

Lemma wrap64_small (n : N) : (n < u64_modulus)%N → wrap64 n = n.
Proof. intros Hn. unfold wrap64. now apply N.mod_small. Qed.

(** ** The order on operation ids *)

Section OpIdOrder.

Ltac opid_cases :=
  unfold opid_lt, opid_le, OpIdCompare in *; simpl in *;
  repeat
    (match goal with
     | |- context [decide (?x = ?y)] => destruct (decide (x = y))
     | H : context [decide (?x = ?y)] |- _ => destruct (decide (x = y))
     | |- context [(?x <? ?y)%N] => destruct (N.ltb_spec x y)
     | H : context [(?x <? ?y)%N] |- _ => destruct (N.ltb_spec x y)
     | |- context [(?x =? ?y)%N] => destruct (N.eqb_spec x y)
     | H : context [(?x =? ?y)%N] |- _ => destruct (N.eqb_spec x y)
     end);
  simpl in *; subst; try lia; try congruence.

(** The comparison is the lexicographic order of §3. *)
Lemma opid_lt_lexicographic (a b : OpId) :
  opid_lt a b ↔
  (term a < term b)%N ∨ (term a = term b ∧ (index a < index b)%N).
Proof. destruct a, b. split; intros H; opid_cases. Qed.

Lemma OpIdCompare_eq (a b : OpId) : OpIdCompare a b = 0%Z ↔ a = b.
Proof.
  destruct a as [ta ia], b as [tb ib]. split; intros H.
  - opid_cases.
  - inversion H; subst. opid_cases.
Qed.

Lemma OpIdCompare_refl (a : OpId) : OpIdCompare a a = 0%Z.
Proof. now apply OpIdCompare_eq. Qed.

Lemma OpIdCompare_flip (a b : OpId) :
  (0 < OpIdCompare a b)%Z ↔ opid_lt b a.
Proof. destruct a, b. split; intros H; opid_cases. Qed.

Lemma opid_le_lt_or_eq (a b : OpId) : opid_le a b ↔ opid_lt a b ∨ a = b.
Proof.
  split.
  - intros H. destruct (decide (OpIdCompare a b = 0%Z)) as [E|E].
    + right. now apply OpIdCompare_eq.
    + left. unfold opid_lt, opid_le in *. lia.
  - intros [H| ->]; unfold opid_lt, opid_le in *;
      [lia | rewrite OpIdCompare_refl; lia].
Qed.

Lemma opid_lt_irrefl (a : OpId) : ¬ opid_lt a a.
Proof. unfold opid_lt. rewrite OpIdCompare_refl. lia. Qed.

Lemma opid_lt_trans (a b c : OpId) : opid_lt a b → opid_lt b c → opid_lt a c.
Proof.
  rewrite !opid_lt_lexicographic. lia.
Qed.

Lemma opid_le_lt_trans (a b c : OpId) : opid_le a b → opid_lt b c → opid_lt a c.
Proof.
  rewrite opid_le_lt_or_eq. intros [H| ->]; eauto using opid_lt_trans.
Qed.

Lemma opid_lt_le_trans (a b c : OpId) : opid_lt a b → opid_le b c → opid_lt a c.
Proof.
  rewrite opid_le_lt_or_eq. intros H [H'| <-]; eauto using opid_lt_trans.
Qed.

Lemma opid_not_le (a b : OpId) : ¬ opid_le a b ↔ opid_lt b a.
Proof.
  rewrite <- OpIdCompare_flip. unfold opid_le. lia.
Qed.

Lemma opid_lt_le (a b : OpId) : opid_lt a b → opid_le a b.
Proof. unfold opid_lt, opid_le. lia. Qed.

End OpIdOrder.

(** ** The ordered map *)

Section OrderedMapFacts.
Context {V : Type}.
Implicit Types (m : list (OpId * V)) (k lo hi : OpId).

Lemma ordered_cons_inv (e : OpId * V) m :
  ordered (e :: m) → ordered m ∧ Forall (opid_lt e.1) (keys m).
Proof. unfold ordered, keys. simpl. intros H. inversion H; subst. auto. Qed.

Lemma upper_bound_length k m : length (upper_bound k m) ≤ length m.
Proof.
  induction m as [|e m IH]; simpl; [lia|].
  case_bool_decide; simpl; lia.
Qed.

Lemma upper_bound_all_above k m :
  Forall (opid_lt k) (keys m) → upper_bound k m = m.
Proof.
  destruct m as [|e m]; simpl; [done|].
  intros H. apply Forall_cons in H as [H _].
  rewrite bool_decide_true; [done|]. now apply OpIdCompare_flip.
Qed.

Lemma filter_interval_all_above lo hi m :
  Forall (opid_lt hi) (keys m) → filter (in_interval lo hi) m = [].
Proof.
  induction m as [|e m IH]; [done|].
  unfold keys. simpl. intros H. apply Forall_cons in H as [H Hm].
  rewrite filter_cons_False; [now apply IH|].
  intros [_ Hle]. apply (opid_lt_irrefl hi). eauto using opid_lt_le_trans.
Qed.

Lemma Forall_keys_above_trans k k' m :
  opid_lt k k' → Forall (opid_lt k') (keys m) → Forall (opid_lt k) (keys m).
Proof.
  intros Hk Hall. eapply Forall_impl; [exact Hall|].
  intros x. now apply opid_lt_trans.
Qed.

Lemma take_upper_bound_filter lo hi m :
  ordered m → Forall (opid_lt lo) (keys m) →
  take (length m - length (upper_bound hi m)) m = filter (in_interval lo hi) m.
Proof.
  induction m as [|e m IH]; [done|].
  intros Hord Hlo. apply ordered_cons_inv in Hord as [Hord Hall].
  unfold keys in Hlo. simpl in Hlo. apply Forall_cons in Hlo as [Hlo Hlom].
  simpl upper_bound. case_bool_decide as Hcmp.
  - (* the head is already above [hi] *)
    rewrite Nat.sub_diag. simpl.
    apply OpIdCompare_flip in Hcmp.
    rewrite filter_cons_False.
    + symmetry. apply filter_interval_all_above.
      eauto using Forall_keys_above_trans.
    + intros [_ Hle]. apply (opid_lt_irrefl hi). eauto using opid_lt_le_trans.
  - pose proof (upper_bound_length hi m) as Hlen.
    replace (length (e :: m) - length (upper_bound hi m))
      with (S (length m - length (upper_bound hi m))) by (simpl; lia).
    simpl. rewrite filter_cons_True.
    + f_equal. now apply IH.
    + split; [done|]. unfold opid_le. lia.
Qed.

(** The entries the loop of [MarkConsensusCommittedUpToUnlocked] visits are
    the entries with key in [(lo, hi]], in key order. *)
Lemma iter_range_filter lo hi m :
  ordered m → opid_lt lo hi →
  iter_range (upper_bound lo m) (upper_bound hi m)
  = filter (in_interval lo hi) m.
Proof.
  unfold iter_range. intros Hord Hlt.
  induction m as [|e m IH]; [done|].
  pose proof Hord as Hord'. apply ordered_cons_inv in Hord' as [Hordm Hall].
  destruct (decide (opid_lt lo e.1)) as [Hhead|Hhead].
  - rewrite (upper_bound_all_above lo (e :: m)).
    + apply take_upper_bound_filter; [done|].
      unfold keys. simpl. constructor; [done|].
      eauto using Forall_keys_above_trans.
    + unfold keys. simpl. constructor; [done|].
      eauto using Forall_keys_above_trans.
  - assert (Hle : opid_le e.1 lo).
    { destruct (decide (opid_le e.1 lo)) as [?|Hn]; [done|].
      now apply opid_not_le in Hn. }
    simpl upper_bound.
    rewrite (bool_decide_false (0 < OpIdCompare e.1 lo)%Z);
      [|unfold opid_le in Hle; lia].
    rewrite (bool_decide_false (0 < OpIdCompare e.1 hi)%Z).
    + rewrite filter_cons_False; [now apply IH|]. now intros [? _].
    + pose proof (opid_le_lt_trans _ _ _ Hle Hlt) as H'.
      unfold opid_lt in H'. lia.
Qed.

Lemma filter_ordered (P : OpId * V → Prop) `{∀ e, Decision (P e)} m :
  ordered m → ordered (filter P m).
Proof.
  induction m as [|e m IH]; [done|].
  intros Hord. apply ordered_cons_inv in Hord as [Hord Hall].
  rewrite filter_cons. case_decide; [|now apply IH].
  unfold ordered, keys. simpl. constructor; [now apply IH|].
  unfold keys in Hall |- *. rewrite Forall_fmap, Forall_forall in Hall |- *.
  intros x Hx. apply list_elem_of_filter in Hx as [_ Hx]. auto.
Qed.

(** Inserting a fresh key and erasing it again gives the map back. *)
Lemma erase_insert k (v : V) m m' :
  map_InsertOrDie k v m = Some m' →
  EraseKeyReturnValuePtr k m' = (Some v, m).
Proof.
  revert m'. induction m as [|e m IH]; simpl; intros m' H.
  - inversion H; subst. simpl.
    now rewrite bool_decide_true by apply OpIdCompare_refl.
  - case_bool_decide as Hlt.
    + inversion H; subst. simpl.
      now rewrite bool_decide_true by apply OpIdCompare_refl.
    + case_bool_decide as Heq; [done|].
      destruct (map_InsertOrDie k v m) as [m''|] eqn:Hins; [|done].
      simpl in H. inversion H; subst. simpl.
      rewrite bool_decide_false.
      * now rewrite (IH m'' eq_refl).
      * intros E. apply OpIdCompare_eq in E. subst.
        now rewrite OpIdCompare_refl in Heq.
Qed.

Lemma erase_present k m :
  k ∈ keys m → ∃ v, (EraseKeyReturnValuePtr k m).1 = Some v.
Proof.
  induction m as [|e m IH]; unfold keys; simpl.
  - intros H. inversion H.
  - intros H. case_bool_decide as Heq; simpl; [eauto|].
    apply elem_of_cons in H as [->|H]; [|now apply IH].
    now rewrite OpIdCompare_refl in Heq.
Qed.

End OrderedMapFacts.

(** ** QuorumState::Build *)

Section BuildFacts.
Import Consensus.

Lemma Build_body_voting (p : QuorumPeerPB.t) (v0 : gset string) (u : string) :
  u ∈ (if bool_decide (QuorumPeerPB.role p = LEADER) ||
          bool_decide (QuorumPeerPB.role p = FOLLOWER)
       then {[QuorumPeerPB.permanent_uuid p]} ∪ v0 else v0)
  ↔ u ∈ v0 ∨ (QuorumPeerPB.permanent_uuid p = u ∧ is_voter p).
Proof.
  unfold is_voter.
  destruct (QuorumPeerPB.role p); simpl;
    rewrite ?elem_of_union, ?elem_of_singleton; intuition congruence.
Qed.

(** What the loop of [Build] leaves in its three locals, from any start. *)
Lemma Build_loop (self_uuid : string) (ps : list QuorumPeerPB.t) :
  ∀ (r0 : Role) (v0 : gset string) (l0 : string),
  ∃ r v l,
    foldl (Build_body self_uuid) (r0, v0, l0) ps = (r, v, l) ∧
    (∀ u, u ∈ v ↔
          u ∈ v0 ∨ ∃ p, p ∈ ps ∧ QuorumPeerPB.permanent_uuid p = u ∧ is_voter p) ∧
    ((∃ p, p ∈ ps ∧ QuorumPeerPB.role p = LEADER ∧
           l = QuorumPeerPB.permanent_uuid p) ∨
     ((∀ p, p ∈ ps → QuorumPeerPB.role p ≠ LEADER) ∧ l = l0)) ∧
    ((∃ p, p ∈ ps ∧ QuorumPeerPB.permanent_uuid p = self_uuid ∧
           r = QuorumPeerPB.role p) ∨
     ((∀ p, p ∈ ps → QuorumPeerPB.permanent_uuid p ≠ self_uuid) ∧ r = r0)) ∧
    size v ≤ size v0 + length ps.
Proof.
  induction ps as [|p ps IH]; intros r0 v0 l0.
  - exists r0, v0, l0. simpl. repeat split.
    + auto.
    + intros [?|(p & Hp & _)]; [done|]. inversion Hp.
    + right. split; [|done]. intros p Hp. inversion Hp.
    + right. split; [|done]. intros p Hp. inversion Hp.
    + lia.
  - simpl foldl.
    pose (r1 := if decide (QuorumPeerPB.permanent_uuid p = self_uuid)
               then QuorumPeerPB.role p else r0).
    pose (v1 := if bool_decide (QuorumPeerPB.role p = LEADER) ||
                  bool_decide (QuorumPeerPB.role p = FOLLOWER)
               then {[QuorumPeerPB.permanent_uuid p]} ∪ v0 else v0).
    pose (l1 := if decide (QuorumPeerPB.role p = LEADER)
               then QuorumPeerPB.permanent_uuid p else l0).
    change (Build_body self_uuid (r0, v0, l0) p) with (r1, v1, l1).
    destruct (IH r1 v1 l1) as (r & v & l & Hfold & Hv & Hl & Hr & Hsz).
    exists r, v, l. split; [exact Hfold|].
    assert (Hv1 : ∀ u, u ∈ v1 ↔
              u ∈ v0 ∨ (QuorumPeerPB.permanent_uuid p = u ∧ is_voter p))
      by (intros u; apply Build_body_voting).
    assert (Hsz1 : size v1 ≤ S (size v0)).
    { subst v1.
      destruct (bool_decide (QuorumPeerPB.role p = LEADER) ||
                bool_decide (QuorumPeerPB.role p = FOLLOWER)); [|lia].
      rewrite size_union_alt, size_singleton.
      assert (size (v0 ∖ {[QuorumPeerPB.permanent_uuid p]}) ≤ size v0)
        by (apply subseteq_size, subseteq_difference_l; done).
      lia. }
    repeat split.
    + intros Hu. apply Hv in Hu as [Hu|(q & Hq & Hqu & Hqv)].
      * apply Hv1 in Hu as [Hu|[Hu Hpv]]; [now left|].
        right. exists p. split; [left|done].
      * right. exists q. split; [now right|done].
    + intros [Hu|(q & Hq & Hqu & Hqv)]; apply Hv.
      * left. apply Hv1. now left.
      * apply elem_of_cons in Hq as [->|Hq].
        -- left. apply Hv1. now right.
        -- right. eauto.
    + destruct Hl as [(q & Hq & Hql & ->)|[Hnone ->]].
      * left. exists q. split; [now right|done].
      * subst l1. destruct (decide (QuorumPeerPB.role p = LEADER)) as [E|E].
        -- left. exists p. split; [left|done].
        -- right. split; [|done]. intros q Hq.
           apply elem_of_cons in Hq as [->|Hq]; auto.
    + destruct Hr as [(q & Hq & Hqu & ->)|[Hnone ->]].
      * left. exists q. split; [now right|done].
      * subst r1.
        destruct (decide (QuorumPeerPB.permanent_uuid p = self_uuid)) as [E|E].
        -- left. exists p. split; [left|done].
        -- right. split; [|done]. intros q Hq.
           apply elem_of_cons in Hq as [->|Hq]; auto.
    + simpl. lia.
Qed.

End BuildFacts.

(** ** Claims about QuorumState::Build *)

Section BuildClaims.
Import Consensus.

Lemma majority_size_exact (n : nat) :
  (Z.of_nat n <= INT_MAX)%Z →
  to_int32 (Z.of_N (wrap64 (N.of_nat n / 2 + 1))) = (Z.of_nat n / 2 + 1)%Z.
Proof.
  unfold INT_MAX. intros Hn.
  pose proof (N.Div0.mul_div_le (N.of_nat n) 2) as Hq.
  rewrite wrap64_small by (unfold u64_modulus; simpl; lia).
  rewrite N2Z.inj_add, N2Z.inj_div, nat_N_Z. simpl Z.of_N.
  apply to_int32_small. unfold INT_MAX.
  pose proof (Z.mul_div_le (Z.of_nat n) 2 eq_refl) as Hle.
  pose proof (Z.div_pos (Z.of_nat n) 2) as Hpos.
  lia.
Qed.

(** C5.  For every quorum and every self uuid, [QuorumState::Build] (a total
    function: it has no failing path) returns a snapshot in which
    [voting_peers] is exactly the set of uuids of the peers whose role is
    LEADER or FOLLOWER, [leader_uuid] is the uuid of a peer with role LEADER
    (the empty string if there is none), [role] is the role of a peer whose
    uuid is the self uuid (NON_PARTICIPANT if none is listed),
    [majority_size] is [|voting_peers| / 2 + 1], [quorum_size] is the number
    of listed peers and [config_seqno] is the seqno of the quorum.  The
    hypothesis is the bound that the type of [peers_size()] puts on a
    repeated field. *)
Theorem Build_snapshot (quorum : QuorumPB.t) (self_uuid : string) :
  (QuorumPB.peers_size quorum <= INT_MAX)%Z →
  let ps := QuorumPB.peers quorum in
  let q := Build quorum self_uuid in
  (∀ u, u ∈ voting_peers q ↔
        ∃ p, p ∈ ps ∧ QuorumPeerPB.permanent_uuid p = u ∧
             (QuorumPeerPB.role p = LEADER ∨ QuorumPeerPB.role p = FOLLOWER)) ∧
  ((∃ p, p ∈ ps ∧ QuorumPeerPB.role p = LEADER ∧
         leader_uuid q = QuorumPeerPB.permanent_uuid p) ∨
   ((∀ p, p ∈ ps → QuorumPeerPB.role p ≠ LEADER) ∧ leader_uuid q = ""%string)) ∧
  ((∃ p, p ∈ ps ∧ QuorumPeerPB.permanent_uuid p = self_uuid ∧
         role q = QuorumPeerPB.role p) ∨
   ((∀ p, p ∈ ps → QuorumPeerPB.permanent_uuid p ≠ self_uuid) ∧
    role q = NON_PARTICIPANT)) ∧
  majority_size q = (Z.of_nat (size (voting_peers q)) / 2 + 1)%Z ∧
  (size (voting_peers q) = 0 → majority_size q = 1%Z) ∧
  quorum_size q = Z.of_nat (length ps) ∧
  config_seqno q = QuorumPB.seqno quorum.
Proof.
  intros Hsize ps q. subst q. unfold Build. fold ps.
  destruct (Build_loop self_uuid ps NON_PARTICIPANT ∅ ""%string)
    as (r & v & l & -> & Hv & Hl & Hr & Hsz).
  simpl. rewrite size_empty in Hsz. simpl in Hsz.
  assert (Hmaj : to_int32 (Z.of_N (wrap64 (N.of_nat (size v) / 2 + 1)))
                 = (Z.of_nat (size v) / 2 + 1)%Z).
  { apply majority_size_exact. unfold QuorumPB.peers_size in Hsize.
    fold ps in Hsize. lia. }
  repeat split; try done.
  - intros Hu. apply Hv in Hu as [Hu|Hu]; [|exact Hu].
    now apply not_elem_of_empty in Hu.
  - intros Hu. apply Hv. now right.
  - intros Hz. rewrite Hmaj, Hz. reflexivity.
Qed.

Lemma Build_snapshot_witness :
  majority_size (Build example_quorum "peer-a") = 2%Z ∧
  quorum_size (Build example_quorum "peer-a") = 4%Z ∧
  config_seqno (Build example_quorum "peer-a") = 7%Z.
Proof.
  assert (Hsize : (QuorumPB.peers_size example_quorum <= INT_MAX)%Z)
    by (vm_compute; discriminate).
  destruct (Build_snapshot example_quorum "peer-a" Hsize)
    as (_ & _ & _ & Hmaj & _ & Hq & Hseq).
  split; [|split]; [|exact Hq|exact Hseq].
  rewrite Hmaj. vm_compute. reflexivity.
Defined.

End BuildClaims.

(** ** Claims about term, vote and quorum persistence *)

Section MetadataClaims.
Import Consensus.

Lemma SetCurrentTermUnlocked_accepts (new_term : N) (disk : Status)
    (s : ReplicaState) :
  (GetCurrentTermUnlocked s <= new_term)%N →
  SetCurrentTermUnlocked new_term disk s =
  ((if ok disk then OK else disk),
   with_cmeta
     (λ cm, mkCMeta
        (ConsensusMetadataPB.mk new_term None
           (ConsensusMetadataPB.committed_quorum (pb cm)))
        (if ok disk
         then ConsensusMetadataPB.mk new_term None
                (ConsensusMetadataPB.committed_quorum (pb cm))
         else on_disk cm)
        (S (flushes cm))) s).
Proof.
  intros Hle. unfold SetCurrentTermUnlocked.
  destruct (N.ltb_spec new_term (GetCurrentTermUnlocked s)) as [Hlt|_]; [lia|].
  unfold flush_cmeta, Flush, with_cmeta, mutable_pb. simpl.
  now destruct (ok disk).
Qed.

Lemma SetCurrentTermUnlocked_rejects (new_term : N) (disk : Status)
    (s : ReplicaState) :
  (new_term < GetCurrentTermUnlocked s)%N →
  code (SetCurrentTermUnlocked new_term disk s).1 = kIllegalState ∧
  (SetCurrentTermUnlocked new_term disk s).2 = s.
Proof.
  intros Hlt. unfold SetCurrentTermUnlocked.
  destruct (N.ltb_spec new_term (GetCurrentTermUnlocked s)) as [_|Hle]; [|lia].
  done.
Qed.

Lemma IncrementTermUnlocked_term (disk : Status) (s : ReplicaState) :
  GetCurrentTermUnlocked (IncrementTermUnlocked disk s).2
  = wrap64 (GetCurrentTermUnlocked s + 1).
Proof.
  unfold IncrementTermUnlocked, flush_cmeta, Flush, with_cmeta, mutable_pb.
  simpl. now destruct (ok disk).
Qed.

Lemma run_call_term (c : TermCall) (s : ReplicaState) :
  below_last_term [c] s →
  (GetCurrentTermUnlocked s <= GetCurrentTermUnlocked (run_call c s).2)%N.
Proof.
  destruct c as [new_term disk|disk]; simpl; intros [Hb _].
  - destruct (N.lt_ge_cases new_term (GetCurrentTermUnlocked s)) as [Hlt|Hge].
    + now rewrite (proj2 (SetCurrentTermUnlocked_rejects _ disk _ Hlt)).
    + rewrite SetCurrentTermUnlocked_accepts by done. simpl. exact Hge.
  - rewrite IncrementTermUnlocked_term.
    rewrite wrap64_small; [lia|]. unfold u64_max in Hb. lia.
Qed.

(** C3 (as the code has it).  Over every sequence of [set_current_term] and
    [increment_term] calls in which no [increment_term] is issued at term
    [2^64 - 1], the current term observed after each call is at least the one
    observed before it; and a call [set_current_term(new_term)] with
    [new_term] below the current term answers IllegalState and leaves the
    whole object as it was: term, vote, persisted record and the count of
    flushes. *)
Theorem term_monotone_below_last_term (cs : list TermCall) (s : ReplicaState) :
  below_last_term cs s →
  Sorted N.le (GetCurrentTermUnlocked s :: observed_terms cs s) ∧
  (∀ new_term disk,
     (new_term < GetCurrentTermUnlocked s)%N →
     code (SetCurrentTermUnlocked new_term disk s).1 = kIllegalState ∧
     (SetCurrentTermUnlocked new_term disk s).2 = s).
Proof.
  intros Hb. split; [|intros; now apply SetCurrentTermUnlocked_rejects].
  revert s Hb. induction cs as [|c cs IH]; intros s Hb.
  - repeat constructor.
  - destruct Hb as [Hc Hcs]. simpl. constructor.
    + now apply IH.
    + constructor. apply run_call_term. now split.
Qed.

Lemma term_monotone_below_last_term_witness :
  Sorted N.le [5; 5; 6; 6; 9]%N ∧
  (SetCurrentTermUnlocked 4 OK example_replica).2 = example_replica.
Proof.
  pose (cs := [call_set_current_term 5 OK; call_increment_term disk_full;
               call_set_current_term 3 OK; call_set_current_term 9 OK]).
  assert (Hb : below_last_term cs example_replica)
    by (vm_compute; repeat split; reflexivity).
  destruct (term_monotone_below_last_term cs example_replica Hb) as [Hs Hrej].
  split; [exact Hs|].
  apply (Hrej 4%N OK). reflexivity.
Defined.

(** C3, as stated, fails at the last term: [increment_term] wraps to 0. *)
Lemma increment_term_wraps :
  GetCurrentTermUnlocked last_term_replica = 18446744073709551615%N ∧
  (IncrementTermUnlocked OK last_term_replica).1 = OK ∧
  GetCurrentTermUnlocked (IncrementTermUnlocked OK last_term_replica).2 = 0%N.
Proof. vm_compute. repeat split. Qed.

(** C4 (as the code has it).  Every call [set_current_term(new_term)] with
    [new_term >= current_term] whose flush succeeds answers OK, sets the
    term to [new_term] and clears [voted_for], whether [new_term] is greater
    than the current term or equal to it; the cleared record is the one
    persisted. *)
Theorem set_current_term_clears_vote (new_term : N) (disk : Status)
    (s : ReplicaState) :
  (GetCurrentTermUnlocked s <= new_term)%N →
  ok disk = true →
  let r := SetCurrentTermUnlocked new_term disk s in
  r.1 = OK ∧
  GetCurrentTermUnlocked r.2 = new_term ∧
  GetVotedForCurrentTermUnlocked r.2 = None ∧
  HasVotedCurrentTermUnlocked r.2 = false ∧
  on_disk (cmeta_ r.2) = pb (cmeta_ r.2).
Proof.
  intros Hle Hok r. subst r.
  rewrite SetCurrentTermUnlocked_accepts by done.
  rewrite Hok. simpl. repeat split.
Qed.

Lemma set_current_term_clears_vote_witness :
  GetVotedForCurrentTermUnlocked
    (SetCurrentTermUnlocked 6 OK example_replica).2 = None.
Proof.
  assert (Hle : (GetCurrentTermUnlocked example_replica <= 6)%N)
    by (vm_compute; discriminate).
  exact (proj1 (proj2 (proj2
    (set_current_term_clears_vote 6 OK example_replica Hle eq_refl)))).
Defined.

(** C4, as stated, fails when the term is set to its current value: the vote
    that was recorded is cleared. *)
Lemma same_term_clears_vote :
  GetCurrentTermUnlocked example_replica = 5%N ∧
  GetVotedForCurrentTermUnlocked example_replica = Some "peer-b"%string ∧
  (SetCurrentTermUnlocked 5 OK example_replica).1 = OK ∧
  GetCurrentTermUnlocked (SetCurrentTermUnlocked 5 OK example_replica).2 = 5%N ∧
  GetVotedForCurrentTermUnlocked
    (SetCurrentTermUnlocked 5 OK example_replica).2 = None.
Proof. vm_compute. repeat split. Qed.

(** C2 (as the code has it).  When the flush of the consensus metadata
    fails, each durable-state mutator returns the flush error
    ([set_voted_for] with a message prepended, the code unchanged) and the
    persisted record is as before the call, but the in-memory state keeps
    the mutation made before the flush: the new term with the vote cleared,
    the recorded vote, the new committed quorum (with the active snapshot
    rebuilt when no quorum change was pending), the incremented seqno.  Of
    the in-memory state only the pending-quorum slot of
    [set_committed_quorum] is as before the call: it is not cleared. *)
Theorem flush_failure_keeps_mutation (disk : Status) (s : ReplicaState) :
  ok disk = false →
  (∀ new_term,
     (GetCurrentTermUnlocked s <= new_term)%N →
     let r := SetCurrentTermUnlocked new_term disk s in
     r.1 = disk ∧ persisted r.2 = persisted s ∧
     in_memory r.2 =
       (new_term, None, GetCommittedQuorumUnlocked s, pending_quorum_ s,
        active_quorum_state_ s)) ∧
  (let r := IncrementTermUnlocked disk s in
   r.1 = disk ∧ persisted r.2 = persisted s ∧
   in_memory r.2 =
     (wrap64 (GetCurrentTermUnlocked s + 1), None,
      GetCommittedQuorumUnlocked s, pending_quorum_ s,
      active_quorum_state_ s)) ∧
  (∀ uuid,
     let r := SetVotedForCurrentTermUnlocked uuid disk s in
     code r.1 = code disk ∧ persisted r.2 = persisted s ∧
     in_memory r.2 =
       (GetCurrentTermUnlocked s, Some uuid, GetCommittedQuorumUnlocked s,
        pending_quorum_ s, active_quorum_state_ s)) ∧
  (∀ new_quorum,
     pending_quorum_ s = None ∨ pending_quorum_ s = Some new_quorum →
     ∃ s',
       SetCommittedQuorumUnlocked new_quorum disk s = Returned disk s' ∧
       persisted s' = persisted s ∧
       in_memory s' =
         (GetCurrentTermUnlocked s, GetVotedForCurrentTermUnlocked s,
          new_quorum, pending_quorum_ s,
          match pending_quorum_ s with
          | Some _ => active_quorum_state_ s
          | None => Build new_quorum (peer_uuid_ s)
          end)) ∧
  (let r := IncrementConfigSeqNoUnlocked disk s in
   r.1 = disk ∧ persisted r.2 = persisted s ∧
   in_memory r.2 =
     (GetCurrentTermUnlocked s, GetVotedForCurrentTermUnlocked s,
      QuorumPB.set_seqno
        (to_int64 (QuorumPB.seqno (GetCommittedQuorumUnlocked s) + 1))
        (GetCommittedQuorumUnlocked s),
      pending_quorum_ s, active_quorum_state_ s)).
Proof.
  intros Hfail. split; [|split; [|split; [|split]]].
  - intros new_term Hle r. subst r.
    rewrite SetCurrentTermUnlocked_accepts by done.
    rewrite Hfail. simpl. repeat split.
  - unfold IncrementTermUnlocked, flush_cmeta, Flush. simpl.
    rewrite Hfail. simpl. repeat split.
  - intros uuid.
    unfold SetVotedForCurrentTermUnlocked, flush_cmeta, Flush. simpl.
    rewrite Hfail. simpl. repeat split.
  - intros new_quorum Hpending.
    unfold SetCommittedQuorumUnlocked, flush_cmeta, Flush.
    destruct Hpending as [Hp|Hp]; rewrite Hp.
    + simpl. rewrite Hfail. eexists. split; [reflexivity|].
      unfold in_memory. simpl. rewrite Hp. repeat split.
    + rewrite decide_True by done. simpl. rewrite Hfail.
      eexists. split; [reflexivity|].
      unfold in_memory. simpl. rewrite Hp. repeat split.
  - unfold IncrementConfigSeqNoUnlocked, flush_cmeta, Flush. simpl.
    rewrite Hfail. simpl. repeat split.
Qed.

Lemma flush_failure_keeps_mutation_witness :
  (SetCurrentTermUnlocked 6 disk_full example_replica).1 = disk_full ∧
  persisted (SetCurrentTermUnlocked 6 disk_full example_replica).2
  = persisted example_replica ∧
  in_memory (SetCurrentTermUnlocked 6 disk_full example_replica).2
  = (6%N, None, GetCommittedQuorumUnlocked example_replica,
     pending_quorum_ example_replica, active_quorum_state_ example_replica).
Proof.
  assert (Hle : (GetCurrentTermUnlocked example_replica <= 6)%N)
    by (vm_compute; discriminate).
  exact (proj1 (flush_failure_keeps_mutation disk_full example_replica eq_refl)
               6%N Hle).
Defined.

(** C2, as stated, fails: after a failed flush the term and the vote read
    back are the new ones, not those before the call. *)
Lemma failed_flush_changes_memory :
  ok disk_full = false ∧
  GetCurrentTermUnlocked example_replica = 5%N ∧
  GetVotedForCurrentTermUnlocked example_replica = Some "peer-b"%string ∧
  (SetCurrentTermUnlocked 6 disk_full example_replica).1 = disk_full ∧
  GetCurrentTermUnlocked
    (SetCurrentTermUnlocked 6 disk_full example_replica).2 = 6%N ∧
  GetVotedForCurrentTermUnlocked
    (SetCurrentTermUnlocked 6 disk_full example_replica).2 = None.
Proof. vm_compute. repeat split. Qed.

End MetadataClaims.

(** ** Claims about the commit watermark *)

Section CommitClaims.
Import Consensus.

Lemma trigger_apply_eq (round : ConsensusRound) (s : ReplicaState) :
  trigger_apply round s
  = (apply_status (callback_pool_ s) round, emit [apply_effect round] s).
Proof.
  unfold trigger_apply, apply_status, apply_effect.
  now destruct (GetReplicaCommitContinuation round).
Qed.

Lemma applied_nil (s : ReplicaState) : applied [] s = s.
Proof.
  unfold applied, emit, with_in_flight_commits. simpl.
  rewrite app_nil_r, (left_id_L ∅ (∪)). now destruct s.
Qed.

Lemma applied_snoc (pre : list (OpId * ConsensusRound))
    (e : OpId * ConsensusRound) (s : ReplicaState) :
  emit [apply_effect e.2]
    (with_in_flight_commits
       ({[round_id e.2]} ∪ in_flight_commits_ (applied pre s)) (applied pre s))
  = applied (pre ++ [e]) s.
Proof.
  unfold applied, emit, with_in_flight_commits. simpl.
  rewrite !fmap_app, list_to_set_app_L. simpl.
  rewrite <- app_assoc. f_equal.
  rewrite (right_id_L ∅ (∪)).
  rewrite (assoc_L (∪)). f_equal. apply (comm_L (∪)).
Qed.

Lemma applied_in_flight (range : list (OpId * ConsensusRound))
    (s : ReplicaState) (x : OpId) :
  x ∈ in_flight_commits_ (applied range s)
  ↔ x ∈ round_id <$> range.*2 ∨ x ∈ in_flight_commits_ s.
Proof.
  unfold applied. simpl. now rewrite elem_of_union, elem_of_list_to_set.
Qed.

(** One pass of the loop body on an id that is not yet in flight. *)
Lemma commit_loop_step (e : OpId * ConsensusRound)
    (rest : list (OpId * ConsensusRound)) (s : ReplicaState) :
  round_id e.2 ∉ in_flight_commits_ s →
  commit_loop (e :: rest) s
  = let s' :=
      emit [apply_effect e.2]
        (with_in_flight_commits ({[round_id e.2]} ∪ in_flight_commits_ s) s) in
    if ok (apply_status (callback_pool_ s) e.2) then commit_loop rest s'
    else Returned (apply_status (callback_pool_ s) e.2) s'.
Proof.
  intros Hfresh. simpl. rewrite decide_False by done.
  now rewrite trigger_apply_eq.
Qed.

Lemma fresh_after_prefix (pre : list (OpId * ConsensusRound))
    (e : OpId * ConsensusRound) (s : ReplicaState) :
  NoDup (round_id <$> (pre ++ [e]).*2) →
  (∀ e', e' ∈ pre ++ [e] → round_id e'.2 ∉ in_flight_commits_ s) →
  round_id e.2 ∉ in_flight_commits_ (applied pre s).
Proof.
  intros Hnd Hfresh. rewrite !fmap_app in Hnd.
  apply NoDup_app in Hnd as (_ & Hdisj & _).
  rewrite applied_in_flight. intros [Hin|Hin].
  - apply (Hdisj _ Hin). simpl. left.
  - apply (Hfresh e); [|done]. apply elem_of_app. right. left.
Qed.

(** The loop runs through a prefix whose calls all answer OK. *)
Lemma commit_loop_prefix (pre : list (OpId * ConsensusRound)) :
  ∀ (rest : list (OpId * ConsensusRound)) (s : ReplicaState),
  NoDup (round_id <$> pre.*2) →
  (∀ e, e ∈ pre → round_id e.2 ∉ in_flight_commits_ s) →
  Forall (λ e, ok (apply_status (callback_pool_ s) e.2) = true) pre →
  commit_loop (pre ++ rest) s = commit_loop rest (applied pre s).
Proof.
  induction pre as [|e pre IH] using rev_ind; intros rest s Hnd Hfresh Hok.
  - now rewrite applied_nil.
  - pose proof (fresh_after_prefix pre e s Hnd Hfresh) as He_fresh.
    rewrite !fmap_app in Hnd. apply NoDup_app in Hnd as (Hnd & _ & _).
    apply Forall_app in Hok as [Hok He]. apply Forall_cons in He as [He _].
    rewrite <- app_assoc. rewrite IH; [|done| |done].
    + change ([e] ++ rest) with (e :: rest).
      rewrite commit_loop_step by done. cbv zeta.
      replace (callback_pool_ (applied pre s)) with (callback_pool_ s)
        by reflexivity.
      now rewrite He, applied_snoc.
    + intros e' He'. apply Hfresh. apply elem_of_app. now left.
Qed.

Lemma commit_loop_all_ok (range : list (OpId * ConsensusRound))
    (s : ReplicaState) :
  NoDup (round_id <$> range.*2) →
  (∀ e, e ∈ range → round_id e.2 ∉ in_flight_commits_ s) →
  Forall (λ e, ok (apply_status (callback_pool_ s) e.2) = true) range →
  commit_loop range s = Returned OK (applied range s).
Proof.
  intros Hnd Hfresh Hok.
  rewrite <- (app_nil_r range) at 1. now rewrite commit_loop_prefix.
Qed.

Lemma commit_loop_fails_at (pre post : list (OpId * ConsensusRound))
    (e : OpId * ConsensusRound) (s : ReplicaState) :
  NoDup (round_id <$> (pre ++ [e]).*2) →
  (∀ e', e' ∈ pre ++ [e] → round_id e'.2 ∉ in_flight_commits_ s) →
  Forall (λ e, ok (apply_status (callback_pool_ s) e.2) = true) pre →
  ok (apply_status (callback_pool_ s) e.2) = false →
  commit_loop (pre ++ e :: post) s
  = Returned (apply_status (callback_pool_ s) e.2) (applied (pre ++ [e]) s).
Proof.
  intros Hnd Hfresh Hok Hfail.
  pose proof (fresh_after_prefix pre e s Hnd Hfresh) as He_fresh.
  rewrite !fmap_app in Hnd. apply NoDup_app in Hnd as (Hnd & _ & _).
  rewrite commit_loop_prefix; [|done| |done].
  - rewrite commit_loop_step by done. cbv zeta.
    replace (callback_pool_ (applied pre s)) with (callback_pool_ s)
      by reflexivity.
    now rewrite Hfail, applied_snoc.
  - intros e' He'. apply Hfresh. apply elem_of_app. now left.
Qed.

Lemma ordered_NoDup {V : Type} (m : list (OpId * V)) :
  ordered m → NoDup (keys m).
Proof.
  unfold ordered. induction 1 as [|k ks Hs IH Hall]; constructor; [|done].
  intros Hin. rewrite Forall_forall in Hall.
  now apply (opid_lt_irrefl k), Hall.
Qed.

Lemma keyed_round_ids (m : list (OpId * ConsensusRound)) :
  keyed_by_round_id m → round_id <$> m.*2 = keys m.
Proof.
  unfold keys. induction 1 as [|e m He Hm IH]; [done|].
  rewrite !fmap_cons. now rewrite IH, He.
Qed.

Lemma keyed_filter (P : OpId * ConsensusRound → Prop) `{∀ e, Decision (P e)}
    (m : list (OpId * ConsensusRound)) :
  keyed_by_round_id m → keyed_by_round_id (filter P m).
Proof.
  unfold keyed_by_round_id. rewrite !Forall_forall. intros Hm e He.
  apply list_elem_of_filter in He as [_ He]. auto.
Qed.

Lemma keyed_app_l (m1 m2 : list (OpId * ConsensusRound)) :
  keyed_by_round_id (m1 ++ m2) → keyed_by_round_id m1.
Proof. unfold keyed_by_round_id. rewrite Forall_app. tauto. Qed.

(** The running replica asked to commit past its watermark runs the loop
    over the pending entries of the interval. *)
Lemma MarkConsensusCommittedUpToUnlocked_running (id : OpId)
    (s : ReplicaState) :
  state_ s = kRunning →
  opid_lt (last_triggered_apply_ s) id →
  ordered (pending_txns_ s) →
  MarkConsensusCommittedUpToUnlocked id s
  = match commit_loop
            (filter (in_interval (last_triggered_apply_ s) id)
                    (pending_txns_ s)) s with
    | Fatal => Fatal
    | Returned st s' =>
        if ok st then Returned OK (with_last_triggered_apply id s')
        else Returned st s'
    end.
Proof.
  intros Hrun Hlt Hord. unfold MarkConsensusCommittedUpToUnlocked.
  rewrite Hrun. simpl.
  rewrite bool_decide_false by (unfold opid_lt in Hlt; lia).
  now rewrite iter_range_filter.
Qed.

Lemma batch_ordered second : ordered (batch second).
Proof. unfold ordered. repeat constructor. Qed.

Lemma batch_keyed second : keyed_by_round_id (batch second).
Proof. repeat constructor. Qed.

(** C1 (as the code has it).  [mark_consensus_committed_up_to(id)] answers
    SERVICE_UNAVAILABLE in SHUTTING_DOWN and SHUT_DOWN, ILLEGAL_STATE in the
    other states that are not RUNNING, and OK with no change of state when
    [id <= last_triggered_apply].  Otherwise, provided that every call of a
    commit continuation (or submission to the pool) for a pending operation
    with id in [(last_triggered_apply, id]] answers OK and none of these ids
    is in flight already, it answers OK; each of these operations, in
    ascending OpId order, has been added to [in_flight_commits] and has had
    its continuation invoked (or its callback runnable submitted), and
    [last_triggered_apply] is [id]. *)
Theorem mark_committed_up_to (id : OpId) (s : ReplicaState) :
  (state_ s = kShuttingDown ∨ state_ s = kShutDown →
   MarkConsensusCommittedUpToUnlocked id s
   = Returned (ServiceUnavailable
                 "Cannot trigger apply. Replica is shutting down.") s) ∧
  (state_ s = kInitialized ∨ state_ s = kChangingConfig →
   MarkConsensusCommittedUpToUnlocked id s
   = Returned (IllegalState
                 "Cannot trigger apply. Replica is not in kRunning state.") s) ∧
  (state_ s = kRunning → opid_le id (last_triggered_apply_ s) →
   MarkConsensusCommittedUpToUnlocked id s = Returned OK s) ∧
  (state_ s = kRunning → opid_lt (last_triggered_apply_ s) id →
   ordered (pending_txns_ s) → keyed_by_round_id (pending_txns_ s) →
   let eligible :=
     filter (in_interval (last_triggered_apply_ s) id) (pending_txns_ s) in
   (∀ e, e ∈ eligible → e.1 ∉ in_flight_commits_ s) →
   Forall (λ e, ok (apply_status (callback_pool_ s) e.2) = true) eligible →
   ∃ s',
     MarkConsensusCommittedUpToUnlocked id s = Returned OK s' ∧
     in_flight_commits_ s'
       = list_to_set (keys eligible) ∪ in_flight_commits_ s ∧
     effects s' = effects s ++ (apply_effect <$> eligible.*2) ∧
     StronglySorted opid_lt (keys eligible) ∧
     last_triggered_apply_ s' = id ∧
     commit_frame s' = commit_frame s).
Proof.
  split; [|split; [|split]].
  - unfold MarkConsensusCommittedUpToUnlocked. now intros [-> | ->].
  - unfold MarkConsensusCommittedUpToUnlocked. now intros [-> | ->].
  - intros Hrun Hle. unfold MarkConsensusCommittedUpToUnlocked.
    rewrite Hrun. simpl. rewrite bool_decide_true; [done|].
    destruct (decide (OpIdCompare (last_triggered_apply_ s) id < 0)%Z)
      as [Hlt|Hge]; [|lia].
    exfalso. apply (opid_lt_irrefl id). eauto using opid_le_lt_trans.
  - intros Hrun Hlt Hord Hkeyed eligible Hfresh Hok.
    assert (Hids : round_id <$> eligible.*2 = keys eligible)
      by now apply keyed_round_ids, keyed_filter.
    assert (Hsorted : ordered eligible) by now apply filter_ordered.
    rewrite MarkConsensusCommittedUpToUnlocked_running by done.
    fold eligible. rewrite commit_loop_all_ok.
    + simpl. eexists. split; [reflexivity|].
      simpl. rewrite Hids. repeat split. exact Hsorted.
    + rewrite Hids. now apply ordered_NoDup.
    + intros e He. pose proof (Hfresh e He) as Hn.
      assert (Hk : e.1 = round_id e.2); [|now rewrite <- Hk].
      assert (Hk : keyed_by_round_id eligible) by now apply keyed_filter.
      unfold keyed_by_round_id in Hk. rewrite Forall_forall in Hk. auto.
    + exact Hok.
Qed.

Lemma batch_eligible second :
  filter (in_interval (mkOpId 5 9) (mkOpId 5 12)) (batch second) = batch second.
Proof.
  unfold batch.
  now rewrite !filter_cons_True by (split; [reflexivity|discriminate]).
Qed.

Lemma mark_committed_up_to_witness :
  ∃ s',
    MarkConsensusCommittedUpToUnlocked (mkOpId 5 12) batch_replica
    = Returned OK s' ∧
    in_flight_commits_ s'
      = list_to_set [mkOpId 5 10; mkOpId 5 11; mkOpId 5 12] ∪ ∅ ∧
    effects s'
      = [ CallConsensusCommitted (mkOpId 5 10) 1;
          CallSubmit (mkOpId 5 11) (OperationCallbackRunnable 11);
          CallConsensusCommitted (mkOpId 5 12) 3 ] ∧
    last_triggered_apply_ s' = mkOpId 5 12.
Proof.
  assert (Hfresh :
    ∀ e, e ∈ filter (in_interval (last_triggered_apply_ batch_replica)
                                 (mkOpId 5 12))
                    (pending_txns_ batch_replica) →
         e.1 ∉ in_flight_commits_ batch_replica)
    by (intros e _; apply not_elem_of_empty).
  assert (Hok :
    Forall (λ e, ok (apply_status (callback_pool_ batch_replica) e.2) = true)
           (filter (in_interval (last_triggered_apply_ batch_replica)
                                (mkOpId 5 12))
                   (pending_txns_ batch_replica))).
  { change (pending_txns_ batch_replica) with (batch None).
    change (last_triggered_apply_ batch_replica) with (mkOpId 5 9).
    rewrite batch_eligible. repeat constructor. }
  destruct (proj2 (proj2 (proj2
              (mark_committed_up_to (mkOpId 5 12) batch_replica)))
              eq_refl eq_refl (batch_ordered None) (batch_keyed None)
              Hfresh Hok)
    as (s' & Hret & Hin & Heff & _ & Hlast & _).
  exists s'. split; [exact Hret|].
  change (pending_txns_ batch_replica) with (batch None) in Hin, Heff.
  change (last_triggered_apply_ batch_replica) with (mkOpId 5 9) in Hin, Heff.
  rewrite batch_eligible in Hin, Heff.
  split; [exact Hin|]. split; [exact Heff|exact Hlast].
Defined.

(** C1, as stated, fails when a continuation answers with an error: the call
    returns that error, the watermark stays at [(5,9)] instead of moving to
    [(5,12)], and the operation [(5,12)] of the interval is neither put in
    flight nor notified. *)
Lemma failed_continuation_stops_commit :
  state_ failing_batch_replica = kRunning ∧
  last_triggered_apply_ failing_batch_replica = mkOpId 5 9 ∧
  keys (pending_txns_ failing_batch_replica)
    = [mkOpId 5 10; mkOpId 5 11; mkOpId 5 12] ∧
  ∃ s',
    MarkConsensusCommittedUpToUnlocked (mkOpId 5 12) failing_batch_replica
    = Returned apply_refused s' ∧
    last_triggered_apply_ s' = mkOpId 5 9 ∧
    bool_decide (mkOpId 5 12 ∈ in_flight_commits_ s') = false ∧
    effects s'
      = [ CallConsensusCommitted (mkOpId 5 10) 1;
          CallConsensusCommitted (mkOpId 5 11) 2 ].
Proof.
  repeat split. eexists. split; [vm_compute; reflexivity|].
  vm_compute. repeat split.
Qed.

(** C10.  [mark_consensus_committed_up_to] is not atomic.  In state
    RUNNING with [id > last_triggered_apply], let the pending operations of
    the interval be [pre ++ e :: post] in OpId order, so that [e] is the
    k-th of them.  If the run reaches the call for [e] (the ids up to [e]
    pass [InsertOrDie], the calls for [pre] answer OK) and that call answers
    with an error, then the method returns that error, every operation up
    to and including [e] is in [in_flight_commits], which holds nothing else
    that it did not hold before, the calls made are those for [pre] and
    [e], and [last_triggered_apply] keeps its prior value. *)
Theorem mark_committed_not_atomic (id : OpId) (s : ReplicaState)
    (pre post : list (OpId * ConsensusRound)) (e : OpId * ConsensusRound) :
  state_ s = kRunning →
  opid_lt (last_triggered_apply_ s) id →
  ordered (pending_txns_ s) →
  keyed_by_round_id (pending_txns_ s) →
  filter (in_interval (last_triggered_apply_ s) id) (pending_txns_ s)
    = pre ++ e :: post →
  (∀ e', e' ∈ pre ++ [e] → e'.1 ∉ in_flight_commits_ s) →
  Forall (λ e', ok (apply_status (callback_pool_ s) e'.2) = true) pre →
  ok (apply_status (callback_pool_ s) e.2) = false →
  ∃ s',
    MarkConsensusCommittedUpToUnlocked id s
    = Returned (apply_status (callback_pool_ s) e.2) s' ∧
    (∀ e', e' ∈ pre ++ [e] → e'.1 ∈ in_flight_commits_ s') ∧
    in_flight_commits_ s'
      = list_to_set (keys (pre ++ [e])) ∪ in_flight_commits_ s ∧
    effects s' = effects s ++ (apply_effect <$> (pre ++ [e]).*2) ∧
    last_triggered_apply_ s' = last_triggered_apply_ s ∧
    last_triggered_apply_ s' ≠ id ∧
    commit_frame s' = commit_frame s.
Proof.
  intros Hrun Hlt Hord Hkeyed Hsplit Hfresh Hok Hfail.
  assert (Hk : keyed_by_round_id (pre ++ [e])).
  { apply (keyed_app_l _ post). rewrite <- app_assoc. simpl.
    rewrite <- Hsplit. now apply keyed_filter. }
  assert (Hids : round_id <$> (pre ++ [e]).*2 = keys (pre ++ [e]))
    by now apply keyed_round_ids.
  assert (Hsorted : ordered (pre ++ e :: post))
    by (rewrite <- Hsplit; now apply filter_ordered).
  rewrite MarkConsensusCommittedUpToUnlocked_running by done.
  rewrite Hsplit, commit_loop_fails_at; [| | |done|done].
  - rewrite Hfail. eexists. split; [reflexivity|].
    simpl. rewrite Hids. repeat split.
    + intros e' He'. rewrite elem_of_union, elem_of_list_to_set.
      left. unfold keys. now apply list_elem_of_fmap_2.
    + intros E. rewrite E in Hlt. now apply opid_lt_irrefl in Hlt.
  - rewrite Hids.
    apply ordered_NoDup in Hsorted. unfold keys in *.
    replace (pre ++ e :: post) with ((pre ++ [e]) ++ post) in Hsorted
      by now rewrite <- app_assoc.
    rewrite fmap_app in Hsorted. now apply NoDup_app in Hsorted as [? _].
  - intros e' He'. pose proof (Hfresh e' He') as Hn.
    unfold keyed_by_round_id in Hk. rewrite Forall_forall in Hk.
    now rewrite <- (Hk e' He').
Qed.

Lemma mark_committed_not_atomic_witness :
  ∃ s',
    MarkConsensusCommittedUpToUnlocked (mkOpId 5 12) failing_batch_replica
    = Returned apply_refused s' ∧
    in_flight_commits_ s' = list_to_set [mkOpId 5 10; mkOpId 5 11] ∪ ∅ ∧
    last_triggered_apply_ s' = mkOpId 5 9.
Proof.
  pose (second := Some (mkContinuation 2 apply_refused)).
  assert (Hfresh :
    ∀ e', e' ∈ [(mkOpId 5 10, round_at 10 (Some (mkContinuation 1 OK)))]
               ++ [(mkOpId 5 11, round_at 11 second)] →
          e'.1 ∉ in_flight_commits_ failing_batch_replica)
    by (intros e' _; apply not_elem_of_empty).
  assert (Hok :
    Forall (λ e', ok (apply_status (callback_pool_ failing_batch_replica)
                                   e'.2) = true)
           [(mkOpId 5 10, round_at 10 (Some (mkContinuation 1 OK)))])
    by (repeat constructor).
  destruct (mark_committed_not_atomic (mkOpId 5 12) failing_batch_replica
              [(mkOpId 5 10, round_at 10 (Some (mkContinuation 1 OK)))]
              [(mkOpId 5 12, round_at 12 (Some (mkContinuation 3 OK)))]
              (mkOpId 5 11, round_at 11 second)
              eq_refl eq_refl (batch_ordered second) (batch_keyed second)
              (batch_eligible second) Hfresh Hok eq_refl)
    as (s' & Hret & _ & Hin & _ & Hlast & _).
  exists s'. split; [exact Hret|]. split; [exact Hin|exact Hlast].
Defined.

End CommitClaims.

(** ** Claims about applies that complete, ids and watermarks *)

Section WatermarkClaims.
Import Consensus.

Lemma filter_all {A : Type} (P : A → Prop) `{∀ x, Decision (P x)}
    (l : list A) :
  Forall P l → filter P l = l.
Proof.
  induction 1 as [|x l Hx Hl IH]; [done|].
  now rewrite filter_cons_True, IH.
Qed.

(** On a well-formed map, erasing a key leaves the other entries. *)
Lemma erase_filter {V : Type} (k : OpId) (m : list (OpId * V)) :
  ordered m →
  (EraseKeyReturnValuePtr k m).2 = filter (λ e, e.1 ≠ k) m.
Proof.
  induction m as [|e m IH]; [done|].
  intros Hord. apply ordered_cons_inv in Hord as [Hord Hall].
  simpl. case_bool_decide as Heq; simpl.
  - apply OpIdCompare_eq in Heq. subst k.
    rewrite filter_cons_False by (intros E; now apply E).
    symmetry. apply filter_all.
    unfold keys in Hall. rewrite Forall_fmap in Hall.
    eapply Forall_impl; [exact Hall|]. simpl. intros x Hx E.
    rewrite E in Hx. now apply opid_lt_irrefl in Hx.
  - rewrite filter_cons_True.
    + now rewrite IH.
    + intros E. apply Heq. now apply OpIdCompare_eq.
Qed.

Lemma MarkFinished_only_this_op (op_id : OpId) (ws : OpIdWaiterSet) :
  MarkFinished op_id MARK_ONLY_THIS_OP ws
  = (filter (λ w, w.1 = op_id) ws, filter (λ w, w.1 ≠ op_id) ws).
Proof.
  unfold MarkFinished. f_equal; apply list_filter_iff; intros w; simpl.
  - rewrite bool_decide_eq_true. apply OpIdCompare_eq.
  - rewrite bool_decide_eq_false. now rewrite OpIdCompare_eq.
Qed.

(** C6 (as the code has it).  A call [update_committed_op_id(op_id)] with
    [op_id] in [in_flight_commits] and in [pending_txns] passes both checks,
    removes [op_id] from both, fires and removes the commit watchers
    registered at exactly [op_id] and leaves the other watchers registered;
    it does not touch the drain latch in any lifecycle state.  The latch is
    decremented by the separate method
    [CountDownOutstandingCommitsIfShuttingDown], by one (saturating at
    zero) in SHUTTING_DOWN and not at all in the other states. *)
Theorem update_committed_op_id (op_id : OpId) (s : ReplicaState) :
  ordered (pending_txns_ s) →
  op_id ∈ in_flight_commits_ s →
  op_id ∈ keys (pending_txns_ s) →
  ∃ s',
    UpdateCommittedOpIdUnlocked op_id s = Some s' ∧
    in_flight_commits_ s' = in_flight_commits_ s ∖ {[ op_id ]} ∧
    pending_txns_ s' = filter (λ e, e.1 ≠ op_id) (pending_txns_ s) ∧
    (op_id ∉ in_flight_commits_ s') ∧ (op_id ∉ keys (pending_txns_ s')) ∧
    effects s'
      = effects s ++
        ((λ w, FireCommitWatcher w.1 w.2) <$>
           filter (λ w, w.1 = op_id) (commit_watchers_ s)) ∧
    commit_watchers_ s' = filter (λ w, w.1 ≠ op_id) (commit_watchers_ s) ∧
    replicate_watchers_ s' = replicate_watchers_ s ∧
    state_ s' = state_ s ∧
    in_flight_applies_latch_ s' = in_flight_applies_latch_ s ∧
    in_flight_applies_latch_ (CountDownOutstandingCommitsIfShuttingDown s')
      = (if decide (state_ s = kShuttingDown)
         then N.pred (in_flight_applies_latch_ s)
         else in_flight_applies_latch_ s).
Proof.
  intros Hord Hin Hpending.
  unfold UpdateCommittedOpIdUnlocked. rewrite decide_True by done.
  cbn -[MarkFinished].
  destruct (erase_present op_id (pending_txns_ s) Hpending) as [v Hv].
  pose proof (erase_filter op_id (pending_txns_ s) Hord) as Hrest.
  destruct (EraseKeyReturnValuePtr op_id (pending_txns_ s)) as [o m].
  simpl in Hv, Hrest. subst o m. cbn -[MarkFinished].
  rewrite MarkFinished_only_this_op.
  eexists. split; [reflexivity|]. simpl.
  repeat split.
  - rewrite elem_of_difference, elem_of_singleton. now intros [_ Hne].
  - unfold keys. rewrite list_elem_of_fmap.
    intros (e & -> & He). apply list_elem_of_filter in He as [He _].
    now apply He.
  - unfold CountDownOutstandingCommitsIfShuttingDown. simpl.
    now destruct (decide (state_ s = kShuttingDown)).
Qed.

Lemma update_committed_op_id_witness :
  ∃ s',
    UpdateCommittedOpIdUnlocked (mkOpId 5 10) draining_replica = Some s' ∧
    in_flight_commits_ s' = in_flight_commits_ draining_replica ∖ {[ mkOpId 5 10 ]} ∧
    in_flight_applies_latch_ s' = in_flight_applies_latch_ draining_replica.
Proof.
  assert (Hin : mkOpId 5 10 ∈ in_flight_commits_ draining_replica)
    by (vm_compute; reflexivity).
  assert (Hp : mkOpId 5 10 ∈ keys (pending_txns_ draining_replica))
    by (simpl; left).
  destruct (update_committed_op_id (mkOpId 5 10) draining_replica
              (batch_ordered None) Hin Hp)
    as (s' & Hret & Hfl & _ & _ & _ & _ & _ & _ & _ & Hlatch & _).
  exists s'. split; [exact Hret|]. split; [exact Hfl|exact Hlatch].
Defined.

(** C6, as stated, fails: in SHUTTING_DOWN with the latch at 1,
    [update_committed_op_id] leaves the latch at 1. *)
Lemma update_committed_leaves_latch :
  state_ draining_replica = kShuttingDown ∧
  in_flight_applies_latch_ draining_replica = 1%N ∧
  bool_decide (mkOpId 5 10 ∈ in_flight_commits_ draining_replica) = true ∧
  keys (pending_txns_ draining_replica)
    = [mkOpId 5 10; mkOpId 5 11; mkOpId 5 12] ∧
  ∃ s',
    UpdateCommittedOpIdUnlocked (mkOpId 5 10) draining_replica = Some s' ∧
    state_ s' = kShuttingDown ∧
    in_flight_applies_latch_ s' = 1%N.
Proof.
  repeat split. eexists. split; [vm_compute; reflexivity|].
  vm_compute. repeat split.
Qed.

(** C8 (as the code has it).  [update_last_replicated_op_id(op_id)] accepts
    every [op_id] and stores it as the replicated watermark whatever the
    watermark was; hence the watermark after the call is at least the one
    before it exactly when [op_id] is at least the watermark before the
    call.  The method also fires the replicate watchers registered at ids up
    to [op_id] and leaves the others registered. *)
Theorem update_last_replicated_overwrites (op_id : OpId) (s : ReplicaState) :
  let s' := UpdateLastReplicatedOpIdUnlocked op_id s in
  GetLastReplicatedOpIdUnlocked s' = op_id ∧
  (opid_le (GetLastReplicatedOpIdUnlocked s) (GetLastReplicatedOpIdUnlocked s')
   ↔ opid_le (GetLastReplicatedOpIdUnlocked s) op_id) ∧
  replicate_watchers_ s'
    = filter (λ w, ¬ opid_le w.1 op_id) (replicate_watchers_ s) ∧
  effects s'
    = effects s ++
      ((λ w, FireReplicateWatcher w.1 w.2) <$>
         filter (λ w, opid_le w.1 op_id) (replicate_watchers_ s)).
Proof.
  unfold UpdateLastReplicatedOpIdUnlocked, MarkFinished. simpl.
  split; [done|]. split; [done|]. split.
  - apply list_filter_iff. intros w. simpl.
    now rewrite bool_decide_eq_false.
  - do 2 f_equal. apply list_filter_iff. intros w. simpl.
    now rewrite bool_decide_eq_true.
Qed.

(** C8, as stated, fails: the method accepts an id below the watermark and
    moves the watermark back to it. *)
Lemma replicated_watermark_moves_back :
  GetLastReplicatedOpIdUnlocked example_replica = mkOpId 5 9 ∧
  GetLastReplicatedOpIdUnlocked
    (UpdateLastReplicatedOpIdUnlocked (mkOpId 5 3) example_replica)
  = mkOpId 5 3 ∧
  opid_lt (mkOpId 5 3) (mkOpId 5 9).
Proof. repeat split. Qed.

End WatermarkClaims.

(** ** Claims about participant ops *)

Section ParticipantClaims.
Import Tablet.

(** C9.  A FINALIZE_COMMIT op that reaches [Apply] holding its transaction
    returns OK with a PARTICIPANT_OP commit message; the [FinalizeCommit]
    mutator of the transaction has been invoked, once, with the id of the
    op and the finalized commit timestamp of the request; the commit MVCC
    op of the transaction has been finished when the transaction held one,
    and when it held none the slot is still empty and nothing else of the
    MVCC state of the op has changed.  [Apply] has called
    [Tablet::StartApplying] once, as it does for an op of any type. *)
Theorem finalize_commit_apply (s : ParticipantOpState) (txn : Txn) :
  ParticipantOpPB.type (request s) = FINALIZE_COMMIT →
  txn_ s = Some txn →
  ∃ s' txn',
    Apply s = Returned OK (Some (CommitMsg.mk PARTICIPANT_OP), s') ∧
    txn_ s' = Some txn' ∧
    mutator_calls txn'
      = mutator_calls txn ++
        [CallFinalizeCommit
           (op_id s) (ParticipantOpPB.finalized_commit_timestamp (request s))] ∧
    commit_op txn' = FinishApplying <$> commit_op txn ∧
    (∀ c, commit_op txn = Some c →
          commit_op txn' = Some (mkScopedOp (timestamp c) APPLIED)) ∧
    (commit_op txn = None → commit_op txn' = None) ∧
    begin_commit_mvcc_op_ s' = begin_commit_mvcc_op_ s ∧
    tablet_start_applying s' = S (tablet_start_applying s) ∧
    request s' = request s ∧ op_id s' = op_id s.
Proof.
  intros Htype Htxn.
  unfold Apply, PerformOp. simpl. rewrite Htype, Htxn. simpl.
  destruct (commit_op txn) as [c|] eqn:Hc; simpl; rewrite Htype; simpl.
  - eexists _, _. split; [reflexivity|]. simpl.
    repeat split; try done. intros c' Hc'. now inversion Hc'.
  - eexists _, _. split; [reflexivity|]. simpl.
    repeat split; try done.
Qed.

Lemma finalize_commit_apply_witness :
  (∃ s' txn',
     Apply (finalize_op committing_txn)
       = Returned OK (Some (CommitMsg.mk PARTICIPANT_OP), s') ∧
     txn_ s' = Some txn' ∧
     commit_op txn' = Some (mkScopedOp 100 APPLIED)) ∧
  (∃ s' txn',
     Apply (finalize_op replayed_txn)
       = Returned OK (Some (CommitMsg.mk PARTICIPANT_OP), s') ∧
     txn_ s' = Some txn' ∧
     commit_op txn' = None).
Proof.
  split.
  - destruct (finalize_commit_apply (finalize_op committing_txn)
                committing_txn eq_refl eq_refl)
      as (s' & txn' & Hret & Htxn & _ & _ & Hsome & _).
    exists s', txn'. split; [exact Hret|]. split; [exact Htxn|].
    exact (Hsome _ eq_refl).
  - destruct (finalize_commit_apply (finalize_op replayed_txn)
                replayed_txn eq_refl eq_refl)
      as (s' & txn' & Hret & Htxn & _ & _ & _ & Hnone & _).
    exists s', txn'. split; [exact Hret|]. split; [exact Htxn|].
    exact (Hnone eq_refl).
Defined.

End ParticipantClaims.

(** ** Further properties of the commit watermark *)

Section CommitFurther.
Import Consensus.

(** Whatever the loop returns, it has only added ids to [in_flight_commits]
    and appended calls. *)
Lemma commit_loop_frame (range : list (OpId * ConsensusRound)) :
  ∀ (s s' : ReplicaState) (st : Status),
  commit_loop range s = Returned st s' →
  last_triggered_apply_ s' = last_triggered_apply_ s ∧
  commit_frame s' = commit_frame s ∧
  in_flight_commits_ s ⊆ in_flight_commits_ s' ∧
  (∀ x, x ∈ in_flight_commits_ s' →
        x ∈ in_flight_commits_ s ∨ x ∈ round_id <$> range.*2).
Proof.
  induction range as [|e range IH]; intros s s' st Hret.
  - simpl in Hret. inversion Hret; subst. repeat split; [done|auto].
  - simpl in Hret.
    destruct (decide (round_id e.2 ∈ in_flight_commits_ s)); [done|].
    rewrite trigger_apply_eq in Hret. simpl in Hret.
    set (s1 := emit [apply_effect e.2]
                 (with_in_flight_commits
                    ({[round_id e.2]} ∪ in_flight_commits_ s) s)) in *.
    assert (Hs1 : in_flight_commits_ s1
                  = {[round_id e.2]} ∪ in_flight_commits_ s) by reflexivity.
    destruct (ok (apply_status (callback_pool_ s) e.2)).
    + apply IH in Hret as (Hlast & Hframe & Hsub & Hnew).
      rewrite Hlast, Hframe. repeat split.
      * intros x Hx. apply Hsub. rewrite Hs1. apply elem_of_union. now right.
      * intros x Hx. apply Hnew in Hx as [Hx|Hx].
        -- rewrite Hs1 in Hx. apply elem_of_union in Hx as [Hx|Hx]; [|now left].
           apply elem_of_singleton in Hx. subst x. right. simpl. left.
        -- right. simpl. now right.
    + inversion Hret; subst s'. repeat split.
      * intros x Hx. rewrite Hs1. apply elem_of_union. now right.
      * intros x Hx. rewrite Hs1 in Hx.
        apply elem_of_union in Hx as [Hx|Hx]; [|now left].
        apply elem_of_singleton in Hx. subst x. right. simpl. left.
Qed.

(** X1.  The commit watermark never moves back and nothing leaves
    [in_flight_commits]: whenever [mark_consensus_committed_up_to] returns,
    with whatever status, [last_triggered_apply] is at least what it was,
    every id that was in flight still is, and the fields outside the commit
    bookkeeping are untouched. *)
Theorem commit_watermark_never_decreases (id : OpId) (s s' : ReplicaState)
    (st : Status) :
  MarkConsensusCommittedUpToUnlocked id s = Returned st s' →
  opid_le (last_triggered_apply_ s) (last_triggered_apply_ s') ∧
  in_flight_commits_ s ⊆ in_flight_commits_ s' ∧
  commit_frame s' = commit_frame s.
Proof.
  unfold MarkConsensusCommittedUpToUnlocked. intros Hret.
  assert (Hrefl : opid_le (last_triggered_apply_ s) (last_triggered_apply_ s)).
  { apply opid_le_lt_or_eq. now right. }
  destruct (bool_decide (state_ s = kShuttingDown) ||
            bool_decide (state_ s = kShutDown));
    [inversion Hret; subst; done|].
  destruct (bool_decide (state_ s ≠ kRunning));
    [inversion Hret; subst; done|].
  case_bool_decide as Hcmp; [inversion Hret; subst; done|].
  destruct (commit_loop _ s) as [|st1 s1] eqn:Hloop; [done|].
  apply commit_loop_frame in Hloop as (Hlast & Hframe & Hsub & _).
  destruct (ok st1); inversion Hret; subst; simpl.
  - split; [|done]. unfold opid_le. lia.
  - now rewrite Hlast.
Qed.

Lemma commit_watermark_never_decreases_witness :
  opid_le (mkOpId 5 9) (mkOpId 5 9) ∧
  in_flight_commits_ failing_batch_replica
    ⊆ in_flight_commits_ (applied (take 2 (batch (Some (mkContinuation 2 apply_refused))))
                                  failing_batch_replica).
Proof.
  assert (Hret :
    MarkConsensusCommittedUpToUnlocked (mkOpId 5 12) failing_batch_replica
    = Returned apply_refused
        (applied (take 2 (batch (Some (mkContinuation 2 apply_refused))))
                 failing_batch_replica))
    by (vm_compute; reflexivity).
  destruct (commit_watermark_never_decreases _ _ _ _ Hret) as (Hle & Hsub & _).
  split; [exact Hle|exact Hsub].
Defined.

(** The state a failed call leaves, in closed form. *)
Lemma MarkConsensusCommittedUpToUnlocked_fails_at (id : OpId)
    (s : ReplicaState) (pre post : list (OpId * ConsensusRound))
    (e : OpId * ConsensusRound) :
  state_ s = kRunning →
  opid_lt (last_triggered_apply_ s) id →
  ordered (pending_txns_ s) →
  keyed_by_round_id (pending_txns_ s) →
  filter (in_interval (last_triggered_apply_ s) id) (pending_txns_ s)
    = pre ++ e :: post →
  (∀ e', e' ∈ pre ++ [e] → e'.1 ∉ in_flight_commits_ s) →
  Forall (λ e', ok (apply_status (callback_pool_ s) e'.2) = true) pre →
  ok (apply_status (callback_pool_ s) e.2) = false →
  MarkConsensusCommittedUpToUnlocked id s
  = Returned (apply_status (callback_pool_ s) e.2) (applied (pre ++ [e]) s).
Proof.
  intros Hrun Hlt Hord Hkeyed Hsplit Hfresh Hok Hfail.
  assert (Hk : keyed_by_round_id (pre ++ [e])).
  { apply (keyed_app_l _ post). rewrite <- app_assoc. simpl.
    rewrite <- Hsplit. now apply keyed_filter. }
  assert (Hsorted : ordered (pre ++ e :: post))
    by (rewrite <- Hsplit; now apply filter_ordered).
  rewrite MarkConsensusCommittedUpToUnlocked_running by done.
  rewrite Hsplit, commit_loop_fails_at; [now rewrite Hfail| | |done|done].
  - rewrite (keyed_round_ids _ Hk).
    apply ordered_NoDup in Hsorted. unfold keys in *.
    replace (pre ++ e :: post) with ((pre ++ [e]) ++ post) in Hsorted
      by now rewrite <- app_assoc.
    rewrite fmap_app in Hsorted. now apply NoDup_app in Hsorted as [? _].
  - intros e' He'. pose proof (Hfresh e' He') as Hn.
    unfold keyed_by_round_id in Hk. rewrite Forall_forall in Hk.
    now rewrite <- (Hk e' He').
Qed.

(** X2.  A failed call cannot be retried.  When
    [mark_consensus_committed_up_to(id)] has returned the error of the k-th
    operation of the interval, the operations up to the k-th are in
    [in_flight_commits] while the watermark has not moved; the same call
    made again starts at the same operation and dies on the
    [InsertOrDie] of its id. *)
Theorem retry_after_failed_commit_dies (id : OpId) (s : ReplicaState)
    (pre post : list (OpId * ConsensusRound)) (e : OpId * ConsensusRound) :
  state_ s = kRunning →
  opid_lt (last_triggered_apply_ s) id →
  ordered (pending_txns_ s) →
  keyed_by_round_id (pending_txns_ s) →
  filter (in_interval (last_triggered_apply_ s) id) (pending_txns_ s)
    = pre ++ e :: post →
  (∀ e', e' ∈ pre ++ [e] → e'.1 ∉ in_flight_commits_ s) →
  Forall (λ e', ok (apply_status (callback_pool_ s) e'.2) = true) pre →
  ok (apply_status (callback_pool_ s) e.2) = false →
  ∃ st s',
    MarkConsensusCommittedUpToUnlocked id s = Returned st s' ∧
    ok st = false ∧
    MarkConsensusCommittedUpToUnlocked id s' = Fatal.
Proof.
  intros Hrun Hlt Hord Hkeyed Hsplit Hfresh Hok Hfail.
  exists (apply_status (callback_pool_ s) e.2), (applied (pre ++ [e]) s).
  split; [now apply (MarkConsensusCommittedUpToUnlocked_fails_at id s pre post)|].
  split; [done|].
  set (s' := applied (pre ++ [e]) s).
  rewrite MarkConsensusCommittedUpToUnlocked_running; [|done|done|done].
  change (last_triggered_apply_ s') with (last_triggered_apply_ s).
  change (pending_txns_ s') with (pending_txns_ s).
  rewrite Hsplit.
  assert (Hfirst : ∃ x rest, pre ++ e :: post = x :: rest ∧ x ∈ pre ++ [e]).
  { destruct pre as [|p pre]; simpl.
    - exists e, post. split; [done|]. left.
    - exists p, (pre ++ e :: post). split; [done|]. left. }
  destruct Hfirst as (x & rest & -> & Hx).
  simpl. rewrite decide_True; [done|].
  unfold s'. apply applied_in_flight. left.
  now apply list_elem_of_fmap_2, list_elem_of_fmap_2.
Qed.

Lemma retry_after_failed_commit_dies_witness :
  ∃ st s',
    MarkConsensusCommittedUpToUnlocked (mkOpId 5 12) failing_batch_replica
    = Returned st s' ∧
    ok st = false ∧
    MarkConsensusCommittedUpToUnlocked (mkOpId 5 12) s' = Fatal.
Proof.
  pose (second := Some (mkContinuation 2 apply_refused)).
  assert (Hfresh :
    ∀ e', e' ∈ [(mkOpId 5 10, round_at 10 (Some (mkContinuation 1 OK)))]
               ++ [(mkOpId 5 11, round_at 11 second)] →
          e'.1 ∉ in_flight_commits_ failing_batch_replica)
    by (intros e' _; apply not_elem_of_empty).
  assert (Hok :
    Forall (λ e', ok (apply_status (callback_pool_ failing_batch_replica)
                                   e'.2) = true)
           [(mkOpId 5 10, round_at 10 (Some (mkContinuation 1 OK)))])
    by (repeat constructor).
  exact (retry_after_failed_commit_dies (mkOpId 5 12) failing_batch_replica
           [(mkOpId 5 10, round_at 10 (Some (mkContinuation 1 OK)))]
           [(mkOpId 5 12, round_at 12 (Some (mkContinuation 3 OK)))]
           (mkOpId 5 11, round_at 11 second)
           eq_refl eq_refl (batch_ordered second) (batch_keyed second)
           (batch_eligible second) Hfresh Hok eq_refl).
Defined.

End CommitFurther.

(** ** Admission, in-flight bookkeeping and the drain latch *)

Section PendingFurther.
Import Consensus ReplicaLifecycle.

Lemma insert_keys {V : Type} (k : OpId) (v : V) (m m' : list (OpId * V)) :
  map_InsertOrDie k v m = Some m' →
  ∀ x, x ∈ keys m' ↔ x = k ∨ x ∈ keys m.
Proof.
  revert m'. induction m as [|e m IH]; simpl; intros m' Hins x.
  - inversion Hins; subst. unfold keys. simpl.
    rewrite elem_of_cons. tauto.
  - case_bool_decide as Hlt.
    + inversion Hins; subst. unfold keys. simpl. now rewrite !elem_of_cons.
    + case_bool_decide as Heq; [done|].
      destruct (map_InsertOrDie k v m) as [m''|]; [|done].
      inversion Hins; subst. unfold keys in *. simpl.
      rewrite !elem_of_cons, (IH m'' eq_refl x). tauto.
Qed.

Lemma insert_ordered {V : Type} (k : OpId) (v : V) (m m' : list (OpId * V)) :
  ordered m → map_InsertOrDie k v m = Some m' → ordered m'.
Proof.
  revert m'. induction m as [|e m IH]; simpl; intros m' Hord Hins.
  - inversion Hins; subst. unfold ordered, keys. simpl. repeat constructor.
  - pose proof Hord as Hord'. apply ordered_cons_inv in Hord' as [Hm Hall].
    case_bool_decide as Hlt.
    + inversion Hins; subst. unfold ordered, keys. simpl.
      constructor; [exact Hord|]. constructor; [exact Hlt|].
      now apply (Forall_keys_above_trans k e.1).
    + case_bool_decide as Heq; [done|].
      destruct (map_InsertOrDie k v m) as [m''|] eqn:Hrec; [|done].
      inversion Hins; subst. unfold ordered, keys. simpl.
      constructor; [now apply IH|].
      change (Forall (opid_lt e.1) (keys m'')).
      rewrite Forall_forall. intros x Hx.
      apply (insert_keys _ _ _ _ Hrec) in Hx as [->|Hx].
      * apply OpIdCompare_flip. lia.
      * rewrite Forall_forall in Hall. auto.
Qed.

Lemma insert_dies_iff {V : Type} (k : OpId) (v : V) (m : list (OpId * V)) :
  ordered m → map_InsertOrDie k v m = None ↔ k ∈ keys m.
Proof.
  induction m as [|e m IH]; simpl; intros Hord.
  - split; [done|]. unfold keys. simpl. intros H. inversion H.
  - apply ordered_cons_inv in Hord as [Hm Hall].
    unfold keys. simpl. rewrite elem_of_cons.
    case_bool_decide as Hlt.
    + split; [done|]. intros [->|Hin].
      * now apply opid_lt_irrefl in Hlt.
      * rewrite Forall_forall in Hall. apply Hall in Hin.
        exfalso. apply (opid_lt_irrefl k). eauto using opid_lt_trans.
    + case_bool_decide as Heq.
      * apply OpIdCompare_eq in Heq. split; [now left|done].
      * destruct (map_InsertOrDie k v m) as [m''|] eqn:Hrec; simpl.
        -- split; [done|]. intros [->|Hin].
           ++ now rewrite OpIdCompare_refl in Heq.
           ++ apply (IH Hm) in Hin. done.
        -- split; [|done]. intros _. right. now apply (IH Hm).
Qed.

Lemma find_insert {V : Type} (k : OpId) (v : V) (m m' : list (OpId * V)) :
  map_InsertOrDie k v m = Some m' → FindOrNull m' k = Some v.
Proof.
  unfold FindOrNull.
  revert m'. induction m as [|e m IH]; simpl; intros m' Hins.
  - inversion Hins; subst. simpl.
    now rewrite decide_True by apply OpIdCompare_refl.
  - case_bool_decide as Hlt.
    + inversion Hins; subst. simpl.
      now rewrite decide_True by apply OpIdCompare_refl.
    + case_bool_decide as Heq; [done|].
      destruct (map_InsertOrDie k v m) as [m''|] eqn:Hrec; [|done].
      inversion Hins; subst. simpl.
      rewrite decide_False.
      * specialize (IH m'' eq_refl).
        destruct (list_find _ m'') as [[i r]|]; simpl in *; [|done].
        now inversion IH.
      * intros E. apply OpIdCompare_eq in E. subst.
        now rewrite OpIdCompare_refl in Heq.
Qed.

Lemma find_absent {V : Type} (k : OpId) (m : list (OpId * V)) :
  k ∉ keys m → FindOrNull m k = None.
Proof.
  unfold FindOrNull, keys. induction m as [|e m IH]; simpl; [done|].
  rewrite not_elem_of_cons. intros [Hne Hm].
  rewrite decide_False.
  - destruct (list_find _ m) as [[i r]|] eqn:Hf; simpl; [|done].
    now specialize (IH Hm).
  - intros E. apply OpIdCompare_eq in E. now subst.
Qed.

(** X3.  Admission of a round.  Outside RUNNING a round that is not a
    CHANGE_CONFIG_OP is refused with IllegalState and nothing changes.
    Otherwise the round is filed under the id of its replicate message: if
    that id is already pending the process dies, and if it is not, the call
    returns OK, the pending map has exactly that one key more, is still in
    key order with every round under its own id, and looking the id up
    finds the round. *)
Theorem add_pending_admission (round : ConsensusRound) (s : ReplicaState) :
  ordered (pending_txns_ s) →
  keyed_by_round_id (pending_txns_ s) →
  (state_ s ≠ kRunning →
   ReplicateMsg.op_type (replicate_msg round) ≠ CHANGE_CONFIG_OP →
   ∃ msg, AddPendingOperation round s = Returned (IllegalState msg) s) ∧
  (state_ s = kRunning ∨
   ReplicateMsg.op_type (replicate_msg round) = CHANGE_CONFIG_OP →
   (round_id round ∈ keys (pending_txns_ s) →
    AddPendingOperation round s = Fatal) ∧
   (round_id round ∉ keys (pending_txns_ s) →
    ∃ s',
      AddPendingOperation round s = Returned OK s' ∧
      s' = with_pending_txns (pending_txns_ s') s ∧
      ordered (pending_txns_ s') ∧
      keyed_by_round_id (pending_txns_ s') ∧
      (∀ x, x ∈ keys (pending_txns_ s')
            ↔ x = round_id round ∨ x ∈ keys (pending_txns_ s)) ∧
      FindOrNull (pending_txns_ s') (round_id round) = Some round)).
Proof.
  intros Hord Hkeyed. unfold AddPendingOperation, round_id. split.
  - intros Hstate Hop. rewrite !bool_decide_true by done. simpl. eauto.
  - intros Hadmit.
    assert (Hgate :
      bool_decide (state_ s ≠ kRunning) &&
      bool_decide (ReplicateMsg.op_type (replicate_msg round)
                   ≠ CHANGE_CONFIG_OP) = false).
    { destruct Hadmit as [Hrun|Hop].
      - now rewrite (bool_decide_false (state_ s ≠ kRunning)) by tauto.
      - rewrite (bool_decide_false (_ ≠ CHANGE_CONFIG_OP)) by tauto.
        apply andb_false_r. }
    rewrite Hgate. split.
    + intros Hin. apply (insert_dies_iff _ round) in Hin; [|done].
      now rewrite Hin.
    + intros Hnotin.
      destruct (map_InsertOrDie _ round (pending_txns_ s)) as [m|] eqn:Hins.
      * eexists. split; [reflexivity|]. simpl.
        split; [done|]. split; [now apply (insert_ordered _ _ _ _ Hord Hins)|].
        split; [|split].
        -- unfold keyed_by_round_id in *. rewrite Forall_forall in Hkeyed |- *.
           intros e He.
           assert (Hcases : e = (ReplicateMsg.id (replicate_msg round), round)
                            ∨ e ∈ pending_txns_ s).
           { clear -Hins He. revert m Hins He.
             induction (pending_txns_ s) as [|x l IH]; simpl; intros m Hins He.
             - inversion Hins; subst. apply elem_of_cons in He as [->|He];
                 [now left|inversion He].
             - case_bool_decide.
               + inversion Hins; subst.
                 apply elem_of_cons in He as [->|He]; [now left|now right].
               + case_bool_decide; [done|].
                 destruct (map_InsertOrDie _ round l) as [m''|]; [|done].
                 inversion Hins; subst.
                 apply elem_of_cons in He as [->|He]; [right; left|].
                 destruct (IH m'' eq_refl He) as [?|?]; [now left|].
                 right. now right. }
           destruct Hcases as [->|Hin]; [done|auto].
        -- now apply (insert_keys _ round (pending_txns_ s)).
        -- now apply (find_insert _ _ (pending_txns_ s)).
      * exfalso. apply Hnotin. now apply (insert_dies_iff _ round).
Qed.

Lemma add_pending_admission_witness :
  AddPendingOperation (round_at 11 None) batch_replica = Fatal ∧
  ∃ s',
    AddPendingOperation (round_at 13 None) batch_replica = Returned OK s' ∧
    FindOrNull (pending_txns_ s') (mkOpId 5 13) = Some (round_at 13 None).
Proof.
  destruct (add_pending_admission (round_at 11 None) batch_replica
              (batch_ordered None) (batch_keyed None)) as [_ Hdup].
  destruct (add_pending_admission (round_at 13 None) batch_replica
              (batch_ordered None) (batch_keyed None)) as [_ Hnew].
  split.
  - apply (Hdup (or_introl eq_refl)). simpl. right. left.
  - destruct (proj2 (Hnew (or_introl eq_refl)))
      as (s' & Hret & _ & _ & _ & _ & Hfind).
    + unfold keys. simpl. rewrite !not_elem_of_cons.
      repeat split; try discriminate. apply not_elem_of_nil.
    + exists s'. split; [exact Hret|exact Hfind].
Defined.

Lemma commit_frame_pending (s s' : ReplicaState) :
  commit_frame s' = commit_frame s → pending_txns_ s' = pending_txns_ s.
Proof. unfold commit_frame. now intros [= ]. Qed.

(** X4.  Every apply in flight is a pending operation, and stays one.  On
    a replica whose pending map is well formed, if every id of
    [in_flight_commits] is a key of [pending_txns], the same holds after
    [mark_consensus_committed_up_to] (whatever it returns),
    after [update_committed_op_id] and after [add_pending]. *)
Theorem in_flight_stay_pending (s : ReplicaState) :
  ordered (pending_txns_ s) →
  keyed_by_round_id (pending_txns_ s) →
  in_flight_are_pending s →
  (∀ id st s',
     MarkConsensusCommittedUpToUnlocked id s = Returned st s' →
     in_flight_are_pending s') ∧
  (∀ op_id s',
     UpdateCommittedOpIdUnlocked op_id s = Some s' →
     in_flight_are_pending s') ∧
  (∀ round st s',
     AddPendingOperation round s = Returned st s' →
     in_flight_are_pending s').
Proof.
  intros Hord Hkeyed Hinv. split; [|split].
  - intros id st s' Hret. unfold MarkConsensusCommittedUpToUnlocked in Hret.
    destruct (bool_decide (state_ s = kShuttingDown) ||
              bool_decide (state_ s = kShutDown));
      [inversion Hret; subst; done|].
    case_bool_decide as Hrun; [inversion Hret; subst; done|].
    case_bool_decide as Hcmp; [inversion Hret; subst; done|].
    rewrite iter_range_filter in Hret;
      [|done|unfold opid_lt; lia].
    destruct (commit_loop _ s) as [|st1 s1] eqn:Hloop; [done|].
    apply commit_loop_frame in Hloop as (_ & Hframe & _ & Hnew).
    apply commit_frame_pending in Hframe.
    assert (Hs1 : in_flight_are_pending s1).
    { intros x Hx. rewrite Hframe. apply Hnew in Hx as [Hx|Hx]; [auto|].
      rewrite keyed_round_ids in Hx by now apply keyed_filter.
      unfold keys in *. apply list_elem_of_fmap in Hx as (e0 & -> & He).
      apply list_elem_of_filter in He as [_ He].
      now apply list_elem_of_fmap_2. }
    destruct (ok st1); inversion Hret; subst; exact Hs1.
  - intros op_id s' Hret. unfold UpdateCommittedOpIdUnlocked in Hret.
    destruct (decide (op_id ∈ in_flight_commits_ s)); [|done].
    cbn -[MarkFinished] in Hret.
    pose proof (erase_filter op_id (pending_txns_ s) Hord) as Hrest.
    destruct (EraseKeyReturnValuePtr op_id (pending_txns_ s)) as [[v|] m];
      [|done].
    cbn -[MarkFinished] in Hret. inversion Hret; subst s'; clear Hret.
    simpl in Hrest. subst m. intros x Hx. simpl in *.
    apply elem_of_difference in Hx as [Hx Hne].
    rewrite elem_of_singleton in Hne.
    apply Hinv in Hx. unfold keys in *.
    apply list_elem_of_fmap in Hx as (e0 & -> & He).
    apply list_elem_of_fmap_2, list_elem_of_filter. now split.
  - intros round st s' Hret. unfold AddPendingOperation in Hret.
    destruct (_ && _); [inversion Hret; subst; done|].
    destruct (map_InsertOrDie _ round (pending_txns_ s)) as [m|] eqn:Hins;
      [|done].
    inversion Hret; subst. intros x Hx. simpl in *.
    apply (insert_keys _ _ _ _ Hins). right. now apply Hinv.
Qed.

Lemma in_flight_stay_pending_witness :
  in_flight_are_pending
    (applied (take 2 (batch (Some (mkContinuation 2 apply_refused))))
             failing_batch_replica).
Proof.
  assert (Hinv : in_flight_are_pending failing_batch_replica).
  { intros x Hx. now apply not_elem_of_empty in Hx. }
  assert (Hret :
    MarkConsensusCommittedUpToUnlocked (mkOpId 5 12) failing_batch_replica
    = Returned apply_refused
        (applied (take 2 (batch (Some (mkContinuation 2 apply_refused))))
                 failing_batch_replica))
    by (vm_compute; reflexivity).
  exact (proj1 (in_flight_stay_pending failing_batch_replica
                  (batch_ordered _) (batch_keyed _) Hinv) _ _ _ Hret).
Defined.

(** X5.  The drain latch counts the applies in flight.  [LockForShutdown]
    on a replica that is not yet shutting down arms the latch with the
    number of ids in [in_flight_commits]; in SHUTTING_DOWN each completed
    apply ([update_committed_op_id] followed by
    [CountDownOutstandingCommitsIfShuttingDown]) keeps the latch equal to
    that number, so the latch is at zero exactly when nothing is in
    flight. *)
Theorem drain_latch_counts_in_flight (s : ReplicaState) :
  (state_ s ≠ kShutDown → state_ s ≠ kShuttingDown →
   (LockForShutdown s).1 = OK ∧
   state_ (LockForShutdown s).2 = kShuttingDown ∧
   latch_counts_in_flight (LockForShutdown s).2) ∧
  (state_ s = kShuttingDown → latch_counts_in_flight s →
   ∀ op_id s1,
     UpdateCommittedOpIdUnlocked op_id s = Some s1 →
     let s2 := CountDownOutstandingCommitsIfShuttingDown s1 in
     state_ s2 = kShuttingDown ∧
     latch_counts_in_flight s2 ∧
     (in_flight_applies_latch_ s2 = 0%N ↔ in_flight_commits_ s2 = ∅)).
Proof.
  split.
  - intros Hn1 Hn2. unfold LockForShutdown.
    rewrite !decide_False by done. simpl. repeat split.
  - intros Hstate Hlatch op_id s1 Hret s2.
    unfold UpdateCommittedOpIdUnlocked in Hret.
    destruct (decide (op_id ∈ in_flight_commits_ s)) as [Hin|]; [|done].
    cbn -[MarkFinished] in Hret.
    destruct (EraseKeyReturnValuePtr op_id (pending_txns_ s)) as [[v|] m];
      [|done].
    cbn -[MarkFinished] in Hret. inversion Hret; subst s1; clear Hret.
    subst s2. unfold CountDownOutstandingCommitsIfShuttingDown.
    simpl. rewrite decide_True by done. simpl.
    assert (Hcount : latch_counts_in_flight
              (with_latch (CountDown (in_flight_applies_latch_ s))
                 (with_in_flight_commits
                    (in_flight_commits_ s ∖ {[op_id]}) s))).
    { unfold latch_counts_in_flight in *. simpl. rewrite Hlatch.
      unfold CountDown.
      rewrite size_difference by (now apply singleton_subseteq_l).
      rewrite size_singleton. lia. }
    split; [done|]. split; [exact Hcount|].
    unfold latch_counts_in_flight in Hcount. simpl in Hcount. simpl.
    rewrite Hcount. split.
    + intros Hz. apply leibniz_equiv, size_empty_inv. lia.
    + intros ->. now rewrite size_empty.
Qed.

Lemma drain_latch_counts_in_flight_witness :
  ∃ s1,
    UpdateCommittedOpIdUnlocked (mkOpId 5 10) draining_replica = Some s1 ∧
    latch_counts_in_flight (CountDownOutstandingCommitsIfShuttingDown s1).
Proof.
  assert (Hlatch : latch_counts_in_flight draining_replica)
    by (vm_compute; reflexivity).
  destruct (UpdateCommittedOpIdUnlocked (mkOpId 5 10) draining_replica)
    as [s1|] eqn:Hret; [|vm_compute in Hret; discriminate].
  exists s1. split; [reflexivity|].
  exact (proj1 (proj2 (proj2 (drain_latch_counts_in_flight draining_replica)
                         eq_refl Hlatch _ _ Hret))).
Defined.

End PendingFurther.

(** ** Ids, start and terms *)

Section IdsFurther.
Import Consensus ReplicaLifecycle.

Lemma wrap64_add_l (a b : N) : wrap64 (wrap64 a + b) = wrap64 (a + b).
Proof. unfold wrap64. now rewrite N.Div0.add_mod_idemp_l. Qed.

Lemma NewIds_state (k : nat) :
  ∀ s : ReplicaState,
  (NewIds k s).2 = with_next_index (wrap64 (next_index_ s + N.of_nat k)) s ∨
  (k = 0 ∧ (NewIds k s).2 = s).
Proof.
  induction k as [|k IH]; intros s; [right; done|]. left.
  simpl. destruct (IH (with_next_index (wrap64 (next_index_ s + 1)) s))
    as [->|[-> ->]]; simpl.
  - unfold with_next_index. simpl. f_equal.
    rewrite wrap64_add_l. f_equal. lia.
  - reflexivity.
Qed.

Lemma NewIds_ids (k : nat) :
  ∀ s : ReplicaState,
  (next_index_ s + N.of_nat k <= u64_modulus)%N →
  (NewIds k s).1
  = (λ i, mkOpId (GetCurrentTermUnlocked s) (next_index_ s + N.of_nat i))
      <$> seq 0 k.
Proof.
  induction k as [|k IH]; intros s Hk; [done|].
  simpl. f_equal; [f_equal; lia|].
  rewrite <- fmap_S_seq, <- list_fmap_compose.
  destruct k as [|k]; [done|].
  rewrite IH; simpl next_index_.
  - rewrite wrap64_small by lia.
    apply list_fmap_ext. intros i x _. simpl. f_equal. lia.
  - rewrite wrap64_small by lia. lia.
Qed.

(** X6.  Ids handed out in a row.  [k] successive calls of [new_id] on a
    replica with current term [t] and next index [n], with [n + k] not
    beyond [2^64], hand out [(t, n)], [(t, n + 1)], ..., [(t, n + k - 1)]:
    the ids are strictly increasing in OpId order and gap-free, and the
    calls change nothing but [next_index], which ends at [n + k] (as a
    [uint64_t]). *)
Theorem new_ids_strictly_increasing (k : nat) (s : ReplicaState) :
  (next_index_ s + N.of_nat k <= u64_modulus)%N →
  (NewIds k s).1
  = (λ i, mkOpId (GetCurrentTermUnlocked s) (next_index_ s + N.of_nat i))
      <$> seq 0 k ∧
  StronglySorted opid_lt (NewIds k s).1 ∧
  (0 < k → (NewIds k s).2
           = with_next_index (wrap64 (next_index_ s + N.of_nat k)) s).
Proof.
  intros Hk. split; [now apply NewIds_ids|]. split.
  - rewrite NewIds_ids by done. clear Hk.
    generalize 0 as j. induction k as [|k IH]; intros j; simpl; constructor.
    + apply IH.
    + rewrite Forall_fmap, Forall_forall. intros i Hi.
      apply elem_of_seq in Hi. simpl. apply opid_lt_lexicographic.
      right. simpl. split; [done|lia].
  - intros Hpos. destruct (NewIds_state k s) as [?|[-> _]]; [done|lia].
Qed.

Lemma new_ids_strictly_increasing_witness :
  (NewIds 3 example_replica).1 = [mkOpId 5 10; mkOpId 5 11; mkOpId 5 12] ∧
  StronglySorted opid_lt (NewIds 3 example_replica).1.
Proof.
  assert (Hk : (next_index_ example_replica + N.of_nat 3 <= u64_modulus)%N)
    by (vm_compute; discriminate).
  destruct (new_ids_strictly_increasing 3 example_replica Hk)
    as (Hids & Hsorted & _).
  split; [exact Hids|exact Hsorted].
Defined.

(** X7.  Start.  [StartUnlocked(initial_id)] returns InvalidArgument and
    changes nothing when the term of [initial_id] is below the current
    term, and dies when it is above.  When the terms agree it returns OK,
    sets the replicated, received and commit watermarks to [initial_id],
    leaves the lifecycle state as it is, and the next id handed out is
    [(current term, initial_id.index + 1)], which is above the three
    watermarks unless the index was the last [uint64_t]. *)
Theorem start_sets_watermarks (initial_id : OpId) (s : ReplicaState) :
  ((term initial_id < GetCurrentTermUnlocked s)%N →
   ∃ msg, StartUnlocked initial_id s = Returned (InvalidArgument msg) s) ∧
  ((GetCurrentTermUnlocked s < term initial_id)%N →
   StartUnlocked initial_id s = Fatal) ∧
  (term initial_id = GetCurrentTermUnlocked s →
   ∃ s',
     StartUnlocked initial_id s = Returned OK s' ∧
     replicated_op_id_ s' = initial_id ∧
     received_op_id_ s' = initial_id ∧
     last_triggered_apply_ s' = initial_id ∧
     state_ s' = state_ s ∧
     pending_txns_ s' = pending_txns_ s ∧
     (NewIdUnlocked s').1
       = mkOpId (GetCurrentTermUnlocked s) (wrap64 (index initial_id + 1)) ∧
     ((index initial_id < u64_max)%N →
      opid_lt initial_id (NewIdUnlocked s').1)).
Proof.
  unfold StartUnlocked, GetCurrentTermUnlocked. split; [|split].
  - intros Hlt.
    destruct (N.ltb_spec (term initial_id)
                (ConsensusMetadataPB.current_term (pb (cmeta_ s)))); [|lia].
    eauto.
  - intros Hgt.
    destruct (N.ltb_spec (term initial_id)
                (ConsensusMetadataPB.current_term (pb (cmeta_ s)))); [lia|].
    rewrite decide_False; [done|lia].
  - intros Heq.
    destruct (N.ltb_spec (term initial_id)
                (ConsensusMetadataPB.current_term (pb (cmeta_ s)))); [lia|].
    rewrite decide_True by done.
    eexists. split; [reflexivity|]. simpl. repeat split.
    intros Hidx. apply opid_lt_lexicographic. right. simpl.
    split; [done|]. rewrite wrap64_small; unfold u64_max in Hidx; lia.
Qed.

(** X8.  [increment_term] is [set_current_term(current_term + 1)], with the
    same answer of the storage layer, on every replica whose term is below
    [2^64 - 1].  At the last term the two differ: the sum wraps to 0, which
    [set_current_term] refuses with IllegalState while [increment_term]
    stores it. *)
Theorem increment_term_is_set_current_term (disk : Status) (s : ReplicaState) :
  ((GetCurrentTermUnlocked s < u64_max)%N →
   IncrementTermUnlocked disk s
   = SetCurrentTermUnlocked (GetCurrentTermUnlocked s + 1) disk s) ∧
  (GetCurrentTermUnlocked s = u64_max →
   code (SetCurrentTermUnlocked (wrap64 (GetCurrentTermUnlocked s + 1)) disk s).1
     = kIllegalState ∧
   GetCurrentTermUnlocked (IncrementTermUnlocked disk s).2 = 0%N).
Proof.
  split.
  - intros Hlt. rewrite SetCurrentTermUnlocked_accepts by lia.
    unfold IncrementTermUnlocked, flush_cmeta, Flush, with_cmeta, mutable_pb.
    simpl. fold (GetCurrentTermUnlocked s).
    rewrite wrap64_small by (unfold u64_max in Hlt; lia).
    now destruct (ok disk).
  - intros Hmax. split.
    + apply SetCurrentTermUnlocked_rejects. rewrite Hmax. vm_compute. done.
    + rewrite IncrementTermUnlocked_term, Hmax. reflexivity.
Qed.

End IdsFurther.

(** ** Quorum changes, locks and the lifecycle *)

Section LifecycleFurther.
Import Consensus ReplicaLifecycle.


(** X9.  A quorum change, from proposal to commit.  On a replica with no
    quorum change pending, [set_pending_quorum(q)] returns OK, fills the
    pending slot with [q], rebuilds the active snapshot from [q] at once
    and leaves the committed quorum as it was.  While [q] is pending, a
    second [set_pending_quorum] dies and so does [set_committed_quorum] of
    any other quorum.  [set_committed_quorum(q)] with a flush that succeeds
    returns OK, empties the pending slot, and makes [q] the committed
    quorum in memory and on disk; the active snapshot is still the one
    built from [q]. *)
Theorem pending_quorum_round_trip (q : QuorumPB.t) (disk : Status)
    (s : ReplicaState) :
  pending_quorum_ s = None →
  ok disk = true →
  ∃ s1 s2,
    SetPendingQuorumUnlocked q s = Returned OK s1 ∧
    GetPendingQuorumUnlocked s1 = Some q ∧
    GetCommittedQuorumUnlocked s1 = GetCommittedQuorumUnlocked s ∧
    active_quorum_state_ s1 = Build q (peer_uuid_ s) ∧
    (∀ q', SetPendingQuorumUnlocked q' s1 = Fatal) ∧
    (∀ q', q' ≠ q → SetCommittedQuorumUnlocked q' disk s1 = Fatal) ∧
    SetCommittedQuorumUnlocked q disk s1 = Returned OK s2 ∧
    GetPendingQuorumUnlocked s2 = None ∧
    GetCommittedQuorumUnlocked s2 = q ∧
    ConsensusMetadataPB.committed_quorum (persisted s2) = q ∧
    active_quorum_state_ s2 = Build q (peer_uuid_ s).
Proof.
  intros Hnone Hok.
  unfold SetPendingQuorumUnlocked, IsQuorumChangePendingUnlocked.
  rewrite Hnone. simpl.
  eexists _, _. split; [reflexivity|]. simpl.
  split; [done|]. split; [done|]. split; [done|].
  split; [done|]. split.
  - intros q' Hne. unfold SetCommittedQuorumUnlocked. simpl.
    now rewrite decide_False by congruence.
  - unfold SetCommittedQuorumUnlocked, flush_cmeta, Flush. simpl.
    rewrite decide_True by done. simpl. rewrite Hok.
    split; [reflexivity|]. repeat split.
Qed.

Lemma pending_quorum_round_trip_witness :
  ∃ s1 s2,
    SetPendingQuorumUnlocked example_quorum example_replica = Returned OK s1 ∧
    SetCommittedQuorumUnlocked example_quorum OK s1 = Returned OK s2 ∧
    GetPendingQuorumUnlocked s2 = None ∧
    GetCommittedQuorumUnlocked s2 = example_quorum.
Proof.
  destruct (pending_quorum_round_trip example_quorum OK example_replica
              eq_refl eq_refl)
    as (s1 & s2 & H1 & _ & _ & _ & _ & _ & H2 & Hp & Hc & _).
  exists s1, s2. repeat split; assumption.
Defined.



Lemma MarkConsensusCommittedUpToUnlocked_state (id : OpId)
    (s s' : ReplicaState) (st : Status) :
  MarkConsensusCommittedUpToUnlocked id s = Returned st s' →
  state_ s' = state_ s.
Proof.
  unfold MarkConsensusCommittedUpToUnlocked. intros Hret.
  destruct (bool_decide (state_ s = kShuttingDown) ||
            bool_decide (state_ s = kShutDown));
    [now inversion Hret|].
  destruct (bool_decide (state_ s ≠ kRunning)); [now inversion Hret|].
  case_bool_decide; [now inversion Hret|].
  destruct (commit_loop _ s) as [|st1 s1] eqn:Hloop; [done|].
  apply commit_loop_frame in Hloop as (_ & Hframe & _).
  assert (Hs1 : state_ s1 = state_ s)
    by (unfold commit_frame in Hframe; now injection Hframe).
  destruct (ok st1); inversion Hret; subst; exact Hs1.
Qed.

Lemma AddPendingOperation_state (round : ConsensusRound)
    (s s' : ReplicaState) (st : Status) :
  AddPendingOperation round s = Returned st s' → state_ s' = state_ s.
Proof.
  unfold AddPendingOperation. intros Hret.
  destruct (_ && _); [now inversion Hret|].
  destruct (map_InsertOrDie _ _ _); [now inversion Hret|done].
Qed.

Lemma StartUnlocked_state (initial_id : OpId) (s s' : ReplicaState)
    (st : Status) :
  StartUnlocked initial_id s = Returned st s' → state_ s' = state_ s.
Proof.
  unfold StartUnlocked. intros Hret.
  destruct (_ <? _)%N; [now inversion Hret|].
  destruct (decide _); [now inversion Hret|done].
Qed.

(** X11.  The lifecycle graph the code implements.  A call of a lock entry
    point, of [Shutdown], [SetConfigDoneUnlocked], [StartUnlocked],
    [add_pending] or [mark_consensus_committed_up_to] that returns leaves
    the lifecycle state as it was, except for four moves:
    [LockForConfigChange] from INITIALIZED or RUNNING to CHANGING_CONFIG,
    [SetConfigDoneUnlocked] from CHANGING_CONFIG to RUNNING,
    [LockForShutdown] from any state but SHUT_DOWN to SHUTTING_DOWN, and
    [Shutdown] from SHUTTING_DOWN to SHUT_DOWN.  So SHUT_DOWN is never left,
    and RUNNING is entered only by [SetConfigDoneUnlocked]: [StartUnlocked]
    does not move the replica to RUNNING. *)
Theorem lifecycle_follows_graph (c : LifecycleCall) (s s' : ReplicaState)
    (st : Status) :
  run_lifecycle c s = Returned st s' →
  (state_ s' = state_ s ∨
   (c = call_LockForConfigChange ∧
    (state_ s = kInitialized ∨ state_ s = kRunning) ∧
    state_ s' = kChangingConfig) ∨
   (c = call_SetConfigDoneUnlocked ∧
    state_ s = kChangingConfig ∧ state_ s' = kRunning) ∨
   (c = call_LockForShutdown ∧
    state_ s ≠ kShutDown ∧ state_ s' = kShuttingDown) ∨
   (c = call_Shutdown ∧
    state_ s = kShuttingDown ∧ state_ s' = kShutDown)) ∧
  lifecycle_edge (state_ s) (state_ s') ∧
  (state_ s = kShutDown → state_ s' = kShutDown) ∧
  (state_ s' = kRunning →
   state_ s = kRunning ∨ c = call_SetConfigDoneUnlocked).
Proof.
  intros Hret.
  assert (Hmove :
    state_ s' = state_ s ∨
    (c = call_LockForConfigChange ∧
     (state_ s = kInitialized ∨ state_ s = kRunning) ∧
     state_ s' = kChangingConfig) ∨
    (c = call_SetConfigDoneUnlocked ∧
     state_ s = kChangingConfig ∧ state_ s' = kRunning) ∨
    (c = call_LockForShutdown ∧
     state_ s ≠ kShutDown ∧ state_ s' = kShuttingDown) ∨
    (c = call_Shutdown ∧
     state_ s = kShuttingDown ∧ state_ s' = kShutDown)).
  { destruct c; simpl in Hret.
    - unfold LockForStart in Hret.
      destruct (decide _); [|done]. left. now inversion Hret.
    - left. now inversion Hret.
    - unfold LockForReplicate in Hret. left.
      destruct (bool_decide _); [now inversion Hret|].
      destruct (role _); try (now inversion Hret).
      destruct (bool_decide _); [now inversion Hret|].
      destruct (decide _); [now inversion Hret|done].
    - unfold LockForCommit in Hret. left.
      destruct (_ && _); now inversion Hret.
    - unfold LockForConfigChange in Hret.
      destruct (bool_decide_reflect (state_ s = kInitialized)) as [Hi|Hi];
        destruct (bool_decide_reflect (state_ s = kRunning)) as [Hr|Hr];
        simpl in Hret; try done; inversion Hret; subst;
        right; left; simpl; tauto.
    - unfold LockForElection in Hret. left.
      destruct (negb _); now inversion Hret.
    - unfold LockForUpdate in Hret. left.
      destruct (bool_decide _); [now inversion Hret|].
      destruct (role _); now inversion Hret.
    - inversion Hret; subst. unfold LockForShutdown.
      destruct (decide (state_ s = kShutDown)); [now left|].
      destruct (decide (state_ s = kShuttingDown)); [now left|].
      right. right. right. left. simpl. tauto.
    - unfold Shutdown in Hret. destruct (decide _); [|done].
      inversion Hret; subst. do 4 right. simpl. tauto.
    - unfold SetConfigDoneUnlocked in Hret. destruct (decide _); [|done].
      inversion Hret; subst. right. right. left. simpl. tauto.
    - left. eauto using StartUnlocked_state.
    - left. eauto using AddPendingOperation_state.
    - left. eauto using MarkConsensusCommittedUpToUnlocked_state. }
  split; [exact Hmove|]. unfold lifecycle_edge.
  destruct Hmove
    as [H|[(Hc & [H1|H1] & H2)|[(Hc & H1 & H2)|[(Hc & H1 & H2)|(Hc & H1 & H2)]]]];
    rewrite ?H, ?H1, ?H2; intuition congruence.
Qed.

Lemma lifecycle_follows_graph_witness :
  lifecycle_edge kRunning kChangingConfig ∧
  lifecycle_edge kChangingConfig kRunning.
Proof.
  split.
  - exact (proj1 (proj2 (lifecycle_follows_graph call_LockForConfigChange
             example_replica (with_state kChangingConfig example_replica) OK
             eq_refl))).
  - exact (proj1 (proj2 (lifecycle_follows_graph call_SetConfigDoneUnlocked
             (with_state kChangingConfig example_replica)
             (with_state kRunning (with_state kChangingConfig example_replica))
             OK eq_refl))).
Defined.

Lemma abort_loop_all (m : list (OpId * ConsensusRound))
    (in_flight : gset OpId) :
  (∀ e, e ∈ m → e.1 ∉ in_flight →
        is_Some (GetReplicaCommitContinuation e.2)) →
  abort_loop m in_flight
  = Some (omap (λ e, continuation_handle <$> GetReplicaCommitContinuation e.2)
               (filter (λ e, e.1 ∉ in_flight) m)).
Proof.
  induction m as [|e m IH]; intros Hcont; [done|].
  simpl. rewrite filter_cons.
  destruct (decide (e.1 ∈ in_flight)) as [Hin|Hout].
  - rewrite decide_False by tauto. apply IH.
    intros e' He'. apply Hcont. now right.
  - rewrite decide_True by done. simpl.
    destruct (Hcont e (list_elem_of_here _ _) Hout) as [c ->]. simpl.
    rewrite IH; [done|]. intros e' He'. apply Hcont. now right.
Qed.

Lemma abort_loop_null (m : list (OpId * ConsensusRound))
    (in_flight : gset OpId) (e : OpId * ConsensusRound) :
  e ∈ m → e.1 ∉ in_flight → GetReplicaCommitContinuation e.2 = None →
  abort_loop m in_flight = None.
Proof.
  induction m as [|x m IH]; intros He Hout Hnull; [inversion He|].
  simpl. apply elem_of_cons in He as [<-|He].
  - rewrite decide_False by done. now rewrite Hnull.
  - rewrite (IH He Hout Hnull).
    destruct (decide _); [done|].
    destruct (GetReplicaCommitContinuation x.2); reflexivity.
Qed.

(** X12.  Aborting what has not started.  [CancelPendingTransactions]
    outside SHUTTING_DOWN returns IllegalState and aborts nothing.  In
    SHUTTING_DOWN it calls [Abort()] on the continuation of each pending
    round whose id is not in [in_flight_commits], in OpId order of the
    pending map, skips every round whose apply is in flight, and returns
    OK; it dies if a round that is not in flight has no continuation. *)
Theorem cancel_pending_transactions (s : ReplicaState) :
  (state_ s ≠ kShuttingDown →
   ∃ msg, CancelPendingTransactions s = Returned (IllegalState msg) []) ∧
  (state_ s = kShuttingDown →
   (∀ e, e ∈ pending_txns_ s → e.1 ∉ in_flight_commits_ s →
         is_Some (GetReplicaCommitContinuation e.2)) →
   CancelPendingTransactions s
   = Returned OK
       (omap (λ e, continuation_handle <$> GetReplicaCommitContinuation e.2)
             (filter (λ e, e.1 ∉ in_flight_commits_ s) (pending_txns_ s)))) ∧
  (state_ s = kShuttingDown →
   (∃ e, e ∈ pending_txns_ s ∧ (e.1 ∉ in_flight_commits_ s) ∧
         GetReplicaCommitContinuation e.2 = None) →
   CancelPendingTransactions s = Fatal).
Proof.
  unfold CancelPendingTransactions. split; [|split].
  - intros Hstate. rewrite bool_decide_true by done. eauto.
  - intros Hstate Hcont. rewrite bool_decide_false by tauto.
    now rewrite abort_loop_all.
  - intros Hstate (e & He & Hout & Hnull). rewrite bool_decide_false by tauto.
    now rewrite (abort_loop_null _ _ e).
Qed.

Lemma FindOrNull_present {V : Type} (k : OpId) (m : list (OpId * V)) :
  k ∈ keys m → is_Some (FindOrNull m k).
Proof.
  unfold FindOrNull, keys. induction m as [|e m IH]; simpl.
  - intros H. inversion H.
  - intros H. destruct (decide (OpIdCompare e.1 k = 0%Z)) as [E|E]; [eauto|].
    apply elem_of_cons in H as [->|H];
      [now rewrite OpIdCompare_refl in E|].
    destruct (IH H) as [v Hv].
    destruct (list_find _ m) as [[i r]|]; simpl in *; [eauto|done].
Qed.

Lemma RegisterCallback_elem (op_id : OpId) (cb : FutureCallback)
    (ws : OpIdWaiterSet) (w : OpId * FutureCallback) :
  w ∈ RegisterCallback op_id cb ws ↔ w = (op_id, cb) ∨ w ∈ ws.
Proof.
  induction ws as [|x ws IH]; simpl.
  - rewrite elem_of_cons. tauto.
  - case_bool_decide; rewrite !elem_of_cons; [tauto|]. rewrite IH. tauto.
Qed.

(** X13.  Waiting for replication.  [RegisterOnReplicateCallback(op, cb)]
    returns AlreadyPresent and registers nothing when [op] is at or below
    the replicated watermark.  Above the watermark it returns OK, and then
    an [update_last_replicated_op_id(op')] fires the callback if [op'] is
    at least [op], leaving no watcher registered at or below [op'] (so it
    cannot fire again), and keeps it registered if [op'] is below [op]. *)
Theorem register_on_replicate (op_id : OpId) (cb : FutureCallback)
    (s : ReplicaState) :
  (opid_le op_id (replicated_op_id_ s) →
   ∃ msg, RegisterOnReplicateCallback op_id cb s = (AlreadyPresent msg, s)) ∧
  (opid_lt (replicated_op_id_ s) op_id →
   ∃ s1,
     RegisterOnReplicateCallback op_id cb s = (OK, s1) ∧
     (∀ op', opid_le op_id op' →
        FireReplicateWatcher op_id cb
          ∈ effects (UpdateLastReplicatedOpIdUnlocked op' s1) ∧
        ∀ w, w ∈ replicate_watchers_ (UpdateLastReplicatedOpIdUnlocked op' s1) →
             opid_lt op' w.1) ∧
     (∀ op', opid_lt op' op_id →
        (op_id, cb)
          ∈ replicate_watchers_ (UpdateLastReplicatedOpIdUnlocked op' s1))).
Proof.
  unfold RegisterOnReplicateCallback. split.
  - intros Hle. rewrite bool_decide_false; [eauto|].
    intros Hgt. apply (opid_lt_irrefl op_id).
    apply (opid_le_lt_trans _ _ _ Hle). apply OpIdCompare_flip. lia.
  - intros Hlt. rewrite bool_decide_true
      by (apply OpIdCompare_flip in Hlt; lia).
    eexists. split; [reflexivity|].
    unfold UpdateLastReplicatedOpIdUnlocked, MarkFinished. simpl. split.
    + intros op' Hle. split.
      * apply elem_of_app. right.
        apply (list_elem_of_fmap_2 (λ w, FireReplicateWatcher w.1 w.2)
                 _ (op_id, cb)).
        apply list_elem_of_filter. split.
        -- simpl. now apply bool_decide_eq_true.
        -- apply RegisterCallback_elem. now left.
      * intros w Hw. apply list_elem_of_filter in Hw as [Hw _].
        simpl in Hw. apply bool_decide_eq_false in Hw.
        now apply opid_not_le.
    + intros op' Hlt'. apply list_elem_of_filter. split.
      * simpl. apply bool_decide_eq_false. now apply opid_not_le.
      * apply RegisterCallback_elem. now left.
Qed.

(** X14.  Waiting for a commit.  [RegisterOnCommitCallback(op, cb)]
    registers the callback and returns OK when [op] is above the
    replicated watermark or is still pending; otherwise it returns
    AlreadyPresent and registers nothing.  In particular, once
    [update_committed_op_id(op)] has recorded the commit of an operation at
    or below the replicated watermark, a commit callback for it is
    refused. *)
Theorem register_on_commit (op_id : OpId) (cb : FutureCallback)
    (s : ReplicaState) :
  (opid_lt (replicated_op_id_ s) op_id ∨ op_id ∈ keys (pending_txns_ s) →
   ∃ s1,
     RegisterOnCommitCallback op_id cb s = (OK, s1) ∧
     (op_id, cb) ∈ commit_watchers_ s1) ∧
  (opid_le op_id (replicated_op_id_ s) →
   op_id ∉ keys (pending_txns_ s) →
   ∃ msg, RegisterOnCommitCallback op_id cb s = (AlreadyPresent msg, s)) ∧
  (ordered (pending_txns_ s) →
   opid_le op_id (replicated_op_id_ s) →
   ∀ s1,
     UpdateCommittedOpIdUnlocked op_id s = Some s1 →
     ∃ msg, RegisterOnCommitCallback op_id cb s1 = (AlreadyPresent msg, s1)).
Proof.
  assert (Hrefuse : ∀ s0 : ReplicaState,
    opid_le op_id (replicated_op_id_ s0) →
    op_id ∉ keys (pending_txns_ s0) →
    ∃ msg, RegisterOnCommitCallback op_id cb s0 = (AlreadyPresent msg, s0)).
  { intros s0 Hle Hout. unfold RegisterOnCommitCallback.
    rewrite bool_decide_false.
    - rewrite (find_absent _ _ Hout).
      rewrite bool_decide_false; [eauto|]. now intros [? ?].
    - intros Hgt. apply (opid_lt_irrefl op_id).
      apply (opid_le_lt_trans _ _ _ Hle). apply OpIdCompare_flip. lia. }
  split; [|split].
  - intros Hcase. unfold RegisterOnCommitCallback.
    assert (Hreg : (op_id, cb)
              ∈ RegisterCallback op_id cb (commit_watchers_ s))
      by (apply RegisterCallback_elem; now left).
    case_bool_decide as Hgt; [eexists; split; [reflexivity|exact Hreg]|].
    destruct Hcase as [Hlt|Hin].
    + exfalso. apply Hgt. apply OpIdCompare_flip in Hlt. lia.
    + rewrite bool_decide_true by now apply FindOrNull_present.
      eexists. split; [reflexivity|exact Hreg].
  - apply Hrefuse.
  - intros Hord Hle s1 Hret. apply Hrefuse.
    + unfold UpdateCommittedOpIdUnlocked in Hret.
      destruct (decide _); [|done]. cbn -[MarkFinished] in Hret.
      destruct (EraseKeyReturnValuePtr _ _) as [[v|] m]; [|done].
      cbn -[MarkFinished] in Hret.
      destruct (MarkFinished _ _ _). now inversion Hret.
    + unfold UpdateCommittedOpIdUnlocked in Hret.
      destruct (decide _); [|done]. cbn -[MarkFinished] in Hret.
      pose proof (erase_filter op_id (pending_txns_ s) Hord) as Hrest.
      destruct (EraseKeyReturnValuePtr _ _) as [[v|] m]; [|done].
      cbn -[MarkFinished] in Hret.
      destruct (MarkFinished _ _ _). inversion Hret; subst s1. simpl in *.
      subst m. unfold keys. rewrite list_elem_of_fmap.
      intros (e0 & -> & He). apply list_elem_of_filter in He as [He _].
      now apply He.
Qed.

End LifecycleFurther.

(** ** The majority tracker *)

Section TrackerFurther.
Import Consensus ReplicaLifecycle.

Lemma AckPeers_counts (uuids : list string) :
  ∀ t : MajorityOpStatusTracker,
  Forall (λ u, u ≠ ""%string) uuids →
  (0 <= replicated_count_ t)%Z →
  (replicated_count_ t + Z.of_nat (length uuids) <= INT_MAX)%Z →
  ∃ t',
    AckPeers uuids t = Some t' ∧
    completion_latch_ t'
      = (completion_latch_ t
         - N.of_nat (voting_acks (tracker_voting_peers_ t) uuids))%N ∧
    replicated_count_ t' = (replicated_count_ t + Z.of_nat (length uuids))%Z ∧
    tracker_voting_peers_ t' = tracker_voting_peers_ t ∧
    total_peers_count_ t' = total_peers_count_ t ∧
    majority_ t' = majority_ t.
Proof.
  induction uuids as [|u uuids IH]; intros t Hne Hpos Hmax.
  - exists t. simpl. repeat split; [|lia].
    unfold voting_acks. simpl. lia.
  - apply Forall_cons in Hne as [Hu Hne]. simpl in Hmax.
    simpl. unfold AckPeer. rewrite decide_False by done.
    set (t1 := mkTracker _ _ _ _ _).
    assert (Hc1 : replicated_count_ t1 = (replicated_count_ t + 1)%Z).
    { unfold t1. simpl. apply to_int32_small. unfold INT_MAX in *. lia. }
    destruct (IH t1 Hne) as (t' & -> & Hlatch & Hcount & Hv & Ht & Hm);
      [lia|lia|].
    exists t'. split; [done|]. rewrite Hlatch, Hcount, Hc1, Hv, Ht, Hm.
    repeat split; [|lia].
    unfold t1, voting_acks. simpl. rewrite filter_cons.
    destruct (decide (u ∈ tracker_voting_peers_ t)); simpl;
      unfold CountDown; lia.
Qed.

Lemma AckPeers_empty_uuid (uuids : list string) :
  ∀ t : MajorityOpStatusTracker,
  ""%string ∈ uuids → AckPeers uuids t = None.
Proof.
  induction uuids as [|u uuids IH]; intros t Hin; [inversion Hin|].
  simpl. unfold AckPeer.
  destruct (decide (u = ""%string)) as [Heq|Hu]; [done|].
  apply elem_of_cons in Hin as [Heq|Hin]; [congruence|]. now apply IH.
Qed.

Lemma AckPeers_debug_empty_uuid (uuids : list string) :
  ∀ t : MajorityOpStatusTracker,
  ""%string ∈ uuids → AckPeers_debug uuids t = None.
Proof.
  induction uuids as [|u uuids IH]; intros t Hin; [inversion Hin|].
  simpl. unfold AckPeer_debug.
  destruct (decide (u = ""%string)) as [Heq|Hu]; [done|].
  destruct (decide (_ <= _)%Z); [|done].
  apply elem_of_cons in Hin as [Heq|Hin]; [congruence|]. now apply IH.
Qed.

(** The [DCHECK_LE] holds at every acknowledgement exactly when no more
    than the total arrive. *)
Lemma AckPeers_debug_counts (uuids : list string) :
  ∀ t : MajorityOpStatusTracker,
  Forall (λ u, u ≠ ""%string) uuids →
  (0 <= replicated_count_ t)%Z →
  (replicated_count_ t + Z.of_nat (length uuids) <= INT_MAX)%Z →
  (uuids = [] ∨
   (replicated_count_ t + Z.of_nat (length uuids) <= total_peers_count_ t)%Z →
   AckPeers_debug uuids t = AckPeers uuids t) ∧
  (uuids ≠ [] →
   (total_peers_count_ t < replicated_count_ t + Z.of_nat (length uuids))%Z →
   AckPeers_debug uuids t = None).
Proof.
  induction uuids as [|u uuids IH]; intros t Hne Hpos Hmax; [done|].
  apply Forall_cons in Hne as [Hu Hne]. simpl in Hmax.
  simpl. unfold AckPeer_debug, AckPeer.
  destruct (decide (u = ""%string)) as [|_]; [done|].
  rewrite to_int32_small by (unfold INT_MAX in *; lia).
  set (t1 := mkTracker _ _ _ _ _).
  destruct (IH t1 Hne) as [IHsame IHdies];
    [simpl; lia|simpl; lia|]. simpl in IHsame, IHdies.
  split.
  - intros [Hnil|Hle]; [done|].
    rewrite decide_True by lia. apply IHsame. right. lia.
  - intros _ Hgt.
    destruct (decide (_ <= _)%Z) as [Hle|Hdies]; [|done].
    apply IHdies; [|lia].
    intros ->. simpl in Hgt. lia.
Qed.

(** X15.  When an operation is done.  A tracker built with a majority
    within the range of a non-negative [int], after the acknowledgements of
    a list of peers with non-empty uuids, is done exactly when at least
    [majority] of the acknowledgements came from voting peers, and all done
    exactly when at least [total] acknowledgements arrived; acknowledgements
    are counted blindly, a peer that acknowledges twice counts twice.  That
    is what a release build does for every such list.  A debug build does
    the same, ending in the same tracker, as long as no more
    acknowledgements arrive than the total says, and dies on its
    [DCHECK_LE] when more do.  An acknowledgement with an empty uuid kills
    the process in either build. *)
Theorem tracker_done_at_majority (voting : gset string)
    (majority total : Z) (uuids : list string) :
  (0 <= majority <= INT_MAX)%Z →
  (Z.of_nat (length uuids) <= INT_MAX)%Z →
  (""%string ∈ uuids →
   AckPeers uuids (new_MajorityOpStatusTracker voting majority total) = None ∧
   AckPeers_debug uuids (new_MajorityOpStatusTracker voting majority total)
   = None) ∧
  (Forall (λ u, u ≠ ""%string) uuids →
   ∃ t,
     AckPeers uuids (new_MajorityOpStatusTracker voting majority total) = Some t ∧
     (IsDone t = true ↔ (majority <= Z.of_nat (voting_acks voting uuids))%Z) ∧
     (IsAllDone t = true ↔ (total <= Z.of_nat (length uuids))%Z) ∧
     ((Z.of_nat (length uuids) <= Z.max 0 total)%Z →
      AckPeers_debug uuids (new_MajorityOpStatusTracker voting majority total)
      = Some t) ∧
     ((Z.max 0 total < Z.of_nat (length uuids))%Z →
      AckPeers_debug uuids (new_MajorityOpStatusTracker voting majority total)
      = None)).
Proof.
  intros Hmaj Hlen. split.
  { intros Hin. split;
      [now apply AckPeers_empty_uuid|now apply AckPeers_debug_empty_uuid]. }
  intros Hne.
  destruct (AckPeers_counts uuids (new_MajorityOpStatusTracker voting majority total) Hne)
    as (t & Hret & Hlatch & Hcount & _ & Htotal & _); simpl; [lia|lia|].
  destruct (AckPeers_debug_counts uuids
              (new_MajorityOpStatusTracker voting majority total) Hne)
    as [Hsame Hdies]; simpl; [lia|lia|]. simpl in Hsame, Hdies.
  exists t. split; [exact Hret|]. simpl in *.
  unfold IsDone, IsAllDone. rewrite Hlatch, Hcount, Htotal.
  rewrite !bool_decide_eq_true.
  rewrite Z.mod_small by (unfold INT_MAX in Hmaj; lia).
  split; [lia|]. split; [lia|]. split.
  - intros Hle. rewrite <- Hret. apply Hsame.
    destruct uuids as [|u uuids]; [now left|right]. simpl in *. lia.
  - intros Hgt. apply Hdies; [|lia].
    intros ->. simpl in Hgt. lia.
Qed.

Lemma tracker_done_at_majority_witness :
  ∃ t,
    AckPeers ["peer-d"; "peer-a"; "peer-c"]%string
      (new_MajorityOpStatusTracker {[ "peer-a"; "peer-b"; "peer-c" ]}%string 2 4)
    = Some t ∧
    AckPeers_debug ["peer-d"; "peer-a"; "peer-c"]%string
      (new_MajorityOpStatusTracker {[ "peer-a"; "peer-b"; "peer-c" ]}%string 2 4)
    = Some t ∧
    (IsDone t = true ↔
     (2 <= Z.of_nat
             (voting_acks {[ "peer-a"; "peer-b"; "peer-c" ]}%string
                          ["peer-d"; "peer-a"; "peer-c"]%string))%Z).
Proof.
  assert (Hmaj : (0 <= 2 <= INT_MAX)%Z) by (vm_compute; split; discriminate).
  assert (Hlen : (Z.of_nat (length ["peer-d"; "peer-a"; "peer-c"]%string)
                  <= INT_MAX)%Z) by (vm_compute; discriminate).
  assert (Hne : Forall (λ u, u ≠ ""%string)
                       ["peer-d"; "peer-a"; "peer-c"]%string)
    by (repeat constructor; discriminate).
  destruct (proj2 (tracker_done_at_majority
                     {[ "peer-a"; "peer-b"; "peer-c" ]}%string 2 4
                     ["peer-d"; "peer-a"; "peer-c"]%string Hmaj Hlen) Hne)
    as (t & Hret & Hdone & _ & Hdebug & _).
  exists t. split; [exact Hret|]. split; [|exact Hdone].
  apply Hdebug. vm_compute. discriminate.
Defined.

(** Where the builds part: a third acknowledgement to a tracker of two
    peers. *)
Example ack_past_total_dies_in_debug :
  is_Some (AckPeers ["peer-a"; "peer-b"; "peer-a"]%string
             (new_MajorityOpStatusTracker {[ "peer-a" ]}%string 1 2)) ∧
  AckPeers_debug ["peer-a"; "peer-b"]%string
    (new_MajorityOpStatusTracker {[ "peer-a" ]}%string 1 2)
  = AckPeers ["peer-a"; "peer-b"]%string
      (new_MajorityOpStatusTracker {[ "peer-a" ]}%string 1 2) ∧
  AckPeers_debug ["peer-a"; "peer-b"; "peer-a"]%string
    (new_MajorityOpStatusTracker {[ "peer-a" ]}%string 1 2) = None.
Proof. vm_compute. split; [eauto|split; reflexivity]. Qed.

Lemma Build_voting_size (quorum : QuorumPB.t) (self_uuid : string) :
  size (voting_peers (Build quorum self_uuid))
  ≤ length (QuorumPB.peers quorum).
Proof.
  unfold Build.
  destruct (Build_loop self_uuid (QuorumPB.peers quorum) NON_PARTICIPANT ∅
              ""%string) as (r & v & l & -> & _ & _ & _ & Hsz).
  simpl. now rewrite size_empty in Hsz.
Qed.

Lemma Build_majority (quorum : QuorumPB.t) (self_uuid : string) :
  (QuorumPB.peers_size quorum <= INT_MAX)%Z →
  majority_size (Build quorum self_uuid)
  = (Z.of_nat (size (voting_peers (Build quorum self_uuid))) / 2 + 1)%Z.
Proof.
  intros Hsize. pose proof (Build_voting_size quorum self_uuid) as Hsz.
  unfold Build in *.
  destruct (foldl _ _ _) as [[r v] l]. simpl in *.
  apply majority_size_exact. unfold QuorumPB.peers_size in Hsize. lia.
Qed.

(** X16.  A strict majority of the voters completes an operation.  For a
    tracker built from the snapshot [Build] makes of a quorum (its voting
    peers, its majority size), after acknowledgements from distinct voting
    peers the operation is done exactly when more than half of the voting
    peers have acknowledged. *)
Theorem strict_majority_of_voters_completes (quorum : QuorumPB.t)
    (self_uuid : string) (acks : list string) :
  (QuorumPB.peers_size quorum <= INT_MAX)%Z →
  Forall (λ u, u ≠ ""%string) acks →
  NoDup acks →
  (∀ u, u ∈ acks → u ∈ voting_peers (Build quorum self_uuid)) →
  let q := Build quorum self_uuid in
  ∃ t,
    AckPeers acks
      (new_MajorityOpStatusTracker (voting_peers q) (majority_size q)
                                   (quorum_size q)) = Some t ∧
    (IsDone t = true ↔ size (voting_peers q) < 2 * length acks).
Proof.
  intros Hsize Hne Hnd Hvoters q.
  pose proof (Build_voting_size quorum self_uuid) as Hsz. fold q in Hsz.
  pose proof (Build_majority quorum self_uuid Hsize) as Hmaj. fold q in Hmaj.
  assert (Hlen : length acks ≤ size (voting_peers q)).
  { rewrite <- (size_list_to_set (C:=gset string) acks) by done.
    apply subseteq_size. intros u Hu. apply elem_of_list_to_set in Hu. auto. }
  unfold QuorumPB.peers_size, INT_MAX in Hsize.
  destruct (AckPeers_counts acks
              (new_MajorityOpStatusTracker (voting_peers q) (majority_size q)
                                           (quorum_size q)) Hne)
    as (t & Hret & Hlatch & _); simpl; [lia|unfold INT_MAX; lia|].
  exists t. split; [exact Hret|]. simpl in Hlatch.
  unfold IsDone. rewrite Hlatch, bool_decide_eq_true.
  assert (Hall : voting_acks (voting_peers q) acks = length acks).
  { unfold voting_acks. f_equal. apply filter_all.
    rewrite Forall_forall. auto. }
  rewrite Hall, Hmaj.
  pose proof (Z.mul_div_le (Z.of_nat (size (voting_peers q))) 2 eq_refl).
  pose proof (Z.mul_succ_div_gt (Z.of_nat (size (voting_peers q))) 2 eq_refl).
  rewrite Z.mod_small by lia. split; lia.
Qed.

Lemma strict_majority_of_voters_completes_witness :
  ∃ t,
    AckPeers ["peer-c"; "peer-a"]%string
      (new_MajorityOpStatusTracker
         (voting_peers (Build example_quorum "peer-a"))
         (majority_size (Build example_quorum "peer-a"))
         (quorum_size (Build example_quorum "peer-a"))) = Some t ∧
    (IsDone t = true ↔
     size (voting_peers (Build example_quorum "peer-a"))
     < 2 * length ["peer-c"; "peer-a"]%string).
Proof.
  assert (Hsize : (QuorumPB.peers_size example_quorum <= INT_MAX)%Z)
    by (vm_compute; discriminate).
  assert (Hne : Forall (λ u, u ≠ ""%string) ["peer-c"; "peer-a"]%string)
    by (repeat constructor; discriminate).
  assert (Hnd : NoDup ["peer-c"; "peer-a"]%string).
  { repeat constructor; rewrite ?elem_of_cons, ?elem_of_nil;
      intros H; intuition discriminate. }
  assert (Hv : ∀ u, u ∈ ["peer-c"; "peer-a"]%string →
                    u ∈ voting_peers (Build example_quorum "peer-a")).
  { intros u Hu. repeat (apply elem_of_cons in Hu as [->|Hu]);
      [vm_compute; reflexivity|vm_compute; reflexivity|inversion Hu]. }
  exact (strict_majority_of_voters_completes example_quorum "peer-a"
           ["peer-c"; "peer-a"]%string Hsize Hne Hnd Hv).
Defined.

End TrackerFurther.

(** ** The phases of a participant op *)

Section PhasesFurther.
Import Tablet ParticipantPhases.

(** X17.  What [Apply] can do.  [ParticipantOp::Apply] never returns an
    error status.  A release build dies exactly when the op type is UNKNOWN
    or the op holds no transaction, and otherwise returns OK with a
    PARTICIPANT_OP commit message, still holding its transaction.  A debug
    build dies in those cases and in one more, on the [DCHECK] of
    [ReleaseMvccOpToTxn]: a BEGIN_COMMIT op that holds no MVCC op; whenever
    it returns, it returns what the release build returns. *)
Theorem apply_dies_or_succeeds (s : ParticipantOpState) :
  (Apply s = Fatal ↔
   ParticipantOpPB.type (request s) = UNKNOWN ∨ txn_ s = None) ∧
  (∀ st r, Apply s = Returned st r →
           st = OK ∧ r.1 = Some (CommitMsg.mk PARTICIPANT_OP) ∧
           is_Some (txn_ r.2)) ∧
  (Apply_debug s = Fatal ↔
   ParticipantOpPB.type (request s) = UNKNOWN ∨ txn_ s = None ∨
   (ParticipantOpPB.type (request s) = BEGIN_COMMIT ∧
    begin_commit_mvcc_op_ s = None)) ∧
  (∀ st r, Apply_debug s = Returned st r → Apply s = Returned st r).
Proof.
  unfold Apply_debug, Apply, ReleaseMvccOpToTxn_debug, PerformOp. simpl.
  destruct (ParticipantOpPB.type (request s)) eqn:Htype;
    destruct (txn_ s) as [txn|] eqn:Htxn;
    destruct (begin_commit_mvcc_op_ s) as [mvcc|] eqn:Hmvcc; simpl;
    try (destruct (commit_op _)); simpl; rewrite ?Htype, ?Hmvcc; simpl;
    (split; [split; [intros H; try discriminate H; auto
                    |intros [H|H]; try discriminate H; auto]|]);
    (split; [intros st r H; try discriminate H; inversion H; subst; simpl;
             rewrite ?Htxn; eauto|]);
    (split; [split; [intros H; try discriminate H; auto
                    |intros [H|[H|[H H']]]; try discriminate H;
                     try discriminate H'; auto]
            |intros st r H; try discriminate H; exact H]).
Qed.

(** Where the builds part: a BEGIN_COMMIT op that holds no MVCC op. *)
Example apply_without_mvcc_op_dies_in_debug :
  (∃ r, Apply (begin_commit_op None) = Returned OK r) ∧
  Apply_debug (begin_commit_op None) = Fatal ∧
  Apply_debug (begin_commit_op (Some (mkScopedOp 100 RESERVED)))
  = Apply (begin_commit_op (Some (mkScopedOp 100 RESERVED))).
Proof. vm_compute. split; [eauto|split; reflexivity]. Qed.

(** X18.  The commit MVCC op changes hands at [Apply].  A BEGIN_COMMIT op
    that holds the MVCC op given to it by [SetMvccOp] hands it to the
    transaction when it is applied and keeps none.  A FINALIZE_COMMIT op
    applied to that transaction afterwards leaves the very same MVCC op
    finished, and an ABORT_TXN op applied instead leaves it aborted; the
    mutators the transaction has seen are [BeginCommit] and then
    [FinalizeCommit] (or [AbortTransaction]), each with the id of its
    op. *)
Theorem commit_op_changes_hands (begin_request next_request : ParticipantOpPB.t)
    (begin_id next_id : OpId) (mvcc_op : ScopedOp) (txn : Txn) :
  ParticipantOpPB.type begin_request = BEGIN_COMMIT →
  ∃ s1 txn1,
    Apply (SetMvccOp mvcc_op (mkOpState begin_request begin_id (Some txn) None 0))
    = Returned OK (Some (CommitMsg.mk PARTICIPANT_OP), s1) ∧
    txn_ s1 = Some txn1 ∧
    commit_op txn1 = Some mvcc_op ∧
    begin_commit_mvcc_op_ s1 = None ∧
    (ParticipantOpPB.type next_request = FINALIZE_COMMIT →
     ∃ s2 txn2,
       Apply (mkOpState next_request next_id (Some txn1) None 0)
       = Returned OK (Some (CommitMsg.mk PARTICIPANT_OP), s2) ∧
       txn_ s2 = Some txn2 ∧
       commit_op txn2 = Some (mkScopedOp (timestamp mvcc_op) APPLIED) ∧
       mutator_calls txn2
       = mutator_calls txn ++
         [CallBeginCommit begin_id;
          CallFinalizeCommit next_id
            (ParticipantOpPB.finalized_commit_timestamp next_request)]) ∧
    (ParticipantOpPB.type next_request = ABORT_TXN →
     ∃ s2 txn2,
       Apply (mkOpState next_request next_id (Some txn1) None 0)
       = Returned OK (Some (CommitMsg.mk PARTICIPANT_OP), s2) ∧
       txn_ s2 = Some txn2 ∧
       commit_op txn2 = Some (mkScopedOp (timestamp mvcc_op) ABORTED) ∧
       mutator_calls txn2
       = mutator_calls txn ++
         [CallBeginCommit begin_id; CallAbortTransaction next_id]).
Proof.
  intros Hbegin.
  unfold Apply, PerformOp, SetMvccOp. simpl. rewrite Hbegin. simpl.
  rewrite Hbegin. simpl.
  eexists _, _. split; [reflexivity|]. simpl.
  split; [reflexivity|]. split; [reflexivity|]. split; [reflexivity|].
  split; intros Hnext; rewrite Hnext; simpl; rewrite Hnext; simpl;
    eexists _, _; (split; [reflexivity|]); simpl;
    (split; [reflexivity|]); (split; [reflexivity|]);
    unfold FinalizeCommit, AbortTransaction, SetCommitOp, BeginCommit,
      call_mutator; simpl; now rewrite <- app_assoc.
Qed.

Lemma commit_op_changes_hands_witness :
  ∃ s1 txn1,
    Apply (SetMvccOp (mkScopedOp 100 RESERVED)
             (mkOpState (ParticipantOpPB.mk 7 BEGIN_COMMIT 0) (mkOpId 5 11)
                        (Some (mkTxn [CallBeginTransaction (mkOpId 5 10)] None))
                        None 0))
    = Returned OK (Some (CommitMsg.mk PARTICIPANT_OP), s1) ∧
    txn_ s1 = Some txn1 ∧
    commit_op txn1 = Some (mkScopedOp 100 RESERVED) ∧
    begin_commit_mvcc_op_ s1 = None.
Proof.
  destruct (commit_op_changes_hands (ParticipantOpPB.mk 7 BEGIN_COMMIT 0)
              finalize_request (mkOpId 5 11) (mkOpId 5 12)
              (mkScopedOp 100 RESERVED)
              (mkTxn [CallBeginTransaction (mkOpId 5 10)] None) eq_refl)
    as (s1 & txn1 & Hret & Htxn & Hop & Hnone & _).
  exists s1, txn1. repeat split; assumption.
Defined.

(** X19.  What [Prepare] lets through.  [Prepare] takes the transaction of
    the request and keeps holding it whatever it returns.  It returns the
    error of the validator of the op type (InvalidArgument for UNKNOWN,
    without asking any validator) and then does not touch the clock.  The
    clock is advanced, to the finalized commit timestamp of the request,
    exactly when validation passed, the op is a FINALIZE_COMMIT and the
    driver is the leader; [Prepare] returns OK exactly when validation
    passed and the clock, if it was asked, answered OK. *)
Theorem prepare_gates_the_clock (type : DriverType) (txn : Txn)
    (v : TxnValidators) (clock : Status) (s : ParticipantOpState) :
  let r := Prepare type txn v clock s in
  let validated := ValidateOp v s in
  txn_ r.2 = Some txn ∧
  request r.2 = request s ∧
  (ParticipantOpPB.type (request s) = UNKNOWN →
   code r.1.1 = kInvalidArgument ∧ r.1.2 = None) ∧
  (ok validated = false → r.1.1 = validated ∧ r.1.2 = None) ∧
  (∀ ts, r.1.2 = Some ts ↔
         ok validated = true ∧
         ParticipantOpPB.type (request s) = FINALIZE_COMMIT ∧
         type = LEADER ∧
         ts = ParticipantOpPB.finalized_commit_timestamp (request s)) ∧
  (r.1.1 = OK ↔
   ok validated = true ∧
   (ParticipantOpPB.type (request s) = FINALIZE_COMMIT → type = LEADER →
    ok clock = true)).
Proof.
  intros r validated. subst r.
  assert (Hnot_ok : ∀ st, ok st = false → st ≠ OK)
    by (intros st Hst ->; discriminate Hst).
  assert (Hunknown : ParticipantOpPB.type (request s) = UNKNOWN →
                     validated = InvalidArgument "unknown op type")
    by (intros Ht; subst validated; unfold ValidateOp; now rewrite Ht).
  unfold Prepare.
  change (ValidateOp v (AcquireTxnAndLock txn s)) with validated.
  change (request (AcquireTxnAndLock txn s)) with (request s).
  destruct (ok validated) eqn:Hv;
    [destruct (bool_decide_reflect
                (ParticipantOpPB.type (request s) = FINALIZE_COMMIT))
      as [Hfin|Hfin];
      destruct (bool_decide_reflect (type = LEADER)) as [Hlead|Hlead];
      simpl; [destruct (ok clock) eqn:Hc; simpl| | |]|simpl];
    repeat split; try done; try (intros; congruence);
    try (intros [= <-]; done);
    try (intros (? & ? & ? & ?); congruence);
    try (intros [? ?]; congruence);
    try (intros E; apply Hnot_ok in Hc; congruence);
    try (apply Hnot_ok in Hv; congruence);
    try (match goal with
         | H : ParticipantOpPB.type (request s) = UNKNOWN |- _ =>
             rewrite (Hunknown H) in *; first [discriminate Hv|reflexivity]
         end).
  intros [_ Hclock]. specialize (Hclock Hfin Hlead). discriminate Hclock.
Qed.

(** X20.  How a participant op ends.  After [Prepare], whatever it
    returned, [Finish] leaves the op holding no transaction and its request
    untouched; [ClearIfInitFailed] is called, for the txn id of the
    request, exactly when the result is ABORTED. *)
Theorem finish_releases_transaction (type : DriverType) (txn : Txn)
    (v : TxnValidators) (clock : Status) (result : OpResult)
    (s : ParticipantOpState) :
  let prepared := (Prepare type txn v clock s).2 in
  let r := Finish result prepared in
  txn_ prepared = Some txn ∧
  txn_ r.1 = None ∧
  request r.1 = request s ∧
  begin_commit_mvcc_op_ r.1 = begin_commit_mvcc_op_ s ∧
  (r.2 = Some (ParticipantOpPB.txn_id (request s)) ↔ result = ABORTED_RESULT) ∧
  (r.2 = None ↔ result = APPLIED_RESULT).
Proof.
  intros prepared r. subst prepared r.
  assert (Hprep : (Prepare type txn v clock s).2 = AcquireTxnAndLock txn s).
  { unfold Prepare. destruct (ok (ValidateOp _ _)); [|done].
    destruct (_ && _); [|done]. now destruct (ok clock). }
  rewrite Hprep. unfold Finish, ReleaseTxn, AcquireTxnAndLock.
  destruct result; simpl; repeat split; try done.
Qed.

End PhasesFurther.

(** ** The callback runnable *)

Section RunnableFurther.
Import Consensus ReplicaLifecycle.

(** X21.  What a callback runnable reports.  A runnable on which
    [set_error] was never called reports success.  After any calls of
    [set_error], [Run] looks at the status set last only: it calls
    [OnFailure] with that status when it is an error, and [OnSuccess] when
    it is OK, also if an error had been set before. *)
Theorem run_reports_last_error (callback : FutureCallback)
    (errors : list Status) :
  Run (new_OperationCallbackRunnable callback) = OnSuccess callback ∧
  ∀ last_error,
    Run (set_errors (errors ++ [last_error])
                    (new_OperationCallbackRunnable callback))
    = if ok last_error then OnSuccess callback
      else OnFailure callback last_error.
Proof.
  split; [reflexivity|]. intros last_error.
  unfold set_errors. rewrite foldl_app. simpl.
  assert (Hcb : ∀ r, callback_ (foldl (λ r e, set_error e r) r errors)
                     = callback_ r).
  { induction errors as [|e errors IH]; intros r; [done|].
    simpl. now rewrite IH. }
  unfold Run, set_error. simpl. now rewrite Hcb.
Qed.

End RunnableFurther.

(** ** The round trip of [new_id] and [cancel_pending] *)

Section CancelClaims.
Import Consensus ReplicaLifecycle.

Lemma wrap64_succ_inj (i n : N) :
  (i < u64_modulus)%N → (n < u64_modulus)%N →
  wrap64 (i + 1) = wrap64 (n + 1) → i = n.
Proof.
  unfold wrap64, u64_modulus. intros Hi Hn.
  pose proof (N.Div0.mod_same (2 ^ 64)) as Hsame.
  destruct (decide (i + 1 = 2 ^ 64)%N) as [Ei|Ei];
    destruct (decide (n + 1 = 2 ^ 64)%N) as [En|En];
    rewrite ?Ei, ?En, ?Hsame.
  - lia.
  - rewrite (N.mod_small (n + 1)) by lia. lia.
  - rewrite (N.mod_small (i + 1)) by lia. lia.
  - rewrite (N.mod_small (i + 1)), (N.mod_small (n + 1)) by lia. lia.
Qed.

(** [CancelPendingOperation] passes exactly when both of its checks do. *)
Lemma CancelPendingOperation_passes (id : OpId) (s : ReplicaState) :
  is_Some (CancelPendingOperation id s) ↔
  GetCurrentTermUnlocked s = term id ∧ next_index_ s = wrap64 (index id + 1).
Proof.
  unfold CancelPendingOperation.
  destruct (decide (GetCurrentTermUnlocked s = term id)) as [Ht|Ht];
    [destruct (decide (next_index_ s = wrap64 (index id + 1))) as [Hi|Hi]|].
  - split; [done|eauto].
  - split; [now intros [? ?]|tauto].
  - split; [now intros [? ?]|tauto].
Qed.

(** C7 (as the code has it).  [cancel_pending] undoes [new_id] for the id
    assigned last.  In a state with current term [t] and next index [n],
    [new_id] returns [(t, n)] and leaves [next_index] at [n + 1] modulo
    [2^64]: [n + 1] when [n < 2^64 - 1].  When the round stamped with that id
    is admitted to a well-formed pending map, [(t, n)], which was no key
    before, is a key of the map and looking it up finds the round.
    [cancel_pending(id')] passes its checks exactly when the term of [id']
    is the current term and its index plus one (modulo [2^64]) is
    [next_index], and dies otherwise: among the ids with a [uint64_t] index
    only [(t, n)] can be cancelled, in a release and in a debug build.  [cancel_pending((t, n))], in
    either build, sets [next_index] back to [n] and erases the
    entry keyed [(t, n)] and no other, so that [(t, n)] is no key any more and the pending map and
    [next_index] are what they were before [new_id] and the admission; so is
    the whole replica. *)
Theorem cancel_pending_undoes_new_id (s s2 : ReplicaState)
    (round : ConsensusRound) :
  let id := (NewIdUnlocked s).1 in
  let s1 := (NewIdUnlocked s).2 in
  ordered (pending_txns_ s) →
  ReplicateMsg.id (replicate_msg round) = id →
  AddPendingOperation round s1 = Returned OK s2 →
  id = mkOpId (GetCurrentTermUnlocked s) (next_index_ s) ∧
  next_index_ s1 = wrap64 (next_index_ s + 1) ∧
  ((next_index_ s < u64_max)%N → next_index_ s1 = (next_index_ s + 1)%N) ∧
  (id ∉ keys (pending_txns_ s)) ∧
  id ∈ keys (pending_txns_ s2) ∧
  (∀ x, x ∈ keys (pending_txns_ s2) ↔ x = id ∨ x ∈ keys (pending_txns_ s)) ∧
  FindOrNull (pending_txns_ s2) id = Some round ∧
  (∀ id',
     is_Some (CancelPendingOperation id' s2) ↔
     term id' = GetCurrentTermUnlocked s2 ∧
     wrap64 (index id' + 1) = next_index_ s2) ∧
  (∀ id',
     (index id' < u64_modulus)%N → (next_index_ s < u64_modulus)%N →
     (is_Some (CancelPendingOperation id' s2) ↔ id' = id) ∧
     (is_Some (CancelPendingOperation_debug id' s2) ↔ id' = id)) ∧
  ∃ s3,
    CancelPendingOperation id s2 = Some s3 ∧
    CancelPendingOperation_debug id s2 = Some s3 ∧
    next_index_ s3 = next_index_ s ∧
    pending_txns_ s3 = filter (λ e, e.1 ≠ id) (pending_txns_ s2) ∧
    (id ∉ keys (pending_txns_ s3)) ∧
    pending_txns_ s3 = pending_txns_ s ∧
    s3 = s.
Proof.
  intros id s1 Hord Hid Hadd. subst id s1. simpl in *.
  unfold AddPendingOperation in Hadd.
  destruct (bool_decide _ && bool_decide _); [now inversion Hadd|].
  rewrite Hid in Hadd. simpl in Hadd.
  set (id := mkOpId (GetCurrentTermUnlocked s) (next_index_ s)) in *.
  destruct (map_InsertOrDie id round (pending_txns_ s)) as [m|] eqn:Hins;
    [|done].
  inversion Hadd; subst s2; clear Hadd. simpl.
  assert (Hfresh : id ∉ keys (pending_txns_ s)).
  { intros Hin. apply (insert_dies_iff id round) in Hin; [|done]. congruence. }
  assert (Hordm : ordered m) by now apply (insert_ordered _ _ _ _ Hord Hins).
  assert (Hpass : ∀ id',
    is_Some (CancelPendingOperation id'
               (with_pending_txns m
                  (with_next_index (wrap64 (next_index_ s + 1)) s))) ↔
    term id' = GetCurrentTermUnlocked s ∧
    wrap64 (index id' + 1) = wrap64 (next_index_ s + 1)).
  { intros id'. rewrite CancelPendingOperation_passes. simpl.
    unfold GetCurrentTermUnlocked. simpl. split; intros [? ?]; split; congruence. }
  split; [done|]. split; [done|].
  split; [intros Hn; apply wrap64_small; unfold u64_max in Hn; lia|].
  split; [exact Hfresh|].
  split; [apply (insert_keys _ _ _ _ Hins); now left|].
  split; [apply (insert_keys _ _ _ _ Hins)|].
  split; [now apply (find_insert _ _ (pending_txns_ s))|].
  assert (Hdebug :
    CancelPendingOperation_debug id
      (with_pending_txns m (with_next_index (wrap64 (next_index_ s + 1)) s))
    = Some (with_pending_txns (pending_txns_ s)
              (with_next_index (next_index_ s)
                 (with_pending_txns m
                    (with_next_index (wrap64 (next_index_ s + 1)) s))))).
  { unfold CancelPendingOperation_debug. simpl.
    rewrite !decide_True by done.
    now rewrite (erase_insert _ _ _ _ Hins). }
  assert (Hunique : ∀ id',
    (index id' < u64_modulus)%N → (next_index_ s < u64_modulus)%N →
    term id' = GetCurrentTermUnlocked s ∧
    wrap64 (index id' + 1) = wrap64 (next_index_ s + 1) →
    id' = id).
  { intros id' Hi Hn [Ht Hw]. apply wrap64_succ_inj in Hw; [|done|done].
    destruct id' as [t' i']. simpl in *. unfold id. congruence. }
  split; [exact Hpass|]. split.
  - intros id' Hi Hn. split; split.
    + intros Hsome. apply Hunique; [done|done|]. now apply Hpass.
    + intros ->. apply Hpass. unfold id. simpl. done.
    + intros Hsome. apply Hunique; [done|done|]. apply Hpass.
      revert Hsome.
      unfold CancelPendingOperation_debug, CancelPendingOperation. simpl.
      destruct (decide (_ = term id')); [|now intros [? ?]].
      destruct (decide (_ = wrap64 (index id' + 1))); [|now intros [? ?]].
      eauto.
    + intros ->. rewrite Hdebug. eauto.
  - rewrite Hdebug. unfold CancelPendingOperation. simpl.
    rewrite !decide_True by done.
    eexists. split; [reflexivity|]. simpl.
    pose proof (erase_filter id m Hordm) as Hfilter.
    rewrite (erase_insert _ _ _ _ Hins) in Hfilter |- *. simpl in *.
    split; [done|]. split; [done|]. split; [exact Hfilter|].
    split; [exact Hfresh|]. split; [done|]. clear. now destruct s.
Qed.

Lemma cancel_pending_undoes_new_id_witness :
  ∃ s3,
    CancelPendingOperation (mkOpId 5 13)
      (with_pending_txns
         (batch None ++ [(mkOpId 5 13, round_at 13 None)])
         (with_next_index 14 batch_replica)) = Some s3 ∧
    CancelPendingOperation_debug (mkOpId 5 13)
      (with_pending_txns
         (batch None ++ [(mkOpId 5 13, round_at 13 None)])
         (with_next_index 14 batch_replica)) = Some s3 ∧
    (mkOpId 5 13 ∉ keys (pending_txns_ s3)) ∧
    s3 = batch_replica.
Proof.
  pose (s2 := with_pending_txns
                (batch None ++ [(mkOpId 5 13, round_at 13 None)])
                (with_next_index 14 batch_replica)).
  destruct (cancel_pending_undoes_new_id batch_replica s2 (round_at 13 None)
              (batch_ordered None) eq_refl eq_refl)
    as (_ & _ & _ & _ & _ & _ & _ & _ & _ &
        s3 & Hcancel & Hdebug & _ & _ & Hgone & _ & Hsame).
  exists s3. split; [exact Hcancel|]. split; [exact Hdebug|].
  split; [exact Hgone|exact Hsame].
Defined.

(** C7, as stated, fails at the last index: [new_id] hands out
    [(5, 2^64 - 1)] and leaves [next_index] at 0, not at [2^64]. *)
Lemma new_id_wraps_next_index :
  next_index_ last_index_replica = 18446744073709551615%N ∧
  (NewIdUnlocked last_index_replica).1 = mkOpId 5 18446744073709551615 ∧
  next_index_ (NewIdUnlocked last_index_replica).2 = 0%N.
Proof. vm_compute. repeat split. Qed.

End CancelClaims.
